(** * Deferred-acceptance matching

    A shallow embedding of the matching functions of
    [Ethical_Mutual_Happiness_Stable_Marriage_Solutions.py]
    ([stable_marriage], [happiness_score], [track_satisfaction],
    [weighted_preference_adjustment] and the two callers
    [stable_marriage_with_happiness] and
    [stable_marriage_with_satisfaction]) and of
    [Ethical_Stable_Marriage_Matching_Algorithms.py] (the five score-based
    variants), and their properties.

    The six matching functions are one loop nest, textually the same up to
    the list the [for] loop walks through and the test by which a woman
    changes partner. The loop nest is embedded once, as a step function on
    the three local variables, and each Python function is that machine
    with its own [policy]. Python dicts passed by the caller are lists of
    items in insertion order; the dicts the functions build are [gmap]s;
    scores are binary64 floats; a raised exception is a value. *)

From Stdlib Require Import Floats Sorted.
From stdpp Require Import gmap strings list fin_maps.

#[local] Set Warnings "-inexact-float".

(** ** Python values and exceptions *)

(** The two exceptions the functions can raise: a failed dictionary
    subscript and a failed [list.index]. *)
Inductive exn := KeyError | ValueError.

(** What evaluating an expression does: yield a value or raise. *)
Inductive result (A : Type) :=
  | Ok (a : A)
  | Raise (e : exn).
Arguments Ok {A} a.
Arguments Raise {A} e.

#[global] Instance result_ret : MRet result := @Ok.
#[global] Instance result_bind : MBind result := λ A B f m,
  match m with
  | Ok a => f a
  | Raise e => Raise e
  end.

(** [d[k]] on an optional lookup: [KeyError] when the key is absent. *)
Definition subscript {A} (o : option A) : result A :=
  match o with
  | Some a => Ok a
  | None => Raise KeyError
  end.

Section engine.
Context {agent : Type} `{Countable agent}.

(** A dict given by the caller, as the ordered sequence of its items
    (Python dicts keep insertion order; the keys are pairwise distinct). *)
Fixpoint getitem {V} (d : list (agent * V)) (k : agent) : option V :=
  match d with
  | [] => None
  | (k', v) :: d' => if decide (k' = k) then Some v else getitem d' k
  end.

(** [l.index(x)]: the first position of [x], [None] for ValueError. *)
Fixpoint index (l : list agent) (x : agent) : option nat :=
  match l with
  | [] => None
  | y :: l' => if decide (y = x) then Some 0 else S <$> index l' x
  end.

Definition list_index (l : list agent) (x : agent) : result nat :=
  match index l x with
  | Some i => Ok i
  | None => Raise ValueError
  end.

(** *** The store of one run *)

(** [free_men], [engaged] and [proposals] are the three local variables.
    [cursor] is the position of the [for] loop, the man taken from the
    queue and the part of his list still to visit, [None] between two
    iterations of the [while]; only the reading of the loops one iteration
    at a time, further down, uses it. *)
Record config := Config {
  free_men : list agent;
  engaged : gmap agent agent;
  proposals : gmap agent (list agent);
  cursor : option (agent * list agent)
}.

(** What distinguishes the six functions: the list the [for] loop walks
    through for a man, and the test by which an engaged woman takes the
    new man instead of her current one. *)
Record policy := Policy {
  ranking : agent → list agent → result (list agent);
  accepts : agent → agent → agent → result bool
}.

Definition initial (men_preferences : list (agent * list agent)) : config :=
  {| free_men := men_preferences.*1;
     engaged := ∅;
     proposals := list_to_map ((λ man, (man, [])) <$> men_preferences.*1);
     cursor := None |}.

(** *** The loop nest *)

(** The [for] loop for [man] over the list [women]: the store when the loop
    is left, by [break] or at the end of the list. *)
Fixpoint for_loop (pol : policy) (man : agent) (women : list agent)
    (c : config) : result config :=
  match women with
  | [] => Ok c
  | woman :: rest =>
      history ← subscript (proposals c !! man);
      if decide (woman ∈ history) then for_loop pol man rest c
      else
        let proposals' := <[man := history ++ [woman]]> (proposals c) in
        match engaged c !! woman with
        | None =>
            Ok {| free_men := free_men c;
                  engaged := <[woman := man]> (engaged c);
                  proposals := proposals'; cursor := cursor c |}
        | Some current_man =>
            b ← accepts pol woman man current_man;
            if b : bool then
              Ok {| free_men := free_men c ++ [current_man];
                    engaged := <[woman := man]> (engaged c);
                    proposals := proposals'; cursor := cursor c |}
            else
              for_loop pol man rest
                {| free_men := free_men c; engaged := engaged c;
                   proposals := proposals'; cursor := cursor c |}
        end
  end.

(** The [while] loop and the [return], with fuel for the iterations of the
    [while]; [None] when the fuel does not suffice. *)
Fixpoint while_loop (pol : policy) (men_preferences : list (agent * list agent))
    (fuel : nat) (c : config) : option (result (gmap agent agent)) :=
  match fuel with
  | 0 => None
  | S fuel' =>
      match free_men c with
      | [] => Some (Ok (engaged c))
      | man :: rest =>
          let c1 := {| free_men := rest; engaged := engaged c;
                       proposals := proposals c; cursor := cursor c |} in
          match
            man_pref_list ← subscript (getitem men_preferences man);
            women ← ranking pol man man_pref_list;
            for_loop pol man women c1
          with
          | Ok c2 => while_loop pol men_preferences fuel' c2
          | Raise x => Some (Raise x)
          end
      end
  end.

(** Fuel that always suffices, for the iterations of the [while] and for
    the single steps further down alike: every step either shortens the
    [for] loop, or records a proposal, or takes a man from the queue for
    good. *)
Definition width (men_preferences : list (agent * list agent)) : nat :=
  S (S (max_list (length <$> men_preferences.*2))).

Definition enough (men_preferences : list (agent * list agent)) : nat :=
  S (width men_preferences *
     (length men_preferences + sum_list (length <$> men_preferences.*2))).

(** A matching function: the three initial assignments, the loop nest and
    the [return]. *)
Definition matching_function (pol : policy)
    (men_preferences : list (agent * list agent))
    : option (result (gmap agent agent)) :=
  while_loop pol men_preferences (enough men_preferences) (initial men_preferences).

(** *** [stable_marriage] *)

Definition by_rank (women_preferences : list (agent * list agent)) : policy :=
  {| ranking := λ man man_pref_list, Ok man_pref_list;
     accepts := λ woman man current_man,
       l ← subscript (getitem women_preferences woman);
       i ← list_index l man;
       l' ← subscript (getitem women_preferences woman);
       j ← list_index l' current_man;
       Ok (bool_decide (i < j)) |}.

Definition stable_marriage
    (men_preferences women_preferences : list (agent * list agent))
    : option (result (gmap agent agent)) :=
  matching_function (by_rank women_preferences) men_preferences.

(** *** The score-based variants *)

(** [sorted(l, key=..., reverse=True)]: the keys are computed first, in
    list order, and the first that raises ends the call; the sort compares
    keys with [<] only and is stable, so of two women with keys neither
    below the other the one earlier in [l] stays first. (On keys that [<]
    orders totally, as finite floats, every stable sort gives this
    list. With a NaN among the keys the list Python returns depends on
    how its sort merges runs; that order is not modelled, and nothing
    below relies on it.) *)
Fixpoint insert_desc (x : float * agent) (l : list (float * agent))
    : list (float * agent) :=
  match l with
  | [] => [x]
  | y :: l' => if PrimFloat.ltb x.1 y.1 then y :: insert_desc x l' else x :: l
  end.

Definition sorted_desc (key : agent → result float) (l : list agent)
    : result (list agent) :=
  keys ← mapM key l;
  Ok (foldr insert_desc [] (zip keys l)).*2.

(** Order by a score table keyed by (man, woman), accept by the same. *)
Definition by_score (scores : gmap (agent * agent) float) : policy :=
  {| ranking := λ man man_pref_list,
       sorted_desc (λ woman, subscript (scores !! (man, woman))) man_pref_list;
     accepts := λ woman man current_man,
       a ← subscript (scores !! (man, woman));
       b ← subscript (scores !! (current_man, woman));
       Ok (PrimFloat.ltb b a) |}.

(** Accept by a table keyed by (woman, man). *)
Definition by_care (care_thresholds : gmap (agent * agent) float)
    (woman man current_man : agent) : result bool :=
  a ← subscript (care_thresholds !! (woman, man));
  b ← subscript (care_thresholds !! (woman, current_man));
  Ok (PrimFloat.ltb b a).

Definition holistic_score
    (trust_scores honor_weights emotional_scores : gmap (agent * agent) float)
    (man woman : agent) : result float :=
  t ← subscript (trust_scores !! (man, woman));
  h ← subscript (honor_weights !! (man, woman));
  e ← subscript (emotional_scores !! (man, woman));
  Ok (t * 0.4 + h * 0.3 + e * 0.3)%float.

Definition trust_based_stable_marriage
    (men_preferences women_preferences : list (agent * list agent))
    (trust_scores : gmap (agent * agent) float)
    : option (result (gmap agent agent)) :=
  matching_function (by_score trust_scores) men_preferences.

Definition honor_based_matching
    (men_preferences women_preferences : list (agent * list agent))
    (honor_weights : gmap (agent * agent) float)
    : option (result (gmap agent agent)) :=
  matching_function (by_score honor_weights) men_preferences.

Definition reasonable_care_matching
    (men_preferences women_preferences : list (agent * list agent))
    (care_thresholds : gmap (agent * agent) float)
    : option (result (gmap agent agent)) :=
  matching_function {| ranking := λ man man_pref_list, Ok man_pref_list;
                       accepts := by_care care_thresholds |} men_preferences.

Definition emotional_compatibility_matching
    (men_preferences women_preferences : list (agent * list agent))
    (emotional_scores : gmap (agent * agent) float)
    : option (result (gmap agent agent)) :=
  matching_function (by_score emotional_scores) men_preferences.

Definition holistic_policy
    (trust_scores honor_weights emotional_scores care_thresholds
      : gmap (agent * agent) float) : policy :=
  {| ranking := λ man man_pref_list,
       sorted_desc (holistic_score trust_scores honor_weights emotional_scores man)
                   man_pref_list;
     accepts := by_care care_thresholds |}.

Definition holistic_matching
    (men_preferences women_preferences : list (agent * list agent))
    (trust_scores honor_weights emotional_scores care_thresholds
      : gmap (agent * agent) float)
    : option (result (gmap agent agent)) :=
  matching_function (holistic_policy trust_scores honor_weights emotional_scores
                                     care_thresholds) men_preferences.

(** *** The reporters *)

(** A finished matching is passed as the items of the [engaged] dict, in
    iteration order: (woman, man) pairs. *)
Definition happiness_score
    (men_prefs women_prefs : list (agent * list agent))
    (match_ : list (agent * agent)) : result nat :=
  foldl (λ score '(woman, man),
           s ← score;
           l ← subscript (getitem men_prefs man);
           i ← list_index l woman;
           l' ← subscript (getitem women_prefs woman);
           j ← list_index l' man;
           Ok (s + (i + j)))
        (Ok 0) match_.

Definition track_satisfaction
    (matches : list (agent * agent))
    (men_prefs women_prefs : list (agent * list agent))
    : result (gmap (agent * agent) (nat * nat)) :=
  foldl (λ satisfaction '(woman, man),
           s ← satisfaction;
           l ← subscript (getitem men_prefs man);
           man_satisfaction ← list_index l woman;
           l' ← subscript (getitem women_prefs woman);
           woman_satisfaction ← list_index l' man;
           Ok (<[(man, woman) := (man_satisfaction, woman_satisfaction)]> s))
        (Ok ∅) matches.

(** *** The loop nest, one iteration at a time *)

Inductive transition :=
  | Continue (c : config)
  | Return (e : gmap agent agent)
  | Throw (x : exn) (c : config).

(** One step of the loop nest.

    With no [for] loop running, the step is the test of [while free_men]
    and, when the queue is not empty, [man = free_men.pop(0)],
    [man_pref_list = men_preferences[man]] and the evaluation of the list
    the [for] loop iterates over.

    With the [for] loop running for [man], the step is one iteration:
    nothing when the list is exhausted (the loop ends without [break]) or
    when [woman] is already in [proposals[man]]; otherwise
    [proposals[man].append(woman)] and then the engagement of a free
    [woman], or the comparison with [engaged[woman]], which replaces him
    (he is appended to [free_men]) or keeps him. The two engagements are
    followed by [break].

    An exception carries the store in which it is raised. *)
Definition step (pol : policy) (men_preferences : list (agent * list agent))
    (c : config) : transition :=
  match cursor c with
  | None =>
      match free_men c with
      | [] => Return (engaged c)
      | man :: rest =>
          let c1 := {| free_men := rest; engaged := engaged c;
                       proposals := proposals c; cursor := None |} in
          match getitem men_preferences man with
          | None => Throw KeyError c1
          | Some man_pref_list =>
              match ranking pol man man_pref_list with
              | Ok women =>
                  Continue {| free_men := rest; engaged := engaged c;
                              proposals := proposals c;
                              cursor := Some (man, women) |}
              | Raise x => Throw x c1
              end
          end
      end
  | Some (man, []) =>
      Continue {| free_men := free_men c; engaged := engaged c;
                  proposals := proposals c; cursor := None |}
  | Some (man, woman :: rest) =>
      match proposals c !! man with
      | None => Throw KeyError c
      | Some history =>
          if decide (woman ∈ history) then
            Continue {| free_men := free_men c; engaged := engaged c;
                        proposals := proposals c; cursor := Some (man, rest) |}
          else
            let proposals' := <[man := history ++ [woman]]> (proposals c) in
            match engaged c !! woman with
            | None =>
                Continue {| free_men := free_men c;
                            engaged := <[woman := man]> (engaged c);
                            proposals := proposals'; cursor := None |}
            | Some current_man =>
                match accepts pol woman man current_man with
                | Ok true =>
                    Continue {| free_men := free_men c ++ [current_man];
                                engaged := <[woman := man]> (engaged c);
                                proposals := proposals'; cursor := None |}
                | Ok false =>
                    Continue {| free_men := free_men c; engaged := engaged c;
                                proposals := proposals';
                                cursor := Some (man, rest) |}
                | Raise x =>
                    Throw x {| free_men := free_men c; engaged := engaged c;
                               proposals := proposals';
                               cursor := Some (man, rest) |}
                end
            end
      end
  end.

(** How a run ends: the store at the [return], the exception and the
    store when it was raised, or the store reached when the fuel ran
    out. *)
Inductive outcome :=
  | Finished (c : config)
  | Failed (x : exn) (c : config)
  | Unfinished (c : config).

Fixpoint exec (pol : policy) (men_preferences : list (agent * list agent))
    (fuel : nat) (c : config) : outcome :=
  match fuel with
  | 0 => Unfinished c
  | S fuel' =>
      match step pol men_preferences c with
      | Continue c' => exec pol men_preferences fuel' c'
      | Return _ => Finished c
      | Throw x c' => Failed x c'
      end
  end.

(** What the caller sees; [None] only if the fuel did not suffice. *)
Definition returned (o : outcome) : option (result (gmap agent agent)) :=
  match o with
  | Finished c => Some (Ok (engaged c))
  | Failed x _ => Some (Raise x)
  | Unfinished _ => None
  end.

Definition run (pol : policy) (men_preferences : list (agent * list agent))
    : outcome :=
  exec pol men_preferences (enough men_preferences) (initial men_preferences).

End engine.

Arguments policy : clear implicits.
Arguments config agent {_ _}.
Arguments transition agent {_ _}.
Arguments outcome agent {_ _}.

(** ** The data of the source file *)

Definition men0 : list (string * list string) :=
  [("A", ["X"; "Y"; "Z"]); ("B", ["Y"; "X"; "Z"]); ("C", ["Y"; "Z"; "X"])].

Definition women0 : list (string * list string) :=
  [("X", ["B"; "A"; "C"]); ("Y", ["A"; "B"; "C"]); ("Z", ["A"; "B"; "C"])].

(** The score tables of the source file. *)
Definition trust0 : gmap (string * string) float :=
  list_to_map
    [(("A", "X"), 0.9%float); (("A", "Y"), 0.6%float); (("A", "Z"), 0.8%float);
     (("B", "X"), 0.7%float); (("B", "Y"), 0.8%float); (("B", "Z"), 0.5%float);
     (("C", "X"), 0.6%float); (("C", "Y"), 0.7%float); (("C", "Z"), 0.9%float)].

Definition honor0 : gmap (string * string) float :=
  list_to_map
    [(("A", "X"), 0.8%float); (("A", "Y"), 0.7%float); (("A", "Z"), 0.9%float);
     (("B", "X"), 0.9%float); (("B", "Y"), 0.6%float); (("B", "Z"), 0.4%float);
     (("C", "X"), 0.5%float); (("C", "Y"), 0.9%float); (("C", "Z"), 0.8%float)].

Definition emotional0 : gmap (string * string) float :=
  list_to_map
    [(("A", "X"), 0.85%float); (("A", "Y"), 0.75%float); (("A", "Z"), 0.80%float);
     (("B", "X"), 0.70%float); (("B", "Y"), 0.85%float); (("B", "Z"), 0.60%float);
     (("C", "X"), 0.60%float); (("C", "Y"), 0.65%float); (("C", "Z"), 0.90%float)].

Definition care0 : gmap (string * string) float :=
  list_to_map
    [(("X", "A"), 0.6%float); (("X", "B"), 0.8%float); (("X", "C"), 0.7%float);
     (("Y", "A"), 0.7%float); (("Y", "B"), 0.5%float); (("Y", "C"), 0.9%float);
     (("Z", "A"), 0.8%float); (("Z", "B"), 0.6%float); (("Z", "C"), 0.9%float)].

(** * Notions for the properties *)

(** ** Runs *)

Section run_notions.
Context {agent : Type} `{Countable agent}.
Context (pol : policy agent) (men_preferences : list (agent * list agent)).

#[local] Abbreviation next := (step pol men_preferences).
#[local] Abbreviation men := (men_preferences.*1).

(** The stores a run passes through. *)
Inductive reachable : config agent → Prop :=
  | reachable_initial : reachable (initial men_preferences)
  | reachable_step c c' :
      reachable c → next c = Continue c' → reachable c'.

(** The man the [for] loop is running for. *)
Definition active (c : config agent) : list agent :=
  match cursor c with
  | Some (man, _) => [man]
  | None => []
  end.

Definition waiting (c : config agent) : list agent := free_men c ++ active c.

(** The men who are waiting or proposing are pairwise distinct and are
    not engaged; an engaged man's last proposal went to his partner. *)
Record sound (c : config agent) : Prop := {
  sound_queue : NoDup (waiting c);
  sound_men : ∀ m, m ∈ waiting c → m ∈ men;
  sound_engaged : ∀ w m, engaged c !! w = Some m →
    m ∈ men ∧ (m ∉ waiting c) ∧
    ∃ ps, proposals c !! m = Some ps ∧ last ps = Some w;
  sound_history : ∀ m, m ∈ men → is_Some (proposals c !! m)
}.

Inductive moves : config agent → config agent → Prop :=
  | move_take man queue e p l women :
      getitem men_preferences man = Some l →
      ranking pol man l = Ok women →
      moves (Config (man :: queue) e p None) (Config queue e p (Some (man, women)))
  | move_leave queue e p man :
      moves (Config queue e p (Some (man, []))) (Config queue e p None)
  | move_skip queue e p man woman rest history :
      p !! man = Some history → woman ∈ history →
      moves (Config queue e p (Some (man, woman :: rest)))
            (Config queue e p (Some (man, rest)))
  | move_engage queue e p man woman rest history :
      p !! man = Some history → woman ∉ history →
      e !! woman = None →
      moves (Config queue e p (Some (man, woman :: rest)))
            (Config queue (<[woman := man]> e)
                    (<[man := history ++ [woman]]> p) None)
  | move_replace queue e p man woman rest history current_man :
      p !! man = Some history → woman ∉ history →
      e !! woman = Some current_man →
      accepts pol woman man current_man = Ok true →
      moves (Config queue e p (Some (man, woman :: rest)))
            (Config (queue ++ [current_man]) (<[woman := man]> e)
                    (<[man := history ++ [woman]]> p) None)
  | move_reject queue e p man woman rest history current_man :
      p !! man = Some history → woman ∉ history →
      e !! woman = Some current_man →
      accepts pol woman man current_man = Ok false →
      moves (Config queue e p (Some (man, woman :: rest)))
            (Config queue e (<[man := history ++ [woman]]> p)
                    (Some (man, rest))).

(** The policy visits the man's own list, in some order. *)
Definition reorders : Prop :=
  ∀ man l women, ranking pol man l = Ok women → women ≡ₚ l.

(** A history holds distinct women of the man's list; the [for] loop
    walks through women of his list. *)
Record bounded (c : config agent) : Prop := {
  bounded_history : ∀ m ps, proposals c !! m = Some ps →
    ∃ l, getitem men_preferences m = Some l ∧ NoDup ps ∧ ps ⊆ l;
  bounded_cursor : ∀ m rest, cursor c = Some (m, rest) →
    ∃ l, getitem men_preferences m = Some l ∧ rest ⊆ l ∧ length rest ≤ length l
}.

(** Proposals that can still be made. *)
Definition pending (d : list (agent * list agent))
    (p : gmap agent (list agent)) : nat :=
  sum_list ((λ ml, length ml.2 - length (default [] (p !! ml.1))) <$> d).

Definition measure (c : config agent) : nat :=
  width men_preferences * (length (free_men c) + pending men_preferences (proposals c))
  + match cursor c with
    | None => 0
    | Some (_, rest) => S (length rest)
    end.

Inductive throws : config agent → exn → config agent → Prop :=
  | throw_no_list man queue e p :
      getitem men_preferences man = None →
      throws (Config (man :: queue) e p None) KeyError (Config queue e p None)
  | throw_ranking man queue e p l x :
      getitem men_preferences man = Some l →
      ranking pol man l = Raise x →
      throws (Config (man :: queue) e p None) x (Config queue e p None)
  | throw_no_history queue e p man woman rest :
      p !! man = None →
      throws (Config queue e p (Some (man, woman :: rest))) KeyError
             (Config queue e p (Some (man, woman :: rest)))
  | throw_accepts queue e p man woman rest history current_man x :
      p !! man = Some history → woman ∉ history →
      e !! woman = Some current_man →
      accepts pol woman man current_man = Raise x →
      throws (Config queue e p (Some (man, woman :: rest))) x
             (Config queue e (<[man := history ++ [woman]]> p) (Some (man, rest))).

(** The run raises, and no history holds a proposal when it does. *)
Definition fails_fast : Prop :=
  ∃ x c, run pol men_preferences = Failed x c ∧
         ∀ m ps, proposals c !! m = Some ps → ps = [].

(** The policy raises nothing but KeyError. *)
Definition only_key_errors : Prop :=
  (∀ man l e, ranking pol man l = Raise e → e = KeyError) ∧
  (∀ woman man current_man e,
     accepts pol woman man current_man = Raise e → e = KeyError).
End run_notions.

(** ** Matchings *)

Section matching_notions.
Context {agent : Type} `{Countable agent}.
Context (men_preferences women_preferences : list (agent * list agent)).

#[local] Abbreviation men := (men_preferences.*1).
#[local] Abbreviation women := (women_preferences.*1).

(** Both dicts are well formed and every list is a permutation of the
    whole opposite side. *)
Definition complete : Prop :=
  NoDup men ∧ NoDup women ∧
  Forall (λ ml, ml.2 ≡ₚ women) men_preferences ∧
  Forall (λ wl, wl.2 ≡ₚ men) women_preferences.

#[global] Instance complete_dec : Decision complete.
Proof. unfold complete. apply _. Defined.

(** [x] stands before [y] in the list [l]. *)
Definition prefers (l : list agent) (x y : agent) : Prop :=
  ∃ i j, index l x = Some i ∧ index l y = Some j ∧ i < j.

(** Proposer [p] and receiver [r] are not matched to each other in [M]
    (receiver to proposer); [p] has no partner or ranks [r] before his
    partner, and [r] has no partner or ranks [p] before hers. *)
Definition blocking (M : gmap agent agent) (p r : agent) : Prop :=
  p ∈ men ∧ r ∈ women ∧ M !! r ≠ Some p ∧
  ((∀ r', M !! r' ≠ Some p) ∨
   (∃ r' l, M !! r' = Some p ∧ getitem men_preferences p = Some l ∧ prefers l r r')) ∧
  (M !! r = None ∨
   (∃ p' l, M !! r = Some p' ∧ getitem women_preferences r = Some l ∧ prefers l p p')).

Definition stable (M : gmap agent agent) : Prop := ∀ p r, ¬ blocking M p r.

(** A matching between the two sides: receivers to proposers, no proposer
    twice. *)
Record matching (M : gmap agent agent) : Prop := {
  matching_sides : ∀ r p, M !! r = Some p → r ∈ women ∧ p ∈ men;
  matching_injective : ∀ r r' p, M !! r = Some p → M !! r' = Some p → r = r'
}.

(** What the loop keeps true when the lists are permutations: a history
    is an initial part of the man's list, the [for] loop has passed only
    women of the history, a woman who was proposed to is engaged to a man
    she ranks no later than the proposer, and a man who is neither queued
    nor engaged has proposed to his whole list. *)
Record orderly (c : config agent) : Prop := {
  orderly_prefix : ∀ m ps l,
    proposals c !! m = Some ps → getitem men_preferences m = Some l →
    ps `prefix_of` l;
  orderly_cursor : ∀ m rest, cursor c = Some (m, rest) →
    ∃ l ps scanned, getitem men_preferences m = Some l ∧
      proposals c !! m = Some ps ∧ l = scanned ++ rest ∧ scanned `prefix_of` ps;
  orderly_women : ∀ m ps w, proposals c !! m = Some ps → w ∈ ps →
    ∃ m' l i j, engaged c !! w = Some m' ∧
      getitem women_preferences w = Some l ∧
      index l m' = Some i ∧ index l m = Some j ∧ i ≤ j;
  orderly_men : ∀ m l, getitem men_preferences m = Some l →
    m ∈ waiting c ∨ (∃ w, engaged c !! w = Some m) ∨ proposals c !! m = Some l
}.

(** No woman a man has proposed to and lost is his partner in a stable
    matching. *)
Definition achievable (M : gmap agent agent) (c : config agent) : Prop :=
  ∀ m ps w, proposals c !! m = Some ps → w ∈ ps → M !! w = Some m →
    engaged c !! w = Some m.

(** [p] ranks [x] no later than [y]. *)
Definition no_later (l : list agent) (x y : agent) : Prop :=
  ∃ i j, index l x = Some i ∧ index l y = Some j ∧ i ≤ j.

(** Every proposer with a partner in [M'] has a partner in [M] whom he
    ranks no later. *)
Definition dominates (M M' : gmap agent agent) : Prop :=
  ∀ p r', M' !! r' = Some p →
    ∃ r l, M !! r = Some p ∧ getitem men_preferences p = Some l ∧ no_later l r r'.

(** All proposals recorded so far: the lengths of the histories, summed
    over the [proposals] dict. *)
Definition total_proposals (c : config agent) : nat :=
  sum_list (length <$> (map_to_list (proposals c)).*2).

(** No history names a woman twice, none is longer than the receiver side,
    and together they hold at most |P| × |R| proposals. *)
Definition within_bound (c : config agent) : Prop :=
  (∀ m ps, proposals c !! m = Some ps →
     NoDup ps ∧ length ps ≤ length women_preferences) ∧
  total_proposals c ≤ length men_preferences * length women_preferences.

(** Receiver to proposer, and no proposer twice. *)
Definition injective (M : gmap agent agent) : Prop :=
  (∀ r p p', M !! r = Some p → M !! r = Some p' → p = p') ∧
  (∀ r r' p, M !! r = Some p → M !! r' = Some p → r = r').

(** *** The stability verifier *)

#[global] Instance prefers_dec (l : list agent) x y : Decision (prefers l x y).
Proof.
  unfold prefers.
  destruct (index l x) as [i|]; [|right; by intros (? & ? & ? & ? & ?)].
  destruct (index l y) as [j|]; [|right; by intros (? & ? & ? & ? & ?)].
  destruct (decide (i < j)); [left; by exists i, j|right].
  intros (? & ? & ? & ? & ?). simplify_eq. lia.
Defined.

#[global] Instance ranked_before_dec (d : list (agent * list agent)) who x y :
  Decision (∃ l, getitem d who = Some l ∧ prefers l x y).
Proof.
  destruct (getitem d who) as [l|]; [|right; by intros (? & ? & ?)].
  destruct (decide (prefers l x y)); [left; by exists l|right].
  intros (? & ? & ?). by simplify_eq.
Defined.

#[global] Instance blocking_dec (M : gmap agent agent) p r :
  Decision (blocking M p r).
Proof.
  unfold blocking. repeat apply and_dec; try apply _.
  - apply or_dec.
    + refine (cast_if (decide (map_Forall (λ _ p', p' ≠ p) M))).
      * intros r' Hr'. by apply (m r' p).
      * intros Hall. apply n. intros r' p' Hr' ->. by apply (Hall r').
    + refine (cast_if (decide (map_Exists
        (λ r' p', p' = p ∧ ∃ l, getitem men_preferences p = Some l ∧ prefers l r r') M))).
      * destruct m as (r' & p' & Hr' & -> & l & Hl & Hpref). by exists r', l.
      * intros (r' & l & Hr' & Hl & Hpref). apply n. exists r', p. eauto.
  - apply or_dec; [apply _|].
    destruct (M !! r) as [p'|]; [|right; by intros (? & ? & ? & ?)].
    refine (cast_if (decide (∃ l, getitem women_preferences r = Some l ∧ prefers l p p'))).
    + destruct e as (l & Hl & Hpref). by exists p', l.
    + intros (p'' & l & [= <-] & Hl & Hpref). apply n. eauto.
Defined.

(** The proposer/receiver pairs that block [M], by a scan of all pairs. *)
Definition blocking_pairs (M : gmap agent agent) : list (agent * agent) :=
  filter (λ pr, blocking M pr.1 pr.2)
         (cprod men_preferences.*1 women_preferences.*1).

(** *** Lists that are not permutations *)

(** [w] is a key of [women_preferences] and her list holds every
    proposer. *)
Definition known (w : agent) : Prop :=
  ∃ lw, getitem women_preferences w = Some lw ∧ men_preferences.*1 ⊆ lw.

#[global] Instance known_dec w : Decision (known w).
Proof.
  unfold known.
  destruct (getitem women_preferences w) as [lw|]; [|right; by intros (? & ? & ?)].
  destruct (decide (men_preferences.*1 ⊆ lw)); [left; by exists lw|right].
  intros (? & ? & ?). by simplify_eq.
Defined.

(** The proposers' lists name only such receivers (they may omit some). *)
Definition names_known : Prop :=
  Forall (λ ml, Forall known ml.2) men_preferences.

(** Some proposer's list is not a permutation of the receivers. *)
Definition malformed : Prop :=
  Exists (λ ml, ¬ ml.2 ≡ₚ women_preferences.*1) men_preferences.

(** *** Sides of unequal size *)

(** [p] is no value of [M]: a proposer without a partner. *)
Definition single (M : gmap agent agent) (p : agent) : Prop :=
  ∀ r, M !! r ≠ Some p.

#[global] Instance single_dec M p : Decision (single M p).
Proof.
  refine (cast_if (decide (map_Forall (λ _ p', p' ≠ p) M))).
  - intros r Hr. by apply (m r p).
  - intros Hall. apply n. intros r p' Hr ->. by apply (Hall r).
Defined.

(** The proposers the returned dict leaves out. *)
Definition unmatched (M : gmap agent agent) : list agent :=
  filter (single M) men_preferences.*1.

(** [a] occurs in the dict, as a key or as a value. *)
Definition mentions (M : gmap agent agent) (a : agent) : Prop :=
  is_Some (M !! a) ∨ ∃ r, M !! r = Some a.

(** What is returned names the proposers left without a partner. *)
Definition reports_unmatched (M : gmap agent agent) : Prop :=
  Forall (mentions M) (unmatched M).
End matching_notions.

(** ** The reporters *)

Section reporter_notions.
Context {agent : Type} `{Countable agent}.
Context (men_prefs women_prefs : list (agent * list agent)).

(** The rank positions of a matched pair: the woman in the man's list and
    the man in the woman's, 0 for the front of the list. *)
Definition pair_ranks (woman man : agent) : result (nat * nat) :=
  l ← subscript (getitem men_prefs man);
  i ← list_index l woman;
  l' ← subscript (getitem women_prefs woman);
  j ← list_index l' man;
  Ok (i, j).

(** The sum, over the matched pairs, of the two rank positions. *)
Definition rank_sum (match_ : list (agent * agent)) : result nat :=
  ranks ← mapM (λ '(woman, man), pair_ranks woman man) match_;
  Ok (sum_list ((λ ij, ij.1 + ij.2) <$> ranks)).
End reporter_notions.

(** ** Inputs for the examples *)

Definition matching0 : gmap string string :=
  {[ "X" := "A"; "Y" := "B"; "Z" := "C" ]}.

(** The store after A has been taken from the queue and has proposed to X. *)
Definition after_first_proposal : config string :=
  {| free_men := ["B"; "C"];
     engaged := {[ "X" := "A" ]};
     proposals := <["A" := ["X"]]> (proposals (initial men0));
     cursor := None |}.

(** The scenario with Z left out of the list of A. *)
Definition men_short : list (string * list string) :=
  [("A", ["X"; "Y"]); ("B", ["Y"; "X"; "Z"]); ("C", ["Y"; "Z"; "X"])].


(** Three proposers, two receivers, full lists. *)
Definition men3 : list (string * list string) :=
  [("A", ["X"; "Y"]); ("B", ["Y"; "X"]); ("C", ["Y"; "X"])].

Definition women2 : list (string * list string) :=
  [("X", ["B"; "A"; "C"]); ("Y", ["A"; "B"; "C"])].

Definition matching2 : gmap string string := {[ "X" := "A"; "Y" := "B" ]}.

(** * The preference adjustment and the two callers *)

Section callers.
Context {agent : Type} `{Countable agent}.

(** [weighted_preference_adjustment]: each list of either dict is sorted by
    [respect_weights[(man, woman)]], highest first; the men's dict is
    rebuilt first, item by item, then the women's, and the first weight
    that is missing ends the call. Both dicts are keyed (man, woman) into
    the table. *)
Definition weighted_preference_adjustment
    (men_prefs women_prefs : list (agent * list agent))
    (respect_weights : gmap (agent * agent) float)
    : result (list (agent * list agent) * list (agent * list agent)) :=
  adjusted_men_prefs ←
    mapM (λ '(man, preferences),
            l ← sorted_desc (λ woman, subscript (respect_weights !! (man, woman)))
                            preferences;
            Ok (man, l)) men_prefs;
  adjusted_women_prefs ←
    mapM (λ '(woman, preferences),
            l ← sorted_desc (λ man, subscript (respect_weights !! (man, woman)))
                            preferences;
            Ok (woman, l)) women_prefs;
  Ok (adjusted_men_prefs, adjusted_women_prefs).

(** The two callers pass the dict [stable_marriage] returns to a reporter,
    which iterates over its items. The order of that iteration is the
    insertion order of the dict, which a [gmap] does not keep: it is the
    argument [items], the list of the (woman, man) pairs of a dict in the
    order of the iteration. An exception of [stable_marriage] or of the
    reporter passes through. *)
Definition stable_marriage_with_happiness
    (items : gmap agent agent → list (agent * agent))
    (men_prefs women_prefs : list (agent * list agent))
    : option (result (gmap agent agent * nat)) :=
  match stable_marriage men_prefs women_prefs with
  | None => None
  | Some r =>
      Some (match_ ← r;
            score ← happiness_score men_prefs women_prefs (items match_);
            Ok (match_, score))
  end.

Definition stable_marriage_with_satisfaction
    (items : gmap agent agent → list (agent * agent))
    (men_prefs women_prefs : list (agent * list agent))
    : option (result (gmap agent agent * gmap (agent * agent) (nat * nat))) :=
  match stable_marriage men_prefs women_prefs with
  | None => None
  | Some r =>
      Some (matches ← r;
            satisfaction ← track_satisfaction (items matches) men_prefs women_prefs;
            Ok (matches, satisfaction))
  end.
End callers.

(** The respect weights of the source file. *)
Definition respect0 : gmap (string * string) float :=
  list_to_map
    [(("A", "X"), 0.8%float); (("A", "Y"), 0.6%float); (("A", "Z"), 0.9%float);
     (("B", "X"), 0.7%float); (("B", "Y"), 0.9%float); (("B", "Z"), 0.4%float);
     (("C", "X"), 0.6%float); (("C", "Y"), 0.5%float); (("C", "Z"), 0.7%float)].

(** ** Notions for the properties of all six functions *)

Section loop_notions.
Context {agent : Type} `{Countable agent}.

(** The loop parameters of the six matching functions, in the order
    [stable_marriage], [trust_based_stable_marriage],
    [honor_based_matching], [reasonable_care_matching],
    [emotional_compatibility_matching], [holistic_matching]. *)
Definition variants (women_preferences : list (agent * list agent))
    (trust_scores honor_weights emotional_scores care_thresholds
      : gmap (agent * agent) float) : list (policy agent) :=
  [ by_rank women_preferences;
    by_score trust_scores;
    by_score honor_weights;
    {| ranking := λ man man_pref_list, Ok man_pref_list;
       accepts := by_care care_thresholds |};
    by_score emotional_scores;
    holistic_policy trust_scores honor_weights emotional_scores care_thresholds ].

(** Some steps of the loop nest lead from one store to the other. *)
Definition steps_to (pol : policy agent)
    (men_preferences : list (agent * list agent)) : relation (config agent) :=
  rtc (λ c c', step pol men_preferences c = Continue c').

(** Every pair of the dict is a proposer and a receiver of his list. *)
Definition pairs_from (men_preferences : list (agent * list agent))
    (M : gmap agent agent) : Prop :=
  ∀ w m, M !! w = Some m →
    ∃ l, getitem men_preferences m = Some l ∧ w ∈ l.

(** The first choices of the proposers who have one, in dict order. *)
Definition first_choices (men_preferences : list (agent * list agent))
    : list agent :=
  omap (λ ml, head ml.2) men_preferences.

(** The [engaged] and [proposals] dicts after each proposer of [todo] has
    proposed to his first choice and has been taken. *)
Definition engage (todo : list (agent * list agent)) (e : gmap agent agent)
    : gmap agent agent :=
  foldl (λ e ml, match head ml.2 with
                 | Some w => <[w := ml.1]> e
                 | None => e
                 end) e todo.

Definition record (todo : list (agent * list agent))
    (p : gmap agent (list agent)) : gmap agent (list agent) :=
  foldl (λ p ml, match head ml.2 with
                 | Some w => <[ml.1 := [w]]> p
                 | None => p
                 end) p todo.

(** The pair ranks each other: the man's list holds the woman and the
    woman's list holds the man. *)
Definition ranked (men_prefs women_prefs : list (agent * list agent))
    (item : agent * agent) : Prop :=
  (∃ l, getitem men_prefs item.2 = Some l ∧ item.1 ∈ l) ∧
  (∃ l, getitem women_prefs item.1 = Some l ∧ item.2 ∈ l).

(** The two are each other's first choice. *)
Definition mutual_first (men_prefs women_prefs : list (agent * list agent))
    (item : agent * agent) : Prop :=
  (∃ l, getitem men_prefs item.2 = Some l ∧ head l = Some item.1) ∧
  (∃ l, getitem women_prefs item.1 = Some l ∧ head l = Some item.2).

(** The key of [x] ties with [k]: neither is below the other. *)
Definition ties (key : agent → option float) (k : float) (x : agent) : bool :=
  match key x with
  | Some a => negb (PrimFloat.ltb a k) && negb (PrimFloat.ltb k a)
  | None => false
  end.

(** [l'] is [l] sorted by [key], highest first, stably: it holds the
    members of [l], no member has a key below the key of a later member,
    and the members whose keys tie with a given number stand in the order
    they have in [l]. *)
Definition sorted_from (key : agent → option float) (l l' : list agent) : Prop :=
  l' ≡ₚ l ∧
  (∀ i j x y, i < j → l' !! i = Some x → l' !! j = Some y →
     ∃ a b, key x = Some a ∧ key y = Some b ∧ PrimFloat.ltb a b = false) ∧
  (∀ k, PrimFloat.is_nan k = false →
     List.filter (ties key k) l' = List.filter (ties key k) l).

(** The same items up to the order inside the lists: the two dicts have
    the same keys in the same order, and the lists of a key have the same
    members. *)
Definition same_members (d d' : list (agent * list agent)) : Prop :=
  Forall2 (λ a b, a.1 = b.1 ∧ a.2 ≡ₚ b.2) d d'.
End loop_notions.

Section thorough_notion.
Context {agent : Type} `{Countable agent}.
Context (men_preferences : list (agent * list agent)).

(** What the loop keeps true of the proposals made: the [for] loop has
    left behind only receivers of the history; a proposer who is neither
    queued, nor proposing, nor engaged has proposed to his whole list; and
    a receiver who was proposed to is engaged. *)
Record thorough (c : config agent) : Prop := {
  thorough_cursor : ∀ m rest, cursor c = Some (m, rest) →
    ∃ l ps, getitem men_preferences m = Some l ∧ proposals c !! m = Some ps ∧
      ∀ w, w ∈ l → w ∈ ps ∨ w ∈ rest;
  thorough_men : ∀ m l, getitem men_preferences m = Some l →
    m ∈ waiting c ∨ (∃ w, engaged c !! w = Some m) ∨
    ∃ ps, proposals c !! m = Some ps ∧ l ⊆ ps;
  thorough_women : ∀ m ps w, proposals c !! m = Some ps → w ∈ ps →
    is_Some (engaged c !! w)
}.
End thorough_notion.

(** Proposers with distinct first choices, and two with the same. *)
Definition men_apart : list (string * list string) :=
  [("A", ["X"; "Y"; "Z"]); ("B", ["Y"; "X"; "Z"]); ("C", ["Z"; "Y"; "X"])].

Definition men_rivals : list (string * list string) :=
  [("A", ["X"; "Y"]); ("B", ["X"; "Y"])].

(** The stores after A, then B, has proposed to X. *)
Definition after_rival_first : config string :=
  {| free_men := ["B"];
     engaged := {[ "X" := "A" ]};
     proposals := <["A" := ["X"]]> (proposals (initial men_rivals));
     cursor := None |}.

Definition after_rival_second : config string :=
  {| free_men := ["A"];
     engaged := {[ "X" := "B" ]};
     proposals := <["B" := ["X"]]> (<["A" := ["X"]]> (proposals (initial men_rivals)));
     cursor := None |}.

(** A receiver dict in which X does not rank B, and the store in which the
    comparison of B with A, for X, raises. *)
Definition women_one : list (string * list string) := [("X", ["A"])].

Definition after_rival_raise : config string :=
  {| free_men := [];
     engaged := {[ "X" := "A" ]};
     proposals := <["B" := ["X"]]> (<["A" := ["X"]]> (proposals (initial men_rivals)));
     cursor := Some ("B", ["Y"]) |}.

(** The two dicts of the source file after the adjustment by the respect
    weights of the source file. *)
Definition men_adjusted : list (string * list string) :=
  [("A", ["Z"; "X"; "Y"]); ("B", ["Y"; "X"; "Z"]); ("C", ["Z"; "X"; "Y"])].

Definition women_adjusted : list (string * list string) :=
  [("X", ["A"; "B"; "C"]); ("Y", ["B"; "A"; "C"]); ("Z", ["A"; "C"; "B"])].

(** * Proofs *)

(** ** Lists and dicts *)

Section lookups.
Context {agent : Type} `{Countable agent}.

Lemma getitem_elem_of {V} (d : list (agent * V)) k v :
  getitem d k = Some v → (k, v) ∈ d.
Proof.
  induction d as [|[k' v'] d IH]; simpl; [done|].
  case_decide; intros Hv; simplify_eq.
  - left.
  - right. by apply IH.
Qed.

Lemma getitem_is_Some {V} (d : list (agent * V)) k :
  is_Some (getitem d k) ↔ k ∈ d.*1.
Proof.
  induction d as [|[k' v'] d IH]; simpl.
  - split; [by intros [??]|by intros ?%elem_of_nil].
  - case_decide; simplify_eq.
    + split; [left|eauto].
    + rewrite IH, elem_of_cons. split; [by right|by intros [->|?]].
Qed.

Lemma getitem_unique {V} (d : list (agent * V)) k v :
  NoDup d.*1 → (k, v) ∈ d → getitem d k = Some v.
Proof.
  induction d as [|[k' v'] d IH]; simpl; [by intros _ ?%elem_of_nil|].
  intros [Hk Hd]%NoDup_cons [Heq|Hin]%elem_of_cons.
  - simplify_eq. by rewrite decide_True.
  - rewrite decide_False; [by apply IH|].
    intros ->. apply Hk. apply list_elem_of_fmap. by exists (k, v).
Qed.

Lemma getitem_values {V} (d : list (agent * V)) k v :
  getitem d k = Some v → v ∈ d.*2.
Proof.
  intros Hd%getitem_elem_of. apply list_elem_of_fmap. by exists (k, v).
Qed.

Lemma index_is_Some (l : list agent) x : is_Some (index l x) ↔ x ∈ l.
Proof.
  induction l as [|y l IH]; simpl.
  - split; [by intros [??]|by intros ?%elem_of_nil].
  - case_decide; simplify_eq.
    + split; [left|eauto].
    + rewrite fmap_is_Some, IH, elem_of_cons. split; [by right|by intros [->|?]].
Qed.

Lemma index_lookup (l : list agent) x i : index l x = Some i → l !! i = Some x.
Proof.
  revert i. induction l as [|y l IH]; intros i; simpl; [done|].
  case_decide; simplify_eq.
  - by intros [= <-].
  - destruct (index l x) as [j|] eqn:Hj; intros [= <-]. by apply IH.
Qed.

Lemma index_inj (l : list agent) x y i :
  index l x = Some i → index l y = Some i → x = y.
Proof. intros Hx%index_lookup Hy%index_lookup. congruence. Qed.

Lemma index_app_l (l t : list agent) x :
  x ∈ l → index (l ++ t) x = index l x.
Proof.
  induction l as [|y l IH]; simpl; [by intros ?%elem_of_nil|].
  case_decide; [done|]. intros [?|Hin]%elem_of_cons; [done|].
  by rewrite IH.
Qed.

(** In a prefix of [l], whatever [l] ranks before a member is a member. *)
Lemma prefix_index_closed (ps l : list agent) x y i j :
  ps `prefix_of` l → y ∈ ps →
  index l x = Some i → index l y = Some j → i ≤ j → x ∈ ps.
Proof.
  intros [t ->] Hy Hi Hj Hij.
  rewrite (index_app_l _ _ _ Hy) in Hj.
  apply index_lookup, lookup_lt_Some in Hj.
  apply index_lookup in Hi. rewrite lookup_app_l in Hi; [|lia].
  by eapply list_elem_of_lookup_2.
Qed.
End lookups.

(** ** Facts about every run, whatever the policy *)

Section runs.
Context {agent : Type} `{Countable agent}.
Context (pol : policy agent) (men_preferences : list (agent * list agent)).

#[local] Abbreviation next := (step pol men_preferences).
#[local] Abbreviation go := (exec pol men_preferences).
#[local] Abbreviation men := (men_preferences.*1).

Lemma step_return c e :
  next c = Return e → e = engaged c ∧ cursor c = None ∧ free_men c = [].
Proof.
  unfold step. destruct (cursor c) as [[man [|woman rest]]|]; [done| |].
  - destruct (proposals c !! man) as [history|]; [|done]. case_decide; [done|].
    destruct (engaged c !! woman) as [current_man|]; [|done].
    by destruct (accepts pol woman man current_man) as [[]|].
  - destruct (free_men c) as [|man queue]; [by intros [= <-]|].
    destruct (getitem men_preferences man) as [l|]; [|done].
    by destruct (ranking pol man l).
Qed.

Lemma exec_reachable fuel c :
  reachable pol men_preferences c →
  match go fuel c with
  | Finished c' =>
      reachable pol men_preferences c' ∧ cursor c' = None ∧ free_men c' = []
  | Failed _ _ => True
  | Unfinished c' => reachable pol men_preferences c'
  end.
Proof.
  revert c. induction fuel as [|fuel IH]; intros c Hc; simpl; [done|].
  destruct (next c) as [c'|e|x c'] eqn:Hstep; [| |done].
  - apply IH. by eapply reachable_step.
  - by destruct (step_return _ _ Hstep) as (_ & ? & ?).
Qed.

(** More fuel does not change how a run ends. *)
Lemma exec_more fuel fuel' c :
  fuel ≤ fuel' →
  (∀ c', go fuel c ≠ Unfinished c') → go fuel' c = go fuel c.
Proof.
  revert fuel' c. induction fuel as [|fuel IH]; intros fuel' c Hle Hfin.
  - by destruct (Hfin c).
  - destruct fuel' as [|fuel']; [lia|]. simpl in *.
    destruct (next c); [|done..]. apply IH; [lia|done].
Qed.

(** *** The engagement table *)

Lemma sound_injective c w w' m :
  sound men_preferences c → engaged c !! w = Some m → engaged c !! w' = Some m → w = w'.
Proof.
  intros Hc (_ & _ & ps & Hps & Hw)%(sound_engaged _ _ Hc)
            (_ & _ & ps' & Hps' & Hw')%(sound_engaged _ _ Hc).
  congruence.
Qed.

Lemma initial_history m :
  m ∈ men → proposals (initial men_preferences) !! m = Some [].
Proof.
  simpl. generalize men. intros l.
  induction l as [|m' l IH]; simpl; [by intros ?%elem_of_nil|].
  intros Hm. destruct (decide (m' = m)) as [->|Hne].
  - by rewrite lookup_insert_eq.
  - rewrite lookup_insert_ne by done. apply IH.
    by apply elem_of_cons in Hm as [->|?].
Qed.

Lemma initial_history_inv m ps :
  proposals (initial men_preferences) !! m = Some ps →
  ps = [] ∧ m ∈ men.
Proof.
  simpl. generalize men. intros l.
  induction l as [|m' l IH]; simpl; [by rewrite lookup_empty|].
  destruct (decide (m' = m)) as [->|Hne].
  - rewrite lookup_insert_eq. intros [= <-]. split; [done|left].
  - rewrite lookup_insert_ne by done. intros [-> ?]%IH. split; [done|by right].
Qed.

Lemma sound_initial : NoDup men → sound men_preferences (initial men_preferences).
Proof.
  intros Hnd. split.
  - unfold waiting. simpl. by rewrite app_nil_r.
  - unfold waiting. simpl. intros m. by rewrite app_nil_r.
  - intros w m. simpl. by rewrite lookup_empty.
  - intros m Hm. exists []. by apply initial_history.
Qed.

(** *** The steps, case by case *)

Lemma step_moves c c' : next c = Continue c' → moves pol men_preferences c c'.
Proof.
  destruct c as [queue e p cur]. unfold step. simpl.
  destruct cur as [[man [|woman rest]]|].
  - intros [= <-]. constructor.
  - destruct (p !! man) as [history|] eqn:Hp; [|done].
    case_decide as Hin.
    { intros [= <-]. by econstructor. }
    destruct (e !! woman) as [current_man|] eqn:He.
    + destruct (accepts pol woman man current_man) as [[]|] eqn:Ha;
        intros [= <-]; [by eapply move_replace|by eapply move_reject].
    + intros [= <-]. by eapply move_engage.
  - destruct queue as [|man queue]; [done|].
    destruct (getitem men_preferences man) as [l|] eqn:Hl; [|done].
    destruct (ranking pol man l) as [women|] eqn:Hr; [|done].
    intros [= <-]. by econstructor.
Qed.

Lemma reachable_ind_moves (P : config agent → Prop) :
  P (initial men_preferences) →
  (∀ c c', reachable pol men_preferences c → P c →
           moves pol men_preferences c c' → P c') →
  ∀ c, reachable pol men_preferences c → P c.
Proof.
  intros Hinit Hstep c Hc. induction Hc as [|c c' Hc IH Hs]; [done|].
  eapply Hstep; [done..|]. by apply step_moves.
Qed.

Lemma sound_moves c c' :
  sound men_preferences c →
  moves pol men_preferences c c' →
  sound men_preferences c'.
Proof.
  intros [Hq Hm He Hh] Hmv. unfold waiting in *.
  destruct Hmv; simpl in *.
  - (* take *)
    apply NoDup_cons in Hq as [Hman Hq]. rewrite app_nil_r in *.
    split; unfold waiting; simpl.
    + apply NoDup_app. split_and!; [done| |apply NoDup_singleton].
      intros x Hx Hx'%list_elem_of_singleton. by subst.
    + intros m Hin. apply Hm. apply elem_of_app in Hin as [?|Hin%list_elem_of_singleton];
        [by right|subst; left].
    + intros w m Hw. destruct (He w m Hw) as (? & Hnot & ?).
      split_and!; [done| |done].
      intros Hin. apply Hnot.
      apply elem_of_app in Hin as [?|Hin%list_elem_of_singleton];
        [by right|subst; left].
    + done.
  - (* leave *)
    split; unfold waiting; simpl; rewrite ?app_nil_r.
    + by apply NoDup_app in Hq as (? & _ & _).
    + intros m Hin. apply Hm. apply elem_of_app. by left.
    + intros w m Hw. destruct (He w m Hw) as (? & Hnot & ?).
      split_and!; [done| |done]. intros Hin. apply Hnot. apply elem_of_app. by left.
    + done.
  - (* skip *)
    by split.
  - (* engage *)
    apply NoDup_app in Hq as (Hq & Hdisj & _).
    assert (man ∉ queue) as Hman.
    { intros Hin. by apply (Hdisj man Hin), list_elem_of_singleton. }
    split; unfold waiting; simpl; rewrite ?app_nil_r.
    + done.
    + intros m Hin. apply Hm. apply elem_of_app. by left.
    + intros w m Hw. destruct (decide (woman = w)) as [->|Hne].
      * rewrite lookup_insert_eq in Hw. simplify_eq.
        split_and!; [apply Hm; apply elem_of_app; right; left|done|].
        exists (history ++ [w]). by rewrite lookup_insert_eq, last_snoc.
      * rewrite lookup_insert_ne in Hw by done.
        destruct (He w m Hw) as (? & Hnot & ps & Hps & Hlast).
        split_and!; [done|by intros Hin; apply Hnot, elem_of_app; left|].
        exists ps. split; [|done]. rewrite lookup_insert_ne; [done|].
        intros ->. apply Hnot, elem_of_app. right. left.
    + intros m Hin. destruct (decide (man = m)) as [->|Hne].
      * rewrite lookup_insert_eq. eauto.
      * rewrite lookup_insert_ne by done. by apply Hh.
  - (* replace *)
    apply NoDup_app in Hq as (Hq & Hdisj & _).
    assert (man ∉ queue) as Hman.
    { intros Hin. by apply (Hdisj man Hin), list_elem_of_singleton. }
    destruct (He woman current_man) as (Hcm & Hcnot & cps & Hcps & Hclast); [done|].
    assert (current_man ≠ man) as Hcne.
    { intros ->. apply Hcnot, elem_of_app. right. left. }
    split; unfold waiting; simpl; rewrite ?app_nil_r.
    + apply NoDup_app. split_and!; [done| |apply NoDup_singleton].
      intros x Hx Hx'%list_elem_of_singleton. subst.
      apply Hcnot, elem_of_app. by left.
    + intros m Hin.
      apply elem_of_app in Hin as [?|Hin%list_elem_of_singleton]; [|by subst].
      apply Hm, elem_of_app. by left.
    + intros w m Hw. destruct (decide (woman = w)) as [->|Hne].
      * rewrite lookup_insert_eq in Hw. simplify_eq.
        split_and!; [apply Hm; apply elem_of_app; right; left| |].
        -- intros [?|?%list_elem_of_singleton]%elem_of_app; by subst.
        -- exists (history ++ [w]). by rewrite lookup_insert_eq, last_snoc.
      * rewrite lookup_insert_ne in Hw by done.
        destruct (He w m Hw) as (? & Hnot & ps & Hps & Hlast).
        split_and!; [done| |].
        -- intros [?|?%list_elem_of_singleton]%elem_of_app.
           ++ apply Hnot, elem_of_app. by left.
           ++ subst. apply Hne.
              destruct (He woman current_man) as (_ & _ & ? & ? & ?); [done|].
              congruence.
        -- exists ps. split; [|done]. rewrite lookup_insert_ne; [done|].
           intros ->. apply Hnot, elem_of_app. right. left.
    + intros m Hin. destruct (decide (man = m)) as [->|Hne].
      * rewrite lookup_insert_eq. eauto.
      * rewrite lookup_insert_ne by done. by apply Hh.
  - (* reject *)
    split; unfold waiting; simpl.
    + done.
    + done.
    + intros w m Hw. destruct (He w m Hw) as (? & Hnot & ps & Hps & Hlast).
      split_and!; [done..|].
      exists ps. split; [|done]. rewrite lookup_insert_ne; [done|].
      intros ->. apply Hnot, elem_of_app. right. left.
    + intros m Hin. destruct (decide (man = m)) as [->|Hne].
      * rewrite lookup_insert_eq. eauto.
      * rewrite lookup_insert_ne by done. by apply Hh.
Qed.

Lemma sound_reachable c :
  NoDup men →
  reachable pol men_preferences c →
  sound men_preferences c.
Proof.
  intros Hnd. apply reachable_ind_moves; [by apply sound_initial|].
  intros ?? _. apply sound_moves.
Qed.

(** *** Termination *)

Lemma pending_le (d : list (agent * list agent)) p :
  pending d p ≤ sum_list (length <$> d.*2).
Proof.
  unfold pending. induction d as [|[m l] d IH]; csimpl in *; lia.
Qed.

Lemma pending_insert_le (d : list (agent * list agent)) p m ps w :
  p !! m = Some ps → pending d (<[m := ps ++ [w]]> p) ≤ pending d p.
Proof.
  intros Hp. unfold pending. induction d as [|[m' l] d IH]; csimpl in *; [done|].
  destruct (decide (m = m')) as [->|Hne].
  - rewrite lookup_insert_eq, Hp. simpl. rewrite length_app. simpl. lia.
  - rewrite lookup_insert_ne by done. lia.
Qed.

Lemma pending_insert_lt (d : list (agent * list agent)) p m ps w l :
  p !! m = Some ps → getitem d m = Some l → length ps < length l →
  pending d (<[m := ps ++ [w]]> p) < pending d p.
Proof.
  intros Hp Hl Hlt. induction d as [|[m' l'] d IH]; simpl in *; [done|].
  pose proof (pending_insert_le d p m ps w Hp) as Hle.
  unfold pending in *. csimpl. case_decide; simplify_eq.
  - rewrite lookup_insert_eq, Hp. simpl. rewrite length_app. simpl. lia.
  - rewrite lookup_insert_ne by done. specialize (IH Hl). lia.
Qed.

Lemma getitem_length_le m l :
  getitem men_preferences m = Some l → S (S (length l)) ≤ width men_preferences.
Proof.
  intros Hl%getitem_values. unfold width.
  assert (length l ≤ max_list (length <$> men_preferences.*2)); [|lia].
  apply max_list_elem_of_le, list_elem_of_fmap. by exists l.
Qed.

Lemma bounded_length c m ps l :
  bounded men_preferences c →
  proposals c !! m = Some ps →
  getitem men_preferences m = Some l →
  length ps ≤ length l.
Proof.
  intros Hb (l' & Hl' & Hnd & Hsub)%(bounded_history _ _ Hb) Hl. simplify_eq.
  by apply submseteq_length, NoDup_submseteq.
Qed.

Lemma bounded_initial : bounded men_preferences (initial men_preferences).
Proof.
  split.
  - intros m ps [-> Hm]%initial_history_inv.
    apply getitem_is_Some in Hm as [l Hl]. exists l.
    split_and!; [done|apply NoDup_nil_2|]. by intros ? ?%elem_of_nil.
  - by intros m rest.
Qed.

Lemma bounded_propose c man woman rest history :
  bounded men_preferences c → cursor c = Some (man, woman :: rest) →
  proposals c !! man = Some history → woman ∉ history →
  ∃ l, getitem men_preferences man = Some l ∧ NoDup (history ++ [woman]) ∧
       history ++ [woman] ⊆ l ∧ rest ⊆ l ∧ length rest ≤ length l.
Proof.
  intros Hb (l & Hl & Hsub & Hlen)%(bounded_cursor _ _ Hb)
            (l' & Hl' & Hnd & Hsub')%(bounded_history _ _ Hb) Hnot.
  simplify_eq. exists l. split_and!; [done| | | |simpl in Hlen; lia].
  - apply NoDup_app. split_and!; [done| |apply NoDup_singleton].
    intros x Hx Hx'%list_elem_of_singleton. by subst.
  - intros x [?|Hx%list_elem_of_singleton]%elem_of_app; [by apply Hsub'|].
    subst. apply Hsub. left.
  - intros x Hx. apply Hsub. by right.
Qed.

Lemma bounded_insert c c' man woman rest history :
  bounded men_preferences c → cursor c = Some (man, woman :: rest) →
  proposals c !! man = Some history → woman ∉ history →
  proposals c' = <[man := history ++ [woman]]> (proposals c) →
  cursor c' = None ∨ cursor c' = Some (man, rest) →
  bounded men_preferences c'.
Proof.
  intros Hb Hcur Hp Hnot Hp' Hcur'.
  destruct (bounded_propose _ _ _ _ _ Hb Hcur Hp Hnot) as (l & Hl & Hnd & Hsub & Hrest & Hlen).
  split.
  - intros m ps. rewrite Hp'. destruct (decide (man = m)) as [->|Hne].
    + rewrite lookup_insert_eq. intros [= <-]. eauto.
    + rewrite lookup_insert_ne by done. apply Hb.
  - intros m rest' Hc. destruct Hcur' as [Hcur'|Hcur']; rewrite Hcur' in Hc; [done|].
    simplify_eq. eauto.
Qed.

Lemma bounded_moves c c' :
  reorders pol →
  bounded men_preferences c →
  moves pol men_preferences c c' →
  bounded men_preferences c'.
Proof.
  intros Hro Hb Hmv. destruct Hmv.
  - split; [apply Hb|]. simpl. intros m rest [= <- <-].
    exists l. apply Hro in H1. split_and!; [done| |by rewrite H1].
    intros x. by rewrite H1.
  - split; [apply Hb|]. by intros m rest.
  - split; [apply Hb|]. simpl. intros m rest' [= <- <-].
    destruct (bounded_cursor _ _ Hb man (woman :: rest)) as (l & Hl & Hsub & Hlen); [done|].
    exists l. split_and!; [done| |simpl in Hlen; lia].
    intros x Hx. apply Hsub. by right.
  - eapply bounded_insert; [done..|simpl; by left].
  - eapply bounded_insert; [done..|simpl; by left].
  - eapply bounded_insert; [done..|simpl; by right].
Qed.

Lemma measure_moves c c' :
  reorders pol →
  bounded men_preferences c →
  moves pol men_preferences c c' →
  measure men_preferences c' < measure men_preferences c.
Proof.
  intros Hro Hb Hmv. unfold measure.
  destruct Hmv as [man queue e p l women Hl Hr|queue e p man
    |queue e p man woman rest history Hp Hin
    |queue e p man woman rest history Hp Hin He
    |queue e p man woman rest history current_man Hp Hin He Ha
    |queue e p man woman rest history current_man Hp Hin He Ha];
    cbn [free_men proposals cursor length].
  - pose proof (getitem_length_le _ _ Hl) as Hw.
    rewrite (Permutation_length (Hro _ _ _ Hr)).
    generalize dependent (width men_preferences). intros W HW. nia.
  - lia.
  - lia.
  - destruct (bounded_propose _ _ _ _ _ Hb eq_refl Hp Hin)
      as (l & Hl & Hnd & Hsub & _ & _).
    pose proof (submseteq_length _ _ (NoDup_submseteq _ _ Hnd Hsub)) as Hlen.
    rewrite length_app in Hlen; simpl in Hlen.
    pose proof (pending_insert_lt men_preferences p man history woman l Hp Hl).
    pose proof (getitem_length_le _ _ Hl) as Hw.
    generalize dependent (width men_preferences). intros W HW. nia.
  - destruct (bounded_propose _ _ _ _ _ Hb eq_refl Hp Hin)
      as (l & Hl & Hnd & Hsub & _ & _).
    pose proof (submseteq_length _ _ (NoDup_submseteq _ _ Hnd Hsub)) as Hlen.
    rewrite length_app in Hlen; simpl in Hlen.
    pose proof (pending_insert_lt men_preferences p man history woman l Hp Hl).
    pose proof (getitem_length_le _ _ Hl) as Hw.
    rewrite length_app. simpl.
    generalize dependent (width men_preferences). intros W HW. nia.
  - destruct (bounded_propose _ _ _ _ _ Hb eq_refl Hp Hin)
      as (l & Hl & Hnd & Hsub & _ & _).
    pose proof (submseteq_length _ _ (NoDup_submseteq _ _ Hnd Hsub)) as Hlen.
    rewrite length_app in Hlen; simpl in Hlen.
    pose proof (pending_insert_lt men_preferences p man history woman l Hp Hl).
    pose proof (getitem_length_le _ _ Hl) as Hw.
    generalize dependent (width men_preferences). intros W HW. nia.
Qed.

Lemma exec_total fuel c :
  reorders pol →
  bounded men_preferences c →
  measure men_preferences c < fuel →
  ∀ c', go fuel c ≠ Unfinished c'.
Proof.
  intros Hro. revert c. induction fuel as [|fuel IH]; intros c Hb Hlt c'; [lia|].
  simpl. destruct (next c) as [c1| |] eqn:Hstep; [|done..].
  apply step_moves in Hstep. apply IH.
  - by eapply bounded_moves.
  - pose proof (measure_moves _ _ Hro Hb Hstep). lia.
Qed.

Lemma measure_initial :
  measure men_preferences (initial men_preferences) < enough men_preferences.
Proof.
  unfold measure, enough. cbn [initial free_men proposals cursor].
  rewrite length_fmap.
  pose proof (pending_le men_preferences
                (list_to_map ((λ man, (man, [])) <$> men)) ) as Hle.
  generalize dependent (width men_preferences). intros W. nia.
Qed.

Lemma run_total : reorders pol → ∀ c, run pol men_preferences ≠ Unfinished c.
Proof.
  intros Hro. apply exec_total; [done|apply bounded_initial|apply measure_initial].
Qed.

(** A run either returns or raises, and with any larger fuel it ends the
    same way. *)
Lemma run_stable fuel :
  reorders pol → enough men_preferences ≤ fuel →
  go fuel (initial men_preferences) = run pol men_preferences.
Proof.
  intros Hro Hle. apply exec_more; [done|]. by apply run_total.
Qed.

(** *** The raising steps, case by case *)

Lemma step_throws c x c' : next c = Throw x c' → throws pol men_preferences c x c'.
Proof.
  destruct c as [queue e p cur]. unfold step. simpl.
  destruct cur as [[man [|woman rest]]|].
  - done.
  - destruct (p !! man) as [history|] eqn:Hp; [|intros [= <- <-]; by constructor].
    case_decide as Hin; [done|].
    destruct (e !! woman) as [current_man|] eqn:He; [|done].
    destruct (accepts pol woman man current_man) as [[]|] eqn:Ha; [done..|].
    intros [= <- <-]. by econstructor.
  - destruct queue as [|man queue]; [done|].
    destruct (getitem men_preferences man) as [l|] eqn:Hl;
      [|intros [= <- <-]; by constructor].
    destruct (ranking pol man l) as [women|] eqn:Hr; [done|].
    intros [= <- <-]. by econstructor.
Qed.

Lemma exec_failed fuel c x c' :
  reachable pol men_preferences c → go fuel c = Failed x c' →
  ∃ c0, reachable pol men_preferences c0 ∧ throws pol men_preferences c0 x c'.
Proof.
  revert c. induction fuel as [|fuel IH]; intros c Hc; simpl; [done|].
  destruct (next c) as [c1|e|x1 c1] eqn:Hstep; [|done|].
  - apply IH. by eapply reachable_step.
  - intros [= <- <-]. exists c. split; [done|]. by apply step_throws.
Qed.

(** *** Invariants along a run *)

Lemma exec_invariant (I : config agent → Prop) fuel c :
  (∀ c c', I c → moves pol men_preferences c c' → I c') →
  (∀ c x c', I c → next c ≠ Throw x c') →
  I c →
  match go fuel c with
  | Finished c' | Unfinished c' => I c'
  | Failed _ _ => False
  end.
Proof.
  intros Hkeep Hsafe. revert c.
  induction fuel as [|fuel IH]; intros c Hc; simpl; [done|].
  destruct (next c) as [c'|e|x c'] eqn:Hstep; [|done|].
  - apply IH. eapply Hkeep; [done|]. by apply step_moves.
  - by destruct (Hsafe c x c' Hc).
Qed.


(** *** The loops and the single steps agree *)

Lemma moves_step c c' : moves pol men_preferences c c' → next c = Continue c'.
Proof.
  intros Hmv. destruct Hmv as [man queue e p l women Hl Hr|queue e p man
    |queue e p man woman rest history Hp Hin
    |queue e p man woman rest history Hp Hin He
    |queue e p man woman rest history current_man Hp Hin He Ha
    |queue e p man woman rest history current_man Hp Hin He Ha];
    unfold step; simpl.
  - by rewrite Hl, Hr.
  - done.
  - rewrite Hp. by rewrite decide_True.
  - rewrite Hp. rewrite decide_False by done. by rewrite He.
  - rewrite Hp. rewrite decide_False by done. by rewrite He, Ha.
  - rewrite Hp. rewrite decide_False by done. by rewrite He, Ha.
Qed.

Lemma throws_step c x c' : throws pol men_preferences c x c' → next c = Throw x c'.
Proof.
  intros Hth. destruct Hth as [man queue e p Hl|man queue e p l x Hl Hx
    |queue e p man woman rest Hp
    |queue e p man woman rest history current_man x Hp Hin He Ha];
    unfold step; simpl.
  - by rewrite Hl.
  - by rewrite Hl, Hx.
  - by rewrite Hp.
  - rewrite Hp. rewrite decide_False by done. by rewrite He, Ha.
Qed.

Lemma exec_moves fuel c c' :
  moves pol men_preferences c c' → go (S fuel) c = go fuel c'.
Proof. intros Hmv%moves_step. simpl. by rewrite Hmv. Qed.

Lemma exec_rtc c c' :
  rtc (moves pol men_preferences) c c' →
  ∃ k, ∀ fuel, go (k + fuel) c = go fuel c'.
Proof.
  induction 1 as [c|c c1 c' Hmv _ [k IH]].
  - by exists 0.
  - exists (S k). intros fuel. rewrite <- IH. by apply exec_moves.
Qed.

Lemma bounded_rtc c c' :
  reorders pol →
  rtc (moves pol men_preferences) c c' →
  bounded men_preferences c →
  bounded men_preferences c' ∧ measure men_preferences c' ≤ measure men_preferences c.
Proof.
  intros Hro. induction 1 as [c|c c1 c' Hmv _ IH]; intros Hb; [done|].
  destruct IH as [Hb' Hle]; [by eapply bounded_moves|]. split; [done|].
  pose proof (measure_moves _ _ Hro Hb Hmv). lia.
Qed.

Lemma for_loop_moves man women queue e p :
  match for_loop pol man women (Config queue e p None) with
  | Ok c2 =>
      rtc (moves pol men_preferences) (Config queue e p (Some (man, women))) c2 ∧
      cursor c2 = None
  | Raise x =>
      ∃ c0 c', rtc (moves pol men_preferences)
                   (Config queue e p (Some (man, women))) c0 ∧
               throws pol men_preferences c0 x c'
  end.
Proof.
  revert queue e p. induction women as [|woman rest IH]; intros queue e p; simpl.
  - split; [|done]. apply rtc_once. constructor.
  - destruct (p !! man) as [history|] eqn:Hp; simpl.
    2: { eexists _, _. split; [apply rtc_refl|]. by constructor. }
    case_decide as Hin.
    { specialize (IH queue e p). destruct (for_loop pol man rest _) as [c2|x].
      - destruct IH as [Hrtc ?]. split; [|done].
        eapply rtc_l; [|done]. by econstructor.
      - destruct IH as (c0 & c' & Hrtc & Hth). exists c0, c'. split; [|done].
        eapply rtc_l; [|done]. by econstructor. }
    destruct (e !! woman) as [current_man|] eqn:He.
    2: { split; [|done]. apply rtc_once. by econstructor. }
    destruct (accepts pol woman man current_man) as [[]|x] eqn:Ha; simpl.
    + split; [|done]. apply rtc_once. by econstructor.
    + specialize (IH queue e (<[man := history ++ [woman]]> p)).
      destruct (for_loop pol man rest _) as [c2|x].
      * destruct IH as [Hrtc ?]. split; [|done].
        eapply rtc_l; [|done]. by econstructor.
      * destruct IH as (c0 & c' & Hrtc & Hth). exists c0, c'. split; [|done].
        eapply rtc_l; [|done]. by econstructor.
    + eexists _, _. split; [apply rtc_refl|]. by econstructor.
Qed.

Lemma while_loop_moves fuel c r :
  cursor c = None →
  while_loop pol men_preferences fuel c = Some r →
  match r with
  | Ok e => ∃ c', rtc (moves pol men_preferences) c c' ∧ next c' = Return e
  | Raise x =>
      ∃ c0 c', rtc (moves pol men_preferences) c c0 ∧
               throws pol men_preferences c0 x c'
  end.
Proof.
  revert c. induction fuel as [|fuel IH]; intros [queue e p cur] Hcur; simpl in *;
    [done|]. subst cur.
  destruct queue as [|man queue].
  { intros [= <-]. eexists. split; [apply rtc_refl|done]. }
  destruct (getitem men_preferences man) as [l|] eqn:Hl; simpl.
  2: { intros [= <-]. eexists _, _. split; [apply rtc_refl|]. by constructor. }
  destruct (ranking pol man l) as [women|x] eqn:Hr; simpl.
  2: { intros [= <-]. eexists _, _. split; [apply rtc_refl|]. by econstructor. }
  pose proof (for_loop_moves man women queue e p) as Hfor.
  destruct (for_loop pol man women _) as [c2|x].
  - destruct Hfor as [Hrtc Hcur2]. intros Hloop.
    specialize (IH c2 Hcur2 Hloop). destruct r as [e'|x].
    + destruct IH as (c' & Hrtc' & Hret). exists c'. split; [|done].
      eapply rtc_l; [by econstructor|]. by etrans.
    + destruct IH as (c0 & c' & Hrtc' & Hth). exists c0, c'. split; [|done].
      eapply rtc_l; [by econstructor|]. by etrans.
  - destruct Hfor as (c0 & c' & Hrtc & Hth). intros [= <-]. exists c0, c'.
    split; [|done]. eapply rtc_l; [by econstructor|done].
Qed.

Lemma while_loop_total fuel c :
  reorders pol → bounded men_preferences c → cursor c = None →
  measure men_preferences c < fuel →
  is_Some (while_loop pol men_preferences fuel c).
Proof.
  intros Hro. revert c.
  induction fuel as [|fuel IH]; intros [queue e p cur] Hb Hcur Hlt; simpl in *;
    [lia|]. subst cur.
  destruct queue as [|man queue]; [eauto|].
  destruct (getitem men_preferences man) as [l|] eqn:Hl; simpl; [|eauto].
  destruct (ranking pol man l) as [women|x] eqn:Hr; simpl; [|eauto].
  pose proof (for_loop_moves man women queue e p) as Hfor.
  destruct (for_loop pol man women _) as [c2|x]; [|eauto].
  destruct Hfor as [Hrtc Hcur2].
  assert (moves pol men_preferences (Config (man :: queue) e p None)
            (Config queue e p (Some (man, women)))) as Htake by by econstructor.
  pose proof (measure_moves _ _ Hro Hb Htake).
  destruct (bounded_rtc _ _ Hro Hrtc) as [Hb2 Hle]; [by eapply bounded_moves|].
  apply IH; [done..|lia].
Qed.

(** The loops with the fuel [enough] do what the single steps do. *)
Lemma matching_function_run :
  reorders pol →
  matching_function pol men_preferences = returned (run pol men_preferences).
Proof.
  intros Hro. unfold matching_function.
  destruct (while_loop_total (enough men_preferences) (initial men_preferences) Hro)
    as [r Hr]; [apply bounded_initial|done|apply measure_initial|].
  rewrite Hr.
  pose proof (while_loop_moves _ (initial men_preferences) _ eq_refl Hr) as Hmv.
  pose proof (run_total Hro) as Htot. unfold run in *.
  destruct r as [e|x].
  - destruct Hmv as (c' & [k Hk]%exec_rtc & Hret).
    rewrite <- (exec_more (enough men_preferences)
                  (k + S (enough men_preferences))); [|lia|done].
    rewrite Hk. simpl. rewrite Hret. simpl.
    by destruct (step_return _ _ Hret) as (-> & _).
  - destruct Hmv as (c0 & c' & [k Hk]%exec_rtc & Hth%throws_step).
    rewrite <- (exec_more (enough men_preferences)
                  (k + S (enough men_preferences))); [|lia|done].
    rewrite Hk. simpl. by rewrite Hth.
Qed.

(** *** A proposer whose order cannot be composed *)

End runs.

(** ** Stability *)

Section lists.
Context {A : Type}.

Lemma scan_hit (scanned rest ps l : list A) w :
  NoDup l → l = scanned ++ w :: rest →
  scanned `prefix_of` ps → ps `prefix_of` l → w ∈ ps →
  (scanned ++ [w]) `prefix_of` ps.
Proof.
  intros Hnd -> [t ->] [u Hu] Hw.
  rewrite <- (assoc_L (++)) in Hu. apply app_inv_head in Hu.
  destruct t as [|a t]; simpl in Hu.
  - rewrite app_nil_r in Hw. apply NoDup_app in Hnd as (_ & Hdisj & _).
    destruct (Hdisj w Hw). left.
  - injection Hu as <- _. exists t. by rewrite <- (assoc_L (++)).
Qed.

Lemma scan_miss (scanned rest ps l : list A) w :
  l = scanned ++ w :: rest →
  scanned `prefix_of` ps → ps `prefix_of` l → w ∉ ps →
  ps = scanned.
Proof.
  intros -> [t ->] [u Hu] Hw.
  rewrite <- (assoc_L (++)) in Hu. apply app_inv_head in Hu.
  destruct t as [|a t]; simpl in Hu.
  - by rewrite app_nil_r.
  - injection Hu as <- _. destruct Hw. apply elem_of_app. right. left.
Qed.
End lists.

Section stability.
Context {agent : Type} `{Countable agent}.
Context (men_preferences women_preferences : list (agent * list agent)).

#[local] Abbreviation men := (men_preferences.*1).
#[local] Abbreviation women := (women_preferences.*1).
#[local] Abbreviation pol := (by_rank women_preferences).

Lemma by_rank_reorders : reorders pol.
Proof. by intros man l women' [= <-]. Qed.

Lemma by_rank_accepts woman man current_man b :
  accepts pol woman man current_man = Ok b →
  ∃ l i j, getitem women_preferences woman = Some l ∧
    index l man = Some i ∧ index l current_man = Some j ∧ b = bool_decide (i < j).
Proof.
  simpl. unfold list_index.
  destruct (getitem women_preferences woman) as [l|]; simpl; [|done].
  destruct (index l man) as [i|] eqn:Hi; simpl; [|done].
  destruct (index l current_man) as [j|] eqn:Hj; simpl; [|done].
  intros [= <-]. by exists l, i, j.
Qed.

Section complete.
Hypothesis Hwf : complete men_preferences women_preferences.

Lemma men_distinct : NoDup men.
Proof. apply Hwf. Qed.

Lemma women_distinct : NoDup women.
Proof. apply Hwf. Qed.

Lemma men_rank_all m l : (m, l) ∈ men_preferences → l ≡ₚ women.
Proof.
  destruct Hwf as (_ & _ & Hall & _). rewrite Forall_forall in Hall.
  apply (Hall (m, l)).
Qed.

Lemma women_rank_all w l : (w, l) ∈ women_preferences → l ≡ₚ men.
Proof.
  destruct Hwf as (_ & _ & _ & Hall). rewrite Forall_forall in Hall.
  apply (Hall (w, l)).
Qed.

Lemma men_list m l :
  getitem men_preferences m = Some l → NoDup l ∧ ∀ w, w ∈ l ↔ w ∈ women.
Proof.
  intros Hl%getitem_elem_of%men_rank_all. split.
  - rewrite Hl. apply women_distinct.
  - intros w. by rewrite Hl.
Qed.

Lemma rank_defined w m :
  w ∈ women → m ∈ men →
  ∃ l i, getitem women_preferences w = Some l ∧ index l m = Some i.
Proof.
  intros [l Hl]%getitem_is_Some Hm. exists l.
  pose proof (women_rank_all _ _ (getitem_elem_of _ _ _ Hl)) as Hperm.
  rewrite <- Hperm in Hm. apply index_is_Some in Hm as [i Hi]. eauto.
Qed.

Lemma by_rank_accepts_defined woman man current_man :
  woman ∈ women → man ∈ men → current_man ∈ men →
  ∃ b, accepts pol woman man current_man = Ok b.
Proof.
  intros Hw Hm Hc.
  destruct (rank_defined _ _ Hw Hm) as (l & i & Hl & Hi).
  destruct (rank_defined _ _ Hw Hc) as (l' & j & Hl' & Hj). simplify_eq.
  exists (bool_decide (i < j)). simpl. unfold list_index.
  rewrite Hl. simpl. rewrite Hi. simpl. by rewrite Hj.
Qed.

Lemma orderly_initial :
  orderly men_preferences women_preferences (initial men_preferences).
Proof.
  split.
  - intros m ps l [-> _]%initial_history_inv _. apply prefix_nil.
  - by intros m rest.
  - by intros m ps w [-> _]%initial_history_inv ?%elem_of_nil.
  - intros m l Hl. left. unfold waiting. simpl. rewrite app_nil_r.
    apply getitem_is_Some. eauto.
Qed.

Lemma orderly_propose c man woman rest history :
  orderly men_preferences women_preferences c → cursor c = Some (man, woman :: rest) →
  proposals c !! man = Some history → woman ∉ history →
  getitem men_preferences man = Some (history ++ woman :: rest).
Proof.
  intros Hc (l & ps & scanned & Hl & Hps & -> & Hpre)%(orderly_cursor _ _ _ Hc) Hh Hnot.
  rewrite Hps in Hh. injection Hh as ->.
  pose proof (orderly_prefix _ _ _ Hc _ _ _ Hps Hl) as Hpre'.
  by rewrite (scan_miss _ _ _ _ _ eq_refl Hpre Hpre' Hnot).
Qed.

Lemma orderly_prefix_insert (p : gmap agent (list agent)) man woman rest history :
  (∀ m ps l, p !! m = Some ps → getitem men_preferences m = Some l → ps `prefix_of` l) →
  getitem men_preferences man = Some (history ++ woman :: rest) →
  ∀ m ps l, <[man := history ++ [woman]]> p !! m = Some ps →
    getitem men_preferences m = Some l → ps `prefix_of` l.
Proof.
  intros Hold Hl m ps l. destruct (decide (man = m)) as [->|Hne].
  - rewrite lookup_insert_eq. intros [= <-] Hl'. simplify_eq.
    exists rest. by rewrite <- (assoc_L (++)).
  - rewrite lookup_insert_ne by done. apply Hold.
Qed.

(** The histories after a proposal: the new entry, or an old one. *)
Lemma history_insert (p : gmap agent (list agent)) man woman history m ps w :
  <[man := history ++ [woman]]> p !! m = Some ps → w ∈ ps →
  p !! man = Some history →
  (m = man ∧ w = woman) ∨ (∃ ps', p !! m = Some ps' ∧ w ∈ ps').
Proof.
  intros Hps Hw Hh. destruct (decide (man = m)) as [->|Hne].
  - rewrite lookup_insert_eq in Hps. simplify_eq.
    apply elem_of_app in Hw as [?|Hw%list_elem_of_singleton]; [right; eauto|by left].
  - rewrite lookup_insert_ne in Hps by done. right. eauto.
Qed.

Lemma orderly_moves c c' :
  sound men_preferences c →
  orderly men_preferences women_preferences c →
  moves pol men_preferences c c' →
  orderly men_preferences women_preferences c'.
Proof.
  intros Hs Hc Hmv.
  destruct Hmv as [man queue e p l women' Hl Hr|queue e p man
    |queue e p man woman rest history Hp Hin
    |queue e p man woman rest history Hp Hin He
    |queue e p man woman rest history current_man Hp Hin He Ha
    |queue e p man woman rest history current_man Hp Hin He Ha].
  - (* take *)
    injection Hr as <-. split; simpl.
    + apply Hc.
    + intros m rest [= <- <-].
      destruct (sound_history _ _ Hs man) as [ps Hps].
      { apply (sound_men _ _ Hs). apply elem_of_app. left. left. }
      exists l, ps, []. split_and!; [done..|apply prefix_nil].
    + apply Hc.
    + intros m l' Hl'. destruct (orderly_men _ _ _ Hc m l' Hl') as [Hw|Hother]; [|by right].
      left. unfold waiting, active in *. simpl in *. rewrite app_nil_r in Hw.
      apply elem_of_app. rewrite list_elem_of_singleton.
      apply elem_of_cons in Hw as [->|?]; [by right|by left].
  - (* leave *)
    destruct (orderly_cursor _ _ _ Hc man []) as (l & ps & scanned & Hl & Hps & Hscan & Hpre);
      [done|]. rewrite app_nil_r in Hscan. subst scanned. simpl in *.
    assert (ps = l) as ->.
    { apply (anti_symm prefix); [by eapply (orderly_prefix _ _ _ Hc)|done]. }
    split; simpl.
    + apply Hc.
    + by intros m rest.
    + apply Hc.
    + intros m l' Hl'. destruct (decide (m = man)) as [->|Hne].
      { right. right. by simplify_eq. }
      destruct (orderly_men _ _ _ Hc m l' Hl') as [Hw|Hother]; [|by right].
      left. unfold waiting, active in *. simpl in *. rewrite app_nil_r.
      apply elem_of_app in Hw as [?|Hw%list_elem_of_singleton]; done.
  - (* skip *)
    destruct (orderly_cursor _ _ _ Hc man (woman :: rest))
      as (l & ps & scanned & Hl & Hps & Hscan & Hpre); [done|]. simpl in *.
    simplify_eq. split; simpl.
    + apply Hc.
    + intros m rest' [= <- <-]. exists (scanned ++ woman :: rest), history, (scanned ++ [woman]).
      split_and!; [done..|by rewrite <- (assoc_L (++))|].
      eapply scan_hit; [|done..| |done].
      * by apply (men_list man).
      * by eapply (orderly_prefix _ _ _ Hc).
    + apply Hc.
    + apply Hc.
  - (* engage *)
    pose proof (orderly_propose _ _ _ _ _ Hc eq_refl Hp Hin) as Hl. simpl in *.
    assert (man ∈ men) as Hman.
    { apply (sound_men _ _ Hs). apply elem_of_app. right. left. }
    assert (woman ∈ women) as Hwoman.
    { apply (men_list _ _ Hl). apply elem_of_app. right. left. }
    split; simpl.
    + by eapply orderly_prefix_insert; [apply Hc|].
    + by intros m rest'.
    + intros m ps w Hps Hw.
      destruct (history_insert _ _ _ _ _ _ _ Hps Hw Hp) as [[-> ->]|(ps' & Hps' & Hw')].
      * destruct (rank_defined _ _ Hwoman Hman) as (lw & i & Hlw & Hi).
        exists man, lw, i, i. by rewrite lookup_insert_eq.
      * destruct (orderly_women _ _ _ Hc _ _ _ Hps' Hw') as (m' & lw & i & j & He' & ?).
        exists m', lw, i, j. split; [|done].
        rewrite lookup_insert_ne; [done|]. intros ->. simpl in *. congruence.
    + intros m l' Hl'. destruct (decide (m = man)) as [->|Hne].
      { right. left. exists woman. by rewrite lookup_insert_eq. }
      destruct (orderly_men _ _ _ Hc m l' Hl') as [Hw|[[w Hw]|Hex]].
      * left. unfold waiting, active in *. simpl in *. rewrite app_nil_r.
        apply elem_of_app in Hw as [?|Hw%list_elem_of_singleton]; done.
      * right. left. exists w. rewrite lookup_insert_ne; [done|].
        intros ->. simpl in *. congruence.
      * right. right. simpl in *. by rewrite lookup_insert_ne.
  - (* replace *)
    pose proof (orderly_propose _ _ _ _ _ Hc eq_refl Hp Hin) as Hl. simpl in *.
    apply by_rank_accepts in Ha as (lw & i & j & Hlw & Hi & Hj & Hlt).
    symmetry in Hlt. apply bool_decide_eq_true in Hlt.
    split; simpl.
    + by eapply orderly_prefix_insert; [apply Hc|].
    + by intros m rest'.
    + intros m ps w Hps Hw.
      destruct (history_insert _ _ _ _ _ _ _ Hps Hw Hp) as [[-> ->]|(ps' & Hps' & Hw')].
      * exists man, lw, i, i. by rewrite lookup_insert_eq.
      * destruct (orderly_women _ _ _ Hc _ _ _ Hps' Hw')
          as (m' & lw' & i' & j' & He' & Hlw' & Hi' & Hj' & Hle).
        simpl in *. destruct (decide (woman = w)) as [->|Hne].
        -- simplify_eq. exists man, lw, i, j'. rewrite lookup_insert_eq.
           split_and!; [done..|lia].
        -- exists m', lw', i', j'. by rewrite lookup_insert_ne.
    + intros m l' Hl'. destruct (decide (m = man)) as [->|Hne].
      { right. left. exists woman. by rewrite lookup_insert_eq. }
      destruct (orderly_men _ _ _ Hc m l' Hl') as [Hw|[[w Hw]|Hex]].
      * left. unfold waiting, active in *. simpl in *. rewrite app_nil_r.
        apply elem_of_app in Hw as [?|Hw%list_elem_of_singleton]; [|done].
        apply elem_of_app. by left.
      * simpl in *. destruct (decide (woman = w)) as [->|Hne'].
        -- left. unfold waiting, active. simpl. rewrite app_nil_r. simplify_eq.
           apply elem_of_app. right. left.
        -- right. left. exists w. by rewrite lookup_insert_ne.
      * right. right. simpl in *. by rewrite lookup_insert_ne.
  - (* reject *)
    pose proof (orderly_propose _ _ _ _ _ Hc eq_refl Hp Hin) as Hl. simpl in *.
    apply by_rank_accepts in Ha as (lw & i & j & Hlw & Hi & Hj & Hlt).
    symmetry in Hlt. apply bool_decide_eq_false in Hlt.
    split; simpl.
    + by eapply orderly_prefix_insert; [apply Hc|].
    + intros m rest' [= <- <-].
      exists (history ++ woman :: rest), (history ++ [woman]), (history ++ [woman]).
      rewrite lookup_insert_eq. split_and!; [done..|by rewrite <- (assoc_L (++))|done].
    + intros m ps w Hps Hw.
      destruct (history_insert _ _ _ _ _ _ _ Hps Hw Hp) as [[-> ->]|(ps' & Hps' & Hw')].
      * exists current_man, lw, j, i. split_and!; [done..|lia].
      * by apply (orderly_women _ _ _ Hc _ _ _ Hps' Hw').
    + intros m l' Hl'. destruct (decide (m = man)) as [->|Hne].
      { left. unfold waiting, active. simpl. apply elem_of_app. right. left. }
      destruct (orderly_men _ _ _ Hc m l' Hl') as [Hw|[[w Hw]|Hex]].
      * by left.
      * right. left. by exists w.
      * right. right. simpl in *. by rewrite lookup_insert_ne.
Qed.

Lemma step_safe c x c' :
  sound men_preferences c →
  orderly men_preferences women_preferences c →
  step pol men_preferences c ≠ Throw x c'.
Proof.
  intros Hs Hc. unfold step.
  destruct (cursor c) as [[man [|woman rest]]|] eqn:Hcur; [done| |].
  - destruct (sound_history _ _ Hs man) as [history Hp].
    { apply (sound_men _ _ Hs). unfold waiting, active. rewrite Hcur.
      apply elem_of_app. right. left. }
    rewrite Hp. case_decide as Hin; [done|].
    destruct (engaged c !! woman) as [current_man|] eqn:He; [|done].
    pose proof (orderly_propose _ _ _ _ _ Hc Hcur Hp Hin) as Hl.
    destruct (by_rank_accepts_defined woman man current_man) as [b Hb].
    + apply (men_list _ _ Hl). apply elem_of_app. right. left.
    + apply getitem_is_Some. eauto.
    + by apply (sound_engaged _ _ Hs woman).
    + rewrite Hb. by destruct b.
  - destruct (free_men c) as [|man queue] eqn:Hq; [done|].
    destruct (getitem men_preferences man) as [l|] eqn:Hl; [done|].
    assert (is_Some (getitem men_preferences man)) as [? ?]; [|congruence].
    apply getitem_is_Some, (sound_men _ _ Hs). unfold waiting. rewrite Hq.
    apply elem_of_app. left. left.
Qed.

(** With permutations on both sides the run returns, and the store at the
    [return] satisfies the invariants, with any further property [I] the
    steps keep. *)
Lemma run_keeps (I : config agent → Prop) :
  I (initial men_preferences) →
  (∀ c c', sound men_preferences c → orderly men_preferences women_preferences c → I c →
     moves pol men_preferences c c' → I c') →
  ∃ c, run pol men_preferences = Finished c ∧
    reachable pol men_preferences c ∧
    sound men_preferences c ∧ orderly men_preferences women_preferences c ∧ I c ∧
    cursor c = None ∧ free_men c = [].
Proof.
  intros Hinit Hkeep.
  pose proof (exec_invariant pol men_preferences
    (λ c, sound men_preferences c ∧ orderly men_preferences women_preferences c ∧ I c)
    (enough men_preferences) (initial men_preferences)) as Hinv.
  pose proof (exec_reachable pol men_preferences (enough men_preferences)
    (initial men_preferences) (reachable_initial pol men_preferences)) as Hreach.
  pose proof (run_total pol men_preferences by_rank_reorders) as Htot.
  assert (match exec pol men_preferences (enough men_preferences)
                  (initial men_preferences) with
          | Finished c' | Unfinished c' =>
              sound men_preferences c' ∧ orderly men_preferences women_preferences c' ∧ I c'
          | Failed _ _ => False
          end) as Hend.
  { apply Hinv.
    - intros c1 c2 (? & ? & ?) Hmv.
      split_and!; [by eapply sound_moves|by eapply orderly_moves|by eapply Hkeep].
    - intros c1 x c2 (? & ? & ?). by apply step_safe.
    - split_and!; [apply sound_initial, men_distinct|apply orderly_initial|done]. }
  clear Hinv. unfold run in *.
  destruct (exec pol men_preferences (enough men_preferences)
              (initial men_preferences)) as [c|x c|c].
  - exists c. destruct Hreach as (? & ? & ?). by destruct Hend as (? & ? & ?).
  - done.
  - by destruct (Htot c).
Qed.

Lemma finished_matching c :
  sound men_preferences c →
  orderly men_preferences women_preferences c →
  matching men_preferences women_preferences (engaged c).
Proof.
  intros Hs Hc. split.
  - intros r p Hrp. destruct (sound_engaged _ _ Hs r p Hrp) as (Hp & _ & ps & Hps & Hlast).
    split; [|done]. apply getitem_is_Some in Hp as [l Hl].
    apply (men_list _ _ Hl). destruct (orderly_prefix _ _ _ Hc _ _ _ Hps Hl) as [t ->].
    apply elem_of_app. left. apply last_Some in Hlast as [ps' ->].
    apply elem_of_app. right. left.
  - intros r r' p. by apply (sound_injective men_preferences c).
Qed.

Lemma finished_stable c :
  sound men_preferences c →
  orderly men_preferences women_preferences c →
  cursor c = None →
  free_men c = [] →
  stable men_preferences women_preferences (engaged c).
Proof.
  intros Hs Hc Hcur Hq p r (Hp & Hr & Hne & Hman & Hwoman).
  apply getitem_is_Some in Hp as [l Hl].
  assert (∃ ps, proposals c !! p = Some ps ∧ r ∈ ps) as (ps & Hps & Hin).
  { destruct Hman as [Hfree|(r' & l' & Hr' & Hl' & i & j & Hi & Hj & Hlt)].
    - destruct (orderly_men _ _ _ Hc p l Hl) as [Hw|[[w Hw]|Hex]].
      + unfold waiting, active in Hw. rewrite Hcur, Hq in Hw. by apply elem_of_nil in Hw.
      + by destruct (Hfree w).
      + exists l. split; [done|]. by apply (men_list _ _ Hl).
    - simplify_eq.
      destruct (sound_engaged _ _ Hs r' p Hr') as (_ & _ & ps & Hps & Hlast).
      exists ps. split; [done|].
      apply (prefix_index_closed ps l r r' i j);
        [by eapply (orderly_prefix _ _ _ Hc)| |done..|lia].
      apply last_Some in Hlast as [ps' ->]. apply elem_of_app. right. left. }
  destruct (orderly_women _ _ _ Hc _ _ _ Hps Hin) as (m' & lw & i & j & He & Hlw & Hi & Hj & Hle).
  destruct Hwoman as [Hnone|(p' & lw' & He' & Hlw' & a & b & Ha & Hb & Hlt)]; [congruence|].
  simplify_eq. lia.
Qed.

(** *** Proposer-optimality *)

Lemma partner_or_single (M : gmap agent agent) p :
  (∃ r, M !! r = Some p) ∨ (∀ r, M !! r ≠ Some p).
Proof.
  destruct (decide (map_Exists (λ _ p', p' = p) M)) as [(r & p' & Hr & ->)|Hno].
  - left. eauto.
  - right. intros r Hr. apply Hno. by exists r, p.
Qed.

(** If [w] ranks [m] before [q], and no woman [m] ranks before [w] is his
    partner in the stable matching [M], then [q] is not the partner of [w]
    in [M]: otherwise [m] and [w] would block [M]. *)
Lemma stable_partner_kept M m q w lm lw i j :
  matching men_preferences women_preferences M →
  stable men_preferences women_preferences M →
  m ∈ men → getitem men_preferences m = Some lm → w ∈ lm →
  (∀ r, prefers lm r w → M !! r ≠ Some m) →
  getitem women_preferences w = Some lw →
  index lw m = Some i → index lw q = Some j → i < j →
  M !! w ≠ Some q.
Proof.
  intros HM Hst Hm Hlm Hw Hbefore Hlw Hi Hj Hlt Hq.
  apply (Hst m w). split_and!.
  - done.
  - by apply (men_list _ _ Hlm).
  - rewrite Hq. intros [= ->]. simplify_eq. lia.
  - destruct (partner_or_single M m) as [[r Hr]|Hnone]; [right|by left].
    exists r, lm. split_and!; [done..|].
    destruct (matching_sides _ _ _ HM r m Hr) as [Hrw _].
    apply (men_list _ _ Hlm), index_is_Some in Hrw as [a Ha].
    apply index_is_Some in Hw as [b Hb].
    exists b, a. split_and!; [done..|].
    destruct (decide (a < b)) as [Hab|Hab].
    { destruct (Hbefore r); [by exists a, b|done]. }
    assert (a ≠ b); [|lia]. intros ->.
    pose proof (index_inj _ _ _ _ Ha Hb) as ->. simplify_eq. lia.
  - right. exists q, lw. split_and!; [done..|]. by exists i, j.
Qed.

Lemma achievable_initial M : achievable M (initial men_preferences).
Proof. by intros m ps w [-> _]%initial_history_inv ?%elem_of_nil. Qed.

Lemma achievable_moves M c c' :
  matching men_preferences women_preferences M →
  stable men_preferences women_preferences M →
  sound men_preferences c →
  orderly men_preferences women_preferences c →
  achievable M c →
  moves pol men_preferences c c' → achievable M c'.
Proof.
  intros HM Hst Hs Hc Ha Hmv.
  destruct Hmv as [man queue e p l women' Hl Hr|queue e p man
    |queue e p man woman rest history Hp Hin
    |queue e p man woman rest history Hp Hin He
    |queue e p man woman rest history current_man Hp Hin He Hacc
    |queue e p man woman rest history current_man Hp Hin He Hacc];
    [done..| | |].
  - (* engage *)
    intros m ps w Hps Hw HMw. simpl in *.
    destruct (history_insert _ _ _ _ _ _ _ Hps Hw Hp) as [[-> ->]|(ps' & Hps' & Hw')].
    + by rewrite lookup_insert_eq.
    + pose proof (Ha m ps' w Hps' Hw' HMw) as He'. simpl in He'.
      rewrite lookup_insert_ne; [done|]. intros ->. congruence.
  - (* replace *)
    pose proof (orderly_propose _ _ _ _ _ Hc eq_refl Hp Hin) as Hl. simpl in Hl.
    apply by_rank_accepts in Hacc as (lw & i & j & Hlw & Hi & Hj & Hlt).
    symmetry in Hlt. apply bool_decide_eq_true in Hlt.
    assert (man ∈ waiting (Config queue e p (Some (man, woman :: rest)))) as Hman.
    { apply elem_of_app. right. left. }
    intros m ps w Hps Hw HMw. simpl in *.
    destruct (history_insert _ _ _ _ _ _ _ Hps Hw Hp) as [[-> ->]|(ps' & Hps' & Hw')].
    + by rewrite lookup_insert_eq.
    + pose proof (Ha m ps' w Hps' Hw' HMw) as He'. simpl in He'.
      rewrite lookup_insert_ne; [done|]. intros ->. simplify_eq.
      assert (∀ r, prefers (history ++ w :: rest) r w → M !! r ≠ Some man) as Hbefore.
      { intros r (a & b & Hra & Hrb & Hab) Hr.
        assert (r ∈ history ++ [w]) as Hrin.
        { apply (prefix_index_closed _ (history ++ w :: rest) r w a b);
            [|apply elem_of_app; right; left|done..|lia].
          exists rest. by rewrite <- (assoc_L (++)). }
        apply elem_of_app in Hrin as [Hrin|Hrin%list_elem_of_singleton].
        - pose proof (Ha man history r Hp Hrin Hr) as Her. simpl in Her.
          by destruct (sound_engaged _ _ Hs r man Her) as (_ & Hnot & _).
        - subst. simplify_eq. lia. }
      apply (stable_partner_kept M man current_man w _ lw i j HM Hst
               (sound_men _ _ Hs _ Hman) Hl); [|done..].
      apply elem_of_app. right. left.
  - (* reject *)
    apply by_rank_accepts in Hacc as (lw & i & j & Hlw & Hi & Hj & Hlt).
    symmetry in Hlt. apply bool_decide_eq_false in Hlt.
    destruct (sound_engaged _ _ Hs woman current_man He)
      as (Hcm & Hcnot & cps & Hcps & Hlast). simpl in *.
    assert (current_man ≠ man) as Hne.
    { intros ->. apply Hcnot, elem_of_app. right. left. }
    assert (j < i) as Hji.
    { assert (i ≠ j); [|lia]. intros ->. by pose proof (index_inj _ _ _ _ Hi Hj). }
    intros m ps w Hps Hw HMw. simpl in *.
    destruct (history_insert _ _ _ _ _ _ _ Hps Hw Hp) as [[-> ->]|(ps' & Hps' & Hw')];
      [|by apply (Ha m ps' w)].
    exfalso. revert HMw. apply getitem_is_Some in Hcm as [lc Hlc].
    pose proof (orderly_prefix _ _ _ Hc _ _ _ Hcps Hlc) as Hpre.
    apply last_Some in Hlast as [cps' ->].
    assert (∀ r, prefers lc r woman → M !! r ≠ Some current_man) as Hbefore.
    { intros r (a & b & Hra & Hrb & Hab) Hr.
      assert (r ∈ cps' ++ [woman]) as Hrin.
      { apply (prefix_index_closed _ lc r woman a b);
          [done|apply elem_of_app; right; left|done..|lia]. }
      pose proof (Ha current_man _ r Hcps Hrin Hr) as Her. simpl in Her.
      pose proof (sound_injective _ _ _ _ _ Hs Her He) as ->. simplify_eq. lia. }
    apply (stable_partner_kept M current_man man woman lc lw j i HM Hst); [|done| |done..].
    + apply getitem_is_Some. eauto.
    + destruct Hpre as [t ->]. apply elem_of_app. left. apply elem_of_app. right. left.
Qed.

Lemma finished_optimal M c :
  matching men_preferences women_preferences M →
  sound men_preferences c →
  orderly men_preferences women_preferences c →
  achievable M c →
  cursor c = None → free_men c = [] →
  ∀ p r', M !! r' = Some p →
    ∃ r l i j, engaged c !! r = Some p ∧ getitem men_preferences p = Some l ∧
      index l r = Some i ∧ index l r' = Some j ∧ i ≤ j.
Proof.
  intros HM Hs Hc Ha Hcur Hq p r' Hr'.
  destruct (matching_sides _ _ _ HM r' p Hr') as [Hw Hp].
  apply getitem_is_Some in Hp as [l Hl].
  pose proof Hw as Hj. apply (men_list _ _ Hl), index_is_Some in Hj as [j Hj].
  destruct (orderly_men _ _ _ Hc p l Hl) as [Hwait|[[w Hpw]|Hex]].
  - unfold waiting, active in Hwait. rewrite Hcur, Hq in Hwait.
    by apply elem_of_nil in Hwait.
  - destruct (sound_engaged _ _ Hs w p Hpw) as (_ & _ & ps & Hps & Hlast).
    pose proof (orderly_prefix _ _ _ Hc _ _ _ Hps Hl) as Hpre.
    apply last_Some in Hlast as [ps' ->].
    assert (w ∈ ps' ++ [w]) as Hwin by (apply elem_of_app; right; left).
    assert (w ∈ l) as Hi.
    { destruct Hpre as [t ->]. apply elem_of_app. by left. }
    apply index_is_Some in Hi as [i Hi].
    exists w, l, i, j. split_and!; [done..|].
    destruct (decide (i ≤ j)) as [|Hgt]; [done|].
    assert (r' ∈ ps' ++ [w]) as Hrin.
    { apply (prefix_index_closed _ l r' w j i); [done..|lia]. }
    pose proof (Ha p _ r' Hps Hrin Hr') as Her.
    pose proof (sound_injective _ _ _ _ _ Hs Her Hpw) as ->. simplify_eq. lia.
  - exists r', l, j, j. split_and!; [|done..].
    apply (Ha p l r' Hex); [|done]. by apply (men_list _ _ Hl).
Qed.

End complete.
End stability.

(** ** The proposal histories *)

Section histories.
Context {agent : Type} `{Countable agent}.

Lemma bounded_reachable pol (men_preferences : list (agent * list agent)) c :
  reorders pol → reachable pol men_preferences c → bounded men_preferences c.
Proof.
  intros Hro. apply reachable_ind_moves; [apply bounded_initial|].
  intros c1 c2 _. by apply bounded_moves.
Qed.

Lemma sum_lengths_le {A} (ls : list (list A)) k :
  Forall (λ l, length l ≤ k) ls → sum_list (length <$> ls) ≤ length ls * k.
Proof. induction 1; csimpl; lia. Qed.

Lemma bounded_within (men_preferences women_preferences : list (agent * list agent)) c :
  complete men_preferences women_preferences →
  bounded men_preferences c → within_bound men_preferences women_preferences c.
Proof.
  intros Hwf Hb.
  assert (∀ m ps, proposals c !! m = Some ps →
            NoDup ps ∧ length ps ≤ length women_preferences) as Hhist.
  { intros m ps (l & Hl & Hnd & Hsub)%(bounded_history _ _ Hb). split; [done|].
    rewrite <- (length_fmap fst women_preferences).
    rewrite <- (Permutation_length (men_rank_all _ _ Hwf _ _ (getitem_elem_of _ _ _ Hl))).
    by apply submseteq_length, NoDup_submseteq. }
  split; [done|]. unfold total_proposals.
  etrans; [apply (sum_lengths_le _ (length women_preferences))|].
  - apply Forall_forall. intros ps [[m ps'] [-> Hin]]%list_elem_of_fmap.
    apply elem_of_map_to_list in Hin. by apply (Hhist m).
  - apply Nat.mul_le_mono_r. rewrite length_fmap.
    rewrite <- (length_fmap fst (map_to_list _)), <- (length_fmap fst men_preferences).
    apply submseteq_length, NoDup_submseteq; [apply NoDup_fst_map_to_list|].
    intros m [[m' ps] [-> Hin]]%list_elem_of_fmap.
    apply elem_of_map_to_list in Hin.
    destruct (bounded_history _ _ Hb _ _ Hin) as (l & Hl & _).
    apply getitem_is_Some. eauto.
Qed.
End histories.

(** ** The scenario of the source file *)

Lemma complete0 : complete men0 women0.
Proof. apply (bool_decide_unpack _). vm_compute. exact I. Qed.

(** ** [stable_marriage] on permutations *)

(** C1. When every proposer's list is a permutation of the receivers and
    every receiver's list a permutation of the proposers, [stable_marriage]
    returns a matching with no blocking pair: no proposer [p] and receiver
    [r], not matched to each other, such that [p] is unmatched or ranks
    [r] before his partner and [r] is unengaged or ranks [p] before
    hers. *)
Theorem stable_marriage_stable {agent : Type} `{Countable agent}
    (men_preferences women_preferences : list (agent * list agent)) :
  complete men_preferences women_preferences →
  ∃ M, stable_marriage men_preferences women_preferences = Some (Ok M) ∧
       stable men_preferences women_preferences M.
Proof.
  intros Hwf.
  destruct (run_keeps _ _ Hwf (λ _, True)) as (c & Hrun & _ & Hs & Hc & _ & Hcur & Hq);
    [done..|].
  exists (engaged c). unfold stable_marriage.
  rewrite matching_function_run by apply by_rank_reorders. rewrite Hrun. split; [done|].
  by apply finished_stable.
Qed.

Lemma stable_marriage_stable_witness :
  complete men0 women0 ∧
  ∃ M, stable_marriage men0 women0 = Some (Ok M) ∧ stable men0 women0 M.
Proof.
  split; [exact complete0|].
  exact (stable_marriage_stable men0 women0 complete0).
Defined.

(** C2. On such input the returned matching is proposer-optimal: against
    any stable matching [M'] of the same preference orders, every proposer
    ranks his partner in the result no later than his partner in [M']. *)
Theorem stable_marriage_proposer_optimal {agent : Type} `{Countable agent}
    (men_preferences women_preferences : list (agent * list agent)) :
  complete men_preferences women_preferences →
  ∃ M, stable_marriage men_preferences women_preferences = Some (Ok M) ∧
    ∀ M', matching men_preferences women_preferences M' →
          stable men_preferences women_preferences M' →
          dominates men_preferences M M'.
Proof.
  intros Hwf.
  destruct (run_keeps _ _ Hwf
    (λ c, ∀ M', matching men_preferences women_preferences M' →
                stable men_preferences women_preferences M' →
                achievable M' c))
    as (c & Hrun & _ & Hs & Hc & Ha & Hcur & Hq).
  - intros M' _ _. apply achievable_initial.
  - intros c c' Hs Hc Ha Hmv M' HM Hst.
    eapply achievable_moves; [done..|by apply Ha|done].
  - exists (engaged c). unfold stable_marriage.
  rewrite matching_function_run by apply by_rank_reorders. rewrite Hrun. split; [done|].
    intros M' HM Hst p r' Hr'.
    destruct (finished_optimal _ _ Hwf M' c HM Hs Hc (Ha M' HM Hst) Hcur Hq p r' Hr')
      as (r & l & i & j & ? & ? & ? & ? & ?).
    exists r, l. split_and!; [done..|]. by exists i, j.
Qed.

Lemma stable_marriage_proposer_optimal_witness :
  complete men0 women0 ∧
  ∃ M, stable_marriage men0 women0 = Some (Ok M) ∧
    ∀ M', matching men0 women0 M' → stable men0 women0 M' → dominates men0 M M'.
Proof.
  split; [exact complete0|].
  exact (stable_marriage_proposer_optimal men0 women0 complete0).
Defined.

(** C3. On such input the call returns: the loops end within the fuel
    [enough], and so do the single steps, with that fuel or more. In every
    store the run passes through, the last one included, no history names
    a receiver twice, so none holds more than |R| receivers, and the
    histories together hold at most |P| × |R| proposals. *)
Theorem stable_marriage_proposals_bounded {agent : Type} `{Countable agent}
    (men_preferences women_preferences : list (agent * list agent)) :
  complete men_preferences women_preferences →
  ∃ c, stable_marriage men_preferences women_preferences = Some (Ok (engaged c)) ∧
       (∀ fuel, enough men_preferences ≤ fuel →
          exec (by_rank women_preferences) men_preferences fuel
               (initial men_preferences) = Finished c) ∧
       within_bound men_preferences women_preferences c ∧
       ∀ c', reachable (by_rank women_preferences) men_preferences c' →
             within_bound men_preferences women_preferences c'.
Proof.
  intros Hwf.
  destruct (run_keeps _ _ Hwf (λ _, True)) as (c & Hrun & Hreach & _); [done..|].
  assert (∀ c', reachable (by_rank women_preferences) men_preferences c' →
                within_bound men_preferences women_preferences c') as Hall.
  { intros c' Hc'. apply bounded_within; [done|].
    eapply bounded_reachable; [apply by_rank_reorders|done]. }
  exists c. split_and!; [| |by apply Hall|done].
  - unfold stable_marriage.
    rewrite matching_function_run by apply by_rank_reorders. by rewrite Hrun.
  - intros fuel Hfuel. rewrite <- Hrun.
    apply run_stable; [apply by_rank_reorders|done].
Qed.

Lemma stable_marriage_proposals_bounded_witness :
  complete men0 women0 ∧
  ∃ c, stable_marriage men0 women0 = Some (Ok (engaged c)) ∧
       (∀ fuel, enough men0 ≤ fuel →
          exec (by_rank women0) men0 fuel (initial men0) = Finished c) ∧
       within_bound men0 women0 c ∧
       ∀ c', reachable (by_rank women0) men0 c' → within_bound men0 women0 c'.
Proof.
  split; [exact complete0|].
  exact (stable_marriage_proposals_bounded men0 women0 complete0).
Defined.

Lemma after_first_proposal_reachable :
  reachable (by_rank women0) men0 after_first_proposal.
Proof.
  eapply reachable_step; [eapply reachable_step; [apply reachable_initial|]|];
    by vm_compute.
Qed.

(** C4. In every store a run of [stable_marriage] passes through, after
    each step, [engaged] maps a receiver to one proposer and no proposer
    is the value of two receivers. *)
Theorem engaged_injective {agent : Type} `{Countable agent}
    (men_preferences women_preferences : list (agent * list agent))
    (c : config agent) :
  NoDup men_preferences.*1 →
  reachable (by_rank women_preferences) men_preferences c →
  injective (engaged c).
Proof.
  intros Hnd Hc. split; [congruence|].
  intros r r' p. apply (sound_injective men_preferences c).
  by eapply sound_reachable.
Qed.

Lemma engaged_injective_witness :
  NoDup men0.*1 ∧ reachable (by_rank women0) men0 after_first_proposal ∧
  injective (engaged after_first_proposal).
Proof.
  assert (NoDup men0.*1) as Hnd by (apply (bool_decide_unpack _); vm_compute; exact I).
  split_and!; [exact Hnd|exact after_first_proposal_reachable|].
  exact (engaged_injective men0 women0 after_first_proposal Hnd
           after_first_proposal_reachable).
Defined.

(** ** The stability verifier *)

Section verifier.
Context {agent : Type} `{Countable agent}.
Context (men_preferences women_preferences : list (agent * list agent)).

Lemma blocking_pairs_spec M p r :
  (p, r) ∈ blocking_pairs men_preferences women_preferences M ↔
  blocking men_preferences women_preferences M p r.
Proof.
  unfold blocking_pairs. rewrite list_elem_of_filter, list_elem_of_cprod. simpl.
  split; [by intros [? _]|]. intros Hb. split; [done|].
  destruct Hb as (? & ? & _). done.
Qed.

Lemma blocking_pairs_nil M :
  blocking_pairs men_preferences women_preferences M = [] ↔
  stable men_preferences women_preferences M.
Proof.
  split.
  - intros Hnil p r Hb%blocking_pairs_spec. rewrite Hnil in Hb. by apply elem_of_nil in Hb.
  - intros Hst. apply elem_of_nil_inv. intros [p r] Hb%blocking_pairs_spec.
    by apply (Hst p r).
Qed.
End verifier.

(** C5. On the scenario of the source file [stable_marriage] returns the
    dict {X: A, Y: B, Z: C}, and the scan over all pairs finds no blocking
    pair in it. *)
Theorem scenario_result :
  stable_marriage men0 women0 = Some (Ok matching0) ∧
  blocking_pairs men0 women0 matching0 = [] ∧
  stable men0 women0 matching0.
Proof.
  assert (blocking_pairs men0 women0 matching0 = []) as Hnone by by vm_compute.
  split_and!; [by vm_compute|done|by apply blocking_pairs_nil].
Qed.

(** C10. None of the four score-based variants reads [women_preferences]:
    two calls that differ only in that argument give the same answer. *)
Theorem score_variants_ignore_women_preferences {agent : Type} `{Countable agent}
    (men_preferences women_preferences women_preferences' : list (agent * list agent))
    (trust_scores honor_weights emotional_scores care_thresholds
      : gmap (agent * agent) float) :
  trust_based_stable_marriage men_preferences women_preferences trust_scores =
    trust_based_stable_marriage men_preferences women_preferences' trust_scores ∧
  honor_based_matching men_preferences women_preferences honor_weights =
    honor_based_matching men_preferences women_preferences' honor_weights ∧
  emotional_compatibility_matching men_preferences women_preferences emotional_scores =
    emotional_compatibility_matching men_preferences women_preferences' emotional_scores ∧
  holistic_matching men_preferences women_preferences
      trust_scores honor_weights emotional_scores care_thresholds =
    holistic_matching men_preferences women_preferences'
      trust_scores honor_weights emotional_scores care_thresholds.
Proof. by split_and!. Qed.

(** ** The reporters *)

Section reporters.
Context {agent : Type} `{Countable agent}.
Context (men_prefs women_prefs : list (agent * list agent)).

Lemma index_front (l : list agent) x : index l x = Some 0 ↔ head l = Some x.
Proof.
  destruct l as [|y l]; simpl; [done|]. case_decide; simplify_eq.
  - done.
  - destruct (index l x); simpl; split; intros [=]; by simplify_eq.
Qed.

Lemma happiness_score_raise x (match_ : list (agent * agent)) :
  foldl (λ score '(woman, man),
           s ← score;
           l ← subscript (getitem men_prefs man);
           i ← list_index l woman;
           l' ← subscript (getitem women_prefs woman);
           j ← list_index l' man;
           Ok (s + (i + j)))
        (Raise x) match_ = Raise x.
Proof. induction match_ as [|[w m] mt IH]; [done|]. simpl. apply IH. Qed.

Lemma happiness_score_from n (match_ : list (agent * agent)) :
  foldl (λ score '(woman, man),
           s ← score;
           l ← subscript (getitem men_prefs man);
           i ← list_index l woman;
           l' ← subscript (getitem women_prefs woman);
           j ← list_index l' man;
           Ok (s + (i + j)))
        (Ok n) match_ =
  (s ← rank_sum men_prefs women_prefs match_; Ok (n + s)).
Proof.
  revert n. induction match_ as [|[w m] mt IH]; intros n.
  - simpl. f_equal. lia.
  - assert (rank_sum men_prefs women_prefs ((w, m) :: mt) =
            (ij ← pair_ranks men_prefs women_prefs w m;
             s ← rank_sum men_prefs women_prefs mt;
             Ok (ij.1 + ij.2 + s))) as ->.
    { unfold rank_sum. simpl. destruct (pair_ranks men_prefs women_prefs w m); simpl; [|done].
      by destruct (mapM _ mt). }
    simpl. unfold pair_ranks.
    destruct (getitem men_prefs m) as [l|]; simpl; [|apply happiness_score_raise].
    destruct (list_index l w) as [i|]; simpl; [|apply happiness_score_raise].
    destruct (getitem women_prefs w) as [l'|]; simpl; [|apply happiness_score_raise].
    destruct (list_index l' m) as [j|]; simpl; [|apply happiness_score_raise].
    rewrite IH. destruct (rank_sum men_prefs women_prefs mt); simpl; [|done]. f_equal. lia.
Qed.

#[local] Abbreviation track_body :=
  (λ (satisfaction : result (gmap (agent * agent) (nat * nat)))
     '((woman, man) : agent * agent),
     s ← satisfaction;
     l ← subscript (getitem men_prefs man);
     man_satisfaction ← list_index l woman;
     l' ← subscript (getitem women_prefs woman);
     woman_satisfaction ← list_index l' man;
     Ok (<[(man, woman) := (man_satisfaction, woman_satisfaction)]> s)).

Lemma track_satisfaction_raise x (matches : list (agent * agent)) :
  foldl track_body (Raise x) matches = Raise x.
Proof. induction matches as [|[w m] mt IH]; [done|]. simpl. apply IH. Qed.

Lemma track_satisfaction_from S0 (matches : list (agent * agent)) S :
  foldl track_body (Ok S0) matches = Ok S →
  ∀ m w ij, S !! (m, w) = Some ij ↔
    ((w, m) ∈ matches ∧ pair_ranks men_prefs women_prefs w m = Ok ij) ∨
    (¬ (w, m) ∈ matches ∧ S0 !! (m, w) = Some ij).
Proof.
  revert S0. induction matches as [|[w0 m0] mt IH]; intros S0.
  - intros [= ->] m w ij. split.
    + intros HS. right. split; [apply not_elem_of_nil|done].
    + by intros [[?%elem_of_nil _]|[_ ?]].
  - simpl. destruct (pair_ranks men_prefs women_prefs w0 m0) as [[i j]|x] eqn:Hij;
      unfold pair_ranks in Hij.
    + assert (track_body (Ok S0) (w0, m0) = Ok (<[(m0, w0) := (i, j)]> S0)) as Hstep.
      { simpl. destruct (getitem men_prefs m0) as [l|]; simpl in *; [|done].
        destruct (list_index l w0) as [i'|]; simpl in *; [|done].
        destruct (getitem women_prefs w0) as [l'|]; simpl in *; [|done].
        destruct (list_index l' m0) as [j'|]; simpl in *; [|done].
        by simplify_eq. }
      simpl in Hstep. rewrite Hstep. intros HS m w ij.
      rewrite (IH _ HS m w ij), elem_of_cons.
      fold (pair_ranks men_prefs women_prefs w0 m0) in Hij.
      destruct (decide ((w, m) ∈ mt)) as [Hin|Hnot]; [tauto|].
      destruct (decide ((m0, w0) = (m, w))) as [[= -> ->]|Hne].
      * rewrite lookup_insert_eq, Hij. split.
        -- intros [[? _]|[_ [= <-]]]; [done|]. left. split; [by left|done].
        -- intros [[_ [= <-]]|[Hn _]]; [by right|]. destruct Hn. by left.
      * rewrite lookup_insert_ne by done.
        assert ((w, m) ≠ (w0, m0)) by congruence. tauto.
    + assert (track_body (Ok S0) (w0, m0) = Raise x) as Hstep.
      { simpl. destruct (getitem men_prefs m0) as [l|]; simpl in *; [|congruence].
        destruct (list_index l w0) as [i'|]; simpl in *; [|congruence].
        destruct (getitem women_prefs w0) as [l'|]; simpl in *; [|congruence].
        destruct (list_index l' m0) as [j'|]; simpl in *; congruence. }
      simpl in Hstep. rewrite Hstep. by rewrite track_satisfaction_raise.
Qed.
End reporters.


(** ** Lists that are not permutations *)

Section partial_lists.
Context {agent : Type} `{Countable agent}.
Context (men_preferences women_preferences : list (agent * list agent)).

Lemma names_known_step_safe c x c' :
  names_known men_preferences women_preferences →
  sound men_preferences c →
  bounded men_preferences c →
  step (by_rank women_preferences) men_preferences c ≠ Throw x c'.
Proof.
  intros Hk Hs Hb Hstep%step_throws.
  destruct Hstep as [man queue e p Hl|man queue e p l x Hl Hr
    |queue e p man woman rest Hp
    |queue e p man woman rest history current_man x Hp Hin He Ha].
  - assert (is_Some (getitem men_preferences man)) as [? ?]; [|congruence].
    apply getitem_is_Some, (sound_men _ _ Hs). apply elem_of_app. left. left.
  - done.
  - destruct (sound_history _ _ Hs man) as [? ?]; [|simpl in *; congruence].
    apply (sound_men _ _ Hs). apply elem_of_app. right. left.
  - destruct (bounded_cursor _ _ Hb man (woman :: rest)) as (l & Hl & Hsub & _); [done|].
    unfold names_known in Hk. rewrite Forall_forall in Hk.
    pose proof (Hk _ (getitem_elem_of _ _ _ Hl)) as Hall. simpl in Hall.
    rewrite Forall_forall in Hall.
    destruct (Hall woman) as (lw & Hlw & Hmen); [apply Hsub; left|].
    assert (man ∈ lw) as [i Hi]%index_is_Some.
    { apply Hmen, (sound_men _ _ Hs). apply elem_of_app. right. left. }
    assert (current_man ∈ lw) as [j Hj]%index_is_Some.
    { apply Hmen. by apply (sound_engaged _ _ Hs woman). }
    simpl in Ha. unfold list_index in Ha. rewrite Hlw in Ha. simpl in Ha.
    rewrite Hi in Ha. simpl in Ha. by rewrite Hj in Ha.
Qed.

Lemma names_known_returns :
  NoDup men_preferences.*1 → names_known men_preferences women_preferences →
  ∃ c, run (by_rank women_preferences) men_preferences = Finished c.
Proof.
  intros Hnd Hk.
  pose proof (exec_invariant (by_rank women_preferences) men_preferences
    (λ c, sound men_preferences c ∧ bounded men_preferences c)
    (enough men_preferences) (initial men_preferences)) as Hinv.
  pose proof (run_total (by_rank women_preferences) men_preferences
                (by_rank_reorders _)) as Htot.
  unfold run in *.
  destruct (exec _ men_preferences (enough men_preferences)
              (initial men_preferences)) as [c|x c|c].
  - by exists c.
  - destruct Hinv.
    + intros c1 c2 [? ?] Hmv. split; [by eapply sound_moves|].
      eapply bounded_moves; [apply by_rank_reorders|done..].
    + intros c1 x' c2 [? ?]. by apply names_known_step_safe.
    + split; [by apply sound_initial|apply bounded_initial].
  - by destruct (Htot c).
Qed.

End partial_lists.

(** C6, as stated, fails: with a proposer's list that omits a receiver the
    run does not raise at all; it returns a matching. *)
Lemma short_list_is_not_rejected :
  malformed men_short women0 ∧
  stable_marriage men_short women0 = Some (Ok matching0) ∧
  ¬ fails_fast (by_rank women0) men_short.
Proof.
  split_and!.
  - apply (bool_decide_unpack _). by vm_compute.
  - by vm_compute.
  - intros (x & c & Hrun & _). by vm_compute in Hrun.
Qed.


(** ** The score-based variants *)

Section scores.
Context {agent : Type} `{Countable agent}.

Lemma mapM_result_length {A B} (f : A → result B) l ks :
  mapM f l = Ok ks → length ks = length l.
Proof.
  revert ks. induction l as [|a l IH]; intros ks; simpl.
  - by intros [= <-].
  - destruct (f a) as [b|]; simpl; [|done].
    destruct (mapM f l) as [ks'|]; simpl; [|done].
    intros [= <-]. simpl. by rewrite (IH ks').
Qed.

Lemma mapM_result_raise {A B} (f : A → result B) l a e :
  a ∈ l → f a = Raise e → ∃ e', mapM f l = Raise e'.
Proof.
  intros Hin Ha. induction l as [|a' l IH]; [by apply elem_of_nil in Hin|].
  simpl. destruct (f a') as [b|e'] eqn:Ha'; simpl; [|eauto].
  apply elem_of_cons in Hin as [->|Hin]; [congruence|].
  destruct (IH Hin) as [e' ->]. simpl. eauto.
Qed.

Lemma mapM_result_raise_inv {A B} (f : A → result B) l e :
  mapM f l = Raise e → ∃ a, a ∈ l ∧ f a = Raise e.
Proof.
  induction l as [|a l IH]; simpl; [done|].
  destruct (f a) as [b|e'] eqn:Ha; simpl.
  - destruct (mapM f l) as [ks|e'']; simpl; [done|].
    intros [= ->]. destruct IH as (a' & ? & ?); [done|].
    exists a'. split; [by right|done].
  - intros [= ->]. exists a. split; [left|done].
Qed.

Lemma insert_desc_perm (x : float * agent) l : insert_desc x l ≡ₚ x :: l.
Proof.
  induction l as [|y l IH]; simpl; [done|].
  destruct (PrimFloat.ltb x.1 y.1); [|done].
  rewrite IH. apply Permutation_swap.
Qed.

Lemma sorted_desc_perm (key : agent → result float) l l' :
  sorted_desc key l = Ok l' → l' ≡ₚ l.
Proof.
  unfold sorted_desc. destruct (mapM key l) as [keys|] eqn:Hkeys; simpl; [|done].
  intros [= <-]. apply mapM_result_length in Hkeys.
  rewrite <- (snd_zip keys l) at 2 by lia.
  apply fmap_Permutation. generalize (zip keys l). intros z.
  induction z as [|x z IH]; simpl; [done|]. by rewrite insert_desc_perm, IH.
Qed.

Lemma sorted_desc_raise (key : agent → result float) l w e :
  w ∈ l → key w = Raise e → ∃ e', sorted_desc key l = Raise e'.
Proof.
  intros Hw He. unfold sorted_desc.
  destruct (mapM_result_raise key l w e Hw He) as [e' ->]. simpl. eauto.
Qed.

Lemma sorted_desc_raise_inv (key : agent → result float) l e :
  sorted_desc key l = Raise e → ∃ w, w ∈ l ∧ key w = Raise e.
Proof.
  unfold sorted_desc. destruct (mapM key l) as [keys|e'] eqn:Hkeys; simpl; [done|].
  intros [= ->]. by apply mapM_result_raise_inv.
Qed.

Lemma subscript_raise {A} (o : option A) e : subscript o = Raise e → e = KeyError.
Proof. destruct o; simpl; congruence. Qed.

Lemma holistic_score_raise (trust_scores honor_weights emotional_scores
    : gmap (agent * agent) float) man woman e :
  holistic_score trust_scores honor_weights emotional_scores man woman = Raise e →
  e = KeyError.
Proof.
  unfold holistic_score.
  destruct (trust_scores !! (man, woman)); simpl; [|congruence].
  destruct (honor_weights !! (man, woman)); simpl; [|congruence].
  destruct (emotional_scores !! (man, woman)); simpl; congruence.
Qed.


Lemma by_care_raise (care_thresholds : gmap (agent * agent) float)
    woman man current_man e :
  by_care care_thresholds woman man current_man = Raise e → e = KeyError.
Proof.
  unfold by_care.
  destruct (care_thresholds !! (woman, man)); simpl; [|congruence].
  destruct (care_thresholds !! (woman, current_man)); simpl; congruence.
Qed.

Lemma by_score_key_errors (scores : gmap (agent * agent) float) :
  only_key_errors (by_score scores).
Proof.
  split; simpl.
  - intros man l e (w & _ & Hw)%sorted_desc_raise_inv. by apply subscript_raise in Hw.
  - intros woman man current_man e.
    destruct (scores !! (man, woman)); simpl; [|congruence].
    destruct (scores !! (current_man, woman)); simpl; congruence.
Qed.

Lemma holistic_key_errors
    (trust_scores honor_weights emotional_scores care_thresholds
      : gmap (agent * agent) float) :
  only_key_errors
    (holistic_policy trust_scores honor_weights emotional_scores care_thresholds).
Proof.
  split; simpl.
  - intros man l e (w & _ & Hw)%sorted_desc_raise_inv.
    by apply holistic_score_raise in Hw.
  - apply by_care_raise.
Qed.

Lemma by_score_reorders (scores : gmap (agent * agent) float) :
  reorders (by_score scores).
Proof. intros man l women. apply sorted_desc_perm. Qed.

Lemma holistic_reorders
    (trust_scores honor_weights emotional_scores care_thresholds
      : gmap (agent * agent) float) :
  reorders
    (holistic_policy trust_scores honor_weights emotional_scores care_thresholds).
Proof. intros man l women. apply sorted_desc_perm. Qed.

Lemma run_failed_key_error pol (men_preferences : list (agent * list agent)) x c :
  only_key_errors pol → run pol men_preferences = Failed x c → x = KeyError.
Proof.
  intros [Hrank Hacc] (c0 & _ & Hthrow)%exec_failed; [|apply reachable_initial].
  destruct Hthrow; eauto.
Qed.


(** Every variant answers on every input: the fuel of [run] suffices. *)
Lemma variants_answer (men_preferences women_preferences : list (agent * list agent))
    (trust_scores honor_weights emotional_scores care_thresholds
      : gmap (agent * agent) float) :
  is_Some (stable_marriage men_preferences women_preferences) ∧
  is_Some (trust_based_stable_marriage men_preferences women_preferences trust_scores) ∧
  is_Some (honor_based_matching men_preferences women_preferences honor_weights) ∧
  is_Some (reasonable_care_matching men_preferences women_preferences care_thresholds) ∧
  is_Some (emotional_compatibility_matching men_preferences women_preferences
             emotional_scores) ∧
  is_Some (holistic_matching men_preferences women_preferences
             trust_scores honor_weights emotional_scores care_thresholds).
Proof.
  assert (∀ pol, reorders pol → is_Some (matching_function pol men_preferences))
    as Hsome.
  { intros pol Hro. rewrite matching_function_run by done.
    pose proof (run_total pol men_preferences Hro) as Htot.
    destruct (run pol men_preferences) as [c|x c|c]; simpl; [eauto..|].
    by destruct (Htot c). }
  split_and!; apply Hsome.
  - by intros man l women [= <-].
  - apply by_score_reorders.
  - apply by_score_reorders.
  - by intros man l women [= <-].
  - apply by_score_reorders.
  - apply holistic_reorders.
Qed.
End scores.




(** ** Sides of unequal size *)

Section unequal.
Context {agent : Type} `{Countable agent}.
Context (men_preferences women_preferences : list (agent * list agent)).

Hypothesis Hwf : complete men_preferences women_preferences.

Lemma finished_size c :
  sound men_preferences c → orderly men_preferences women_preferences c →
  cursor c = None → free_men c = [] →
  size (engaged c) = length men_preferences `min` length women_preferences ∧
  length (unmatched men_preferences (engaged c)) = length men_preferences - size (engaged c).
Proof.
  intros Hs Hc Hcur Hq.
  pose proof (finished_matching _ _ Hwf c Hs Hc) as [Hsides Hinj].
  set (M := engaged c) in *.
  pose proof (NoDup_fst_map_to_list M) as Hkeys.
  assert (NoDup (map_to_list M).*2) as Hvals.
  { apply NoDup_fmap_2_strong; [|apply NoDup_map_to_list].
    intros [r p] [r' p'] Hin Hin' Heq. simpl in Heq. subst p'.
    apply elem_of_map_to_list in Hin, Hin'. by rewrite (Hinj r r' p). }
  assert (∀ p, p ∈ (map_to_list M).*2 ↔ ∃ r, M !! r = Some p) as Hval.
  { intros p. rewrite list_elem_of_fmap. split.
    - intros ([r p'] & -> & Hin). exists r. by apply elem_of_map_to_list.
    - intros [r Hr]. exists (r, p). split; [done|]. by apply elem_of_map_to_list. }
  assert (∀ r, r ∈ (map_to_list M).*1 ↔ is_Some (M !! r)) as Hkey.
  { intros r. rewrite list_elem_of_fmap. split.
    - intros ([r' p] & -> & Hin). exists p. by apply elem_of_map_to_list.
    - intros [p Hr]. exists (r, p). split; [done|]. by apply elem_of_map_to_list. }
  assert (size M ≤ length women_preferences) as HleR.
  { rewrite <- length_map_to_list, <- (length_fmap fst (map_to_list M)),
      <- (length_fmap fst women_preferences).
    apply submseteq_length, NoDup_submseteq; [done|].
    intros r [p Hr]%Hkey. by apply (Hsides r p). }
  assert (size M ≤ length men_preferences) as HleP.
  { rewrite <- length_map_to_list, <- (length_fmap snd (map_to_list M)),
      <- (length_fmap fst men_preferences).
    apply submseteq_length, NoDup_submseteq; [done|].
    intros p [r Hr]%Hval. by apply (Hsides r p). }
  assert (length (unmatched men_preferences M) = length men_preferences - size M) as Hun.
  { unfold unmatched.
    pose proof (filter_app_complement (single M) men_preferences.*1) as Hperm.
    apply Permutation_length in Hperm. rewrite length_app, length_fmap in Hperm.
    assert (filter (λ p, ¬ single M p) men_preferences.*1 ≡ₚ (map_to_list M).*2) as Hrest.
    { apply NoDup_Permutation; [apply NoDup_filter, (men_distinct _ _ Hwf)|done|].
      intros p. rewrite list_elem_of_filter, Hval. split.
      - intros [Hns _]. destruct (partner_or_single M p) as [?|Hsingle]; [done|].
        by destruct Hns.
      - intros [r Hr]. split; [|by apply (Hsides r p)]. intros Hsingle.
        by apply (Hsingle r). }
    apply Permutation_length in Hrest.
    rewrite length_fmap, length_map_to_list in Hrest. lia. }
  split; [|done].
  destruct (decide (Exists (single M) men_preferences.*1)) as [Hex|Hall].
  - apply Exists_exists in Hex as (m & Hm & Hsingle).
    apply getitem_is_Some in Hm as [l Hl].
    assert (length women_preferences ≤ size M); [|lia].
    rewrite <- length_map_to_list, <- (length_fmap fst (map_to_list M)),
      <- (length_fmap fst women_preferences).
    apply submseteq_length, NoDup_submseteq; [apply (women_distinct _ _ Hwf)|].
    intros w Hw. apply Hkey.
    destruct (orderly_men _ _ _ Hc m l Hl) as [Hwait|[[w' Hw']|Hex]].
    + unfold waiting, active in Hwait. rewrite Hcur, Hq in Hwait.
      by apply elem_of_nil in Hwait.
    + by destruct (Hsingle w').
    + destruct (orderly_women _ _ _ Hc m l w Hex) as (m' & _ & _ & _ & Hm' & _).
      { by apply (men_list _ _ Hwf _ _ Hl). }
      by exists m'.
  - assert (length men_preferences ≤ size M); [|lia].
    rewrite <- length_map_to_list, <- (length_fmap snd (map_to_list M)),
      <- (length_fmap fst men_preferences).
    apply submseteq_length, NoDup_submseteq; [apply (men_distinct _ _ Hwf)|].
    intros p Hp. apply Hval.
    destruct (partner_or_single M p) as [?|Hsingle]; [done|].
    destruct Hall. apply Exists_exists. by exists p.
Qed.
End unequal.

(** C8, as stated, fails in one part: no set of unmatched agents is
    returned. On three proposers and two receivers the call returns the
    dict {X: A, Y: B} and nothing else; C, who stays without a partner,
    occurs nowhere in what is returned. *)
Lemma unmatched_set_is_not_returned :
  complete men3 women2 ∧
  stable_marriage men3 women2 = Some (Ok matching2) ∧
  unmatched men3 matching2 = ["C"] ∧
  ¬ reports_unmatched men3 matching2.
Proof.
  assert (unmatched men3 matching2 = ["C"]) as Hun by by vm_compute.
  split_and!.
  - apply (bool_decide_unpack _). by vm_compute.
  - by vm_compute.
  - done.
  - unfold reports_unmatched. rewrite Hun, Forall_singleton.
    intros [[? Hkey]|[r Hr]]; [by vm_compute in Hkey|].
    assert (single matching2 "C") as Hsingle
      by (apply (bool_decide_unpack _); by vm_compute).
    by apply (Hsingle r).
Qed.

(** C8, amended. With full lists on both sides, whatever the sizes, the
    call raises nothing and returns the matching alone, a dict with
    min(|P|, |R|) entries; the proposers without a partner are not
    returned: they are the |P| - min(|P|, |R|) keys of [men_preferences]
    that are no value of the dict. With three proposers and two receivers
    the dict has two entries and one proposer is left out. *)
Theorem unequal_sides_partial_matching {agent : Type} `{Countable agent}
    (men_preferences women_preferences : list (agent * list agent)) :
  complete men_preferences women_preferences →
  ∃ M, stable_marriage men_preferences women_preferences = Some (Ok M) ∧
    size M = length men_preferences `min` length women_preferences ∧
    length (unmatched men_preferences M) =
      length men_preferences - length men_preferences `min` length women_preferences ∧
    (length men_preferences = 3 → length women_preferences = 2 →
       size M = 2 ∧ length (unmatched men_preferences M) = 1).
Proof.
  intros Hwf.
  destruct (run_keeps _ _ Hwf (λ _, True)) as (c & Hrun & _ & Hs & Hc & _ & Hcur & Hq);
    [done..|].
  destruct (finished_size _ _ Hwf c Hs Hc Hcur Hq) as [Hsize Hun].
  exists (engaged c). unfold stable_marriage.
  rewrite matching_function_run by apply by_rank_reorders. rewrite Hrun.
  split_and!; [done|done|lia|lia].
Qed.

Lemma unequal_sides_partial_matching_witness :
  complete men3 women2 ∧
  ∃ M, stable_marriage men3 women2 = Some (Ok M) ∧
    size M = length men3 `min` length women2 ∧
    length (unmatched men3 M) = length men3 - length men3 `min` length women2 ∧
    (length men3 = 3 → length women2 = 2 →
       size M = 2 ∧ length (unmatched men3 M) = 1).
Proof.
  assert (complete men3 women2) as Hwf
    by (apply (bool_decide_unpack _); vm_compute; exact I).
  split; [exact Hwf|].
  exact (unequal_sides_partial_matching men3 women2 Hwf).
Defined.

(** * Further properties *)


(** ** All six functions *)

Section all_variants.
Context {agent : Type} `{Countable agent}.
Context (men_preferences women_preferences : list (agent * list agent)).
Context (trust_scores honor_weights emotional_scores care_thresholds
  : gmap (agent * agent) float).

#[local] Abbreviation six :=
  (variants women_preferences trust_scores honor_weights emotional_scores
            care_thresholds).

Lemma care_reorders :
  reorders {| ranking := λ (man : agent) (man_pref_list : list agent), Ok man_pref_list;
              accepts := by_care care_thresholds |}.
Proof. by intros man l women [= <-]. Qed.

Lemma care_key_errors :
  only_key_errors {| ranking := λ (man : agent) (man_pref_list : list agent),
                                  Ok man_pref_list;
                     accepts := by_care care_thresholds |}.
Proof. split; simpl; [done|apply by_care_raise]. Qed.

Lemma variants_reorder pol : pol ∈ six → reorders pol.
Proof.
  unfold variants. rewrite !elem_of_cons, elem_of_nil.
  intros [->|[->|[->|[->|[->|[->|[]]]]]]].
  - apply by_rank_reorders.
  - apply by_score_reorders.
  - apply by_score_reorders.
  - apply care_reorders.
  - apply by_score_reorders.
  - apply holistic_reorders.
Qed.

Lemma while_loop_more pol fuel fuel' c r :
  while_loop pol men_preferences fuel c = Some r → fuel ≤ fuel' →
  while_loop pol men_preferences fuel' c = Some r.
Proof.
  revert fuel' c. induction fuel as [|fuel IH]; intros fuel' c; simpl; [done|].
  intros Hr Hle. destruct fuel' as [|fuel']; [lia|]. simpl.
  destruct (free_men c) as [|man rest]; [done|].
  destruct (_ ≫= _) as [c2|x]; [|done].
  apply IH; [done|lia].
Qed.

Lemma finished_reachable pol M :
  reorders pol →
  matching_function pol men_preferences = Some (Ok M) →
  ∃ c, reachable pol men_preferences c ∧ cursor c = None ∧ free_men c = [] ∧
       engaged c = M.
Proof.
  intros Hro. rewrite matching_function_run by done.
  pose proof (exec_reachable pol men_preferences (enough men_preferences)
    (initial men_preferences) (reachable_initial pol men_preferences)) as Hreach.
  unfold run. destruct (exec _ _ _ _) as [c|x c|c]; simpl; [|done..].
  intros [= <-]. exists c. by destruct Hreach as (? & ? & ?).
Qed.
End all_variants.

(** X1. Each of the six matching functions ends on every input, whatever
    the dicts and the score tables: the [while] loop returns a dict or
    raises within [enough] iterations, and more iterations allowed change
    nothing of the answer. *)
Theorem matching_loops_end {agent : Type} `{Countable agent}
    (men_preferences women_preferences : list (agent * list agent))
    (trust_scores honor_weights emotional_scores care_thresholds
      : gmap (agent * agent) float)
    (pol : policy agent) (fuel : nat) :
  pol ∈ variants women_preferences trust_scores honor_weights emotional_scores
                 care_thresholds →
  enough men_preferences ≤ fuel →
  ∃ r, matching_function pol men_preferences = Some r ∧
       while_loop pol men_preferences fuel (initial men_preferences) = Some r.
Proof.
  intros Hpol%variants_reorder Hfuel.
  destruct (while_loop_total pol men_preferences (enough men_preferences)
              (initial men_preferences) Hpol) as [r Hr];
    [apply bounded_initial|done|apply measure_initial|].
  exists r. split; [done|]. by eapply while_loop_more.
Qed.

Lemma matching_loops_end_witness :
  by_score trust0 ∈ variants women0 trust0 honor0 emotional0 care0 ∧
  enough men0 ≤ 100 ∧
  ∃ r, matching_function (by_score trust0) men0 = Some r ∧
       while_loop (by_score trust0) men0 100 (initial men0) = Some r.
Proof.
  assert (by_score trust0 ∈ variants women0 trust0 honor0 emotional0 care0) as Hpol
    by (right; left).
  assert (enough men0 ≤ 100) as Hfuel by (vm_compute; lia).
  split_and!; [exact Hpol|exact Hfuel|].
  exact (matching_loops_end men0 women0 trust0 honor0 emotional0 care0
           (by_score trust0) 100 Hpol Hfuel).
Defined.

(** X2. Whatever the preference lists and the tables, the dict any of the
    six functions returns maps a receiver to one proposer, names no
    proposer twice, and pairs every receiver with a key of
    [men_preferences] whose own list holds her. *)
Theorem returned_dict_shape {agent : Type} `{Countable agent}
    (men_preferences women_preferences : list (agent * list agent))
    (trust_scores honor_weights emotional_scores care_thresholds
      : gmap (agent * agent) float)
    (pol : policy agent) (M : gmap agent agent) :
  pol ∈ variants women_preferences trust_scores honor_weights emotional_scores
                 care_thresholds →
  NoDup men_preferences.*1 →
  matching_function pol men_preferences = Some (Ok M) →
  injective M ∧ pairs_from men_preferences M.
Proof.
  intros Hpol%variants_reorder Hnd (c & Hc & _ & _ & <-)%finished_reachable; [|done].
  pose proof (sound_reachable _ _ _ Hnd Hc) as Hs.
  pose proof (bounded_reachable _ _ _ Hpol Hc) as Hb.
  split; [split; [congruence|]|].
  - intros r r' p. by apply (sound_injective men_preferences c).
  - intros w m (_ & _ & ps & Hps & Hlast)%(sound_engaged _ _ Hs).
    destruct (bounded_history _ _ Hb _ _ Hps) as (l & Hl & _ & Hsub).
    exists l. split; [done|]. apply Hsub.
    apply last_Some in Hlast as [ps' ->]. apply elem_of_app. right. left.
Qed.

Lemma returned_dict_shape_witness :
  holistic_policy trust0 honor0 emotional0 care0
    ∈ variants women0 trust0 honor0 emotional0 care0 ∧
  NoDup men0.*1 ∧
  matching_function (holistic_policy trust0 honor0 emotional0 care0) men0
    = Some (Ok {[ "X" := "B"; "Y" := "A"; "Z" := "C" ]}) ∧
  injective ({[ "X" := "B"; "Y" := "A"; "Z" := "C" ]} : gmap string string) ∧
  pairs_from men0 ({[ "X" := "B"; "Y" := "A"; "Z" := "C" ]} : gmap string string).
Proof.
  assert (holistic_policy trust0 honor0 emotional0 care0
            ∈ variants women0 trust0 honor0 emotional0 care0) as Hpol
    by (do 5 right; left).
  assert (NoDup men0.*1) as Hnd by (apply (bool_decide_unpack _); vm_compute; exact I).
  assert (matching_function (holistic_policy trust0 honor0 emotional0 care0) men0
            = Some (Ok {[ "X" := "B"; "Y" := "A"; "Z" := "C" ]})) as Hrun
    by (vm_compute; reflexivity).
  split_and!; [exact Hpol|exact Hnd|exact Hrun| |];
    apply (returned_dict_shape men0 women0 trust0 honor0 emotional0 care0 _ _
             Hpol Hnd Hrun).
Defined.

(** X3. In no store that a run of any of the six functions passes through
    has a proposer proposed twice to the same receiver, or to a receiver
    who is not on his list: every history is duplicate-free, within the
    proposer's list and no longer than it, whatever the input. *)
Theorem no_proposal_twice {agent : Type} `{Countable agent}
    (men_preferences women_preferences : list (agent * list agent))
    (trust_scores honor_weights emotional_scores care_thresholds
      : gmap (agent * agent) float)
    (pol : policy agent) (c : config agent) (m : agent) (ps : list agent) :
  pol ∈ variants women_preferences trust_scores honor_weights emotional_scores
                 care_thresholds →
  reachable pol men_preferences c →
  proposals c !! m = Some ps →
  NoDup ps ∧
  ∃ l, getitem men_preferences m = Some l ∧ ps ⊆ l ∧ length ps ≤ length l.
Proof.
  intros Hpol%variants_reorder Hc Hps.
  pose proof (bounded_reachable _ _ _ Hpol Hc) as Hb.
  destruct (bounded_history _ _ Hb _ _ Hps) as (l & Hl & Hnd & Hsub).
  split; [done|]. exists l. split_and!; [done..|].
  by eapply bounded_length.
Qed.

Lemma no_proposal_twice_witness :
  by_score trust0 ∈ variants women0 trust0 honor0 emotional0 care0 ∧
  reachable (by_score trust0) men0 after_first_proposal ∧
  proposals after_first_proposal !! "A" = Some ["X"] ∧
  NoDup ["X"] ∧
  ∃ l, getitem men0 "A" = Some l ∧ ["X"] ⊆ l ∧ length ["X"] ≤ length l.
Proof.
  assert (by_score trust0 ∈ variants women0 trust0 honor0 emotional0 care0) as Hpol
    by (right; left).
  assert (reachable (by_score trust0) men0 after_first_proposal) as Hc.
  { eapply reachable_step; [eapply reachable_step; [apply reachable_initial|]|];
      vm_compute; reflexivity. }
  assert (proposals after_first_proposal !! "A" = Some ["X"]) as Hps
    by (vm_compute; reflexivity).
  split_and!; [exact Hpol|exact Hc|exact Hps| |];
    apply (no_proposal_twice men0 women0 trust0 honor0 emotional0 care0 _ _ _ _
             Hpol Hc Hps).
Defined.

(** X4. The five score-based functions raise nothing but KeyError, the
    exception of a missing table entry or of a missing key of
    [men_preferences]: they call no [list.index] and never subscript
    [women_preferences], so they raise no ValueError whatever that
    argument is. *)
Theorem score_variants_raise_key_error_only {agent : Type} `{Countable agent}
    (men_preferences women_preferences : list (agent * list agent))
    (trust_scores honor_weights emotional_scores care_thresholds
      : gmap (agent * agent) float) :
  trust_based_stable_marriage men_preferences women_preferences trust_scores
    ≠ Some (Raise ValueError) ∧
  honor_based_matching men_preferences women_preferences honor_weights
    ≠ Some (Raise ValueError) ∧
  reasonable_care_matching men_preferences women_preferences care_thresholds
    ≠ Some (Raise ValueError) ∧
  emotional_compatibility_matching men_preferences women_preferences emotional_scores
    ≠ Some (Raise ValueError) ∧
  holistic_matching men_preferences women_preferences
    trust_scores honor_weights emotional_scores care_thresholds
    ≠ Some (Raise ValueError).
Proof.
  assert (∀ pol, reorders pol → only_key_errors pol →
            matching_function pol men_preferences ≠ Some (Raise ValueError)) as Hall.
  { intros pol Hro Hkey. rewrite matching_function_run by done.
    destruct (run pol men_preferences) as [c|x c|c] eqn:Hrun; simpl; [done| |done].
    by rewrite (run_failed_key_error _ _ _ _ Hkey Hrun). }
  split_and!; apply Hall.
  - apply by_score_reorders.
  - apply by_score_key_errors.
  - apply by_score_reorders.
  - apply by_score_key_errors.
  - apply care_reorders.
  - apply care_key_errors.
  - apply by_score_reorders.
  - apply by_score_key_errors.
  - apply holistic_reorders.
  - apply holistic_key_errors.
Qed.

(** ** What the loop never undoes *)

Section growth.
Context {agent : Type} `{Countable agent}.
Context (pol : policy agent) (men_preferences : list (agent * list agent)).

#[local] Abbreviation next := (step pol men_preferences).

Lemma moves_grow c c' :
  moves pol men_preferences c c' →
  (∀ w, is_Some (engaged c !! w) → is_Some (engaged c' !! w)) ∧
  (∀ m ps, proposals c !! m = Some ps →
     ∃ ps', proposals c' !! m = Some ps' ∧ ps `prefix_of` ps').
Proof.
  assert (∀ (p : gmap agent (list agent)) man history woman m ps,
            p !! man = Some history → p !! m = Some ps →
            ∃ ps', <[man := history ++ [woman]]> p !! m = Some ps' ∧
                   ps `prefix_of` ps') as Hp.
  { intros p man history woman m ps Hh Hps. destruct (decide (man = m)) as [->|Hne].
    - rewrite lookup_insert_eq. simplify_eq. eexists. split; [done|].
      by apply prefix_app_r.
    - rewrite lookup_insert_ne by done. eauto. }
  assert (∀ (e : gmap agent agent) woman man w,
            is_Some (e !! w) → is_Some (<[woman := man]> e !! w)) as He.
  { intros e woman man w Hw. destruct (decide (woman = w)) as [->|Hne].
    - by rewrite lookup_insert_eq.
    - by rewrite lookup_insert_ne. }
  destruct 1; simpl; split; eauto.
Qed.

Lemma steps_to_moves c c' :
  steps_to pol men_preferences c c' ↔ rtc (moves pol men_preferences) c c'.
Proof.
  unfold steps_to. split; intros Hrtc; induction Hrtc; try done;
    (eapply rtc_l; [|done]); [by apply step_moves|by apply moves_step].
Qed.
End growth.

(** X5. Along a run of any of the six functions, and of the same loop with
    any ordering and any acceptance test, nothing is undone: a receiver
    who is engaged stays engaged (to someone), and a proposer's history
    only grows at its end. *)
Theorem store_only_grows {agent : Type} `{Countable agent}
    (pol : policy agent) (men_preferences : list (agent * list agent))
    (c c' : config agent) :
  steps_to pol men_preferences c c' →
  (∀ w, is_Some (engaged c !! w) → is_Some (engaged c' !! w)) ∧
  (∀ m ps, proposals c !! m = Some ps →
     ∃ ps', proposals c' !! m = Some ps' ∧ ps `prefix_of` ps').
Proof.
  intros Hsteps%steps_to_moves. induction Hsteps as [c|c c1 c' Hmv _ [IHe IHp]].
  - split; [done|]. intros m ps Hps. by exists ps.
  - destruct (moves_grow _ _ _ _ Hmv) as [He Hp]. split.
    + intros w Hw. by apply IHe, He.
    + intros m ps (ps1 & Hps1 & Hpre)%Hp.
      destruct (IHp _ _ Hps1) as (ps' & Hps' & Hpre'). exists ps'.
      split; [done|]. by etrans.
Qed.

Lemma store_only_grows_witness :
  steps_to (by_score emotional0) men0 (initial men0) after_first_proposal ∧
  (∀ w, is_Some (engaged (initial men0) !! w) →
        is_Some (engaged after_first_proposal !! w)) ∧
  (∀ m ps, proposals (initial men0) !! m = Some ps →
     ∃ ps', proposals after_first_proposal !! m = Some ps' ∧ ps `prefix_of` ps').
Proof.
  assert (steps_to (by_score emotional0) men0 (initial men0) after_first_proposal)
    as Hsteps.
  { eapply rtc_l; [|eapply rtc_l; [|apply rtc_refl]]; vm_compute; reflexivity. }
  split; [exact Hsteps|].
  exact (store_only_grows (by_score emotional0) men0 _ _ Hsteps).
Defined.

Section trade_up.
Context {agent : Type} `{Countable agent}.
Context (men_preferences women_preferences : list (agent * list agent)).

Lemma prefers_trans (l : list agent) x y z :
  prefers l x y → prefers l y z → prefers l x z.
Proof.
  intros (i & j & Hi & Hj & Hij) (j' & k & Hj' & Hk & Hjk). simplify_eq.
  exists i, k. split_and!; [done..|lia].
Qed.

Lemma moves_trade_up c c' w m :
  moves (by_rank women_preferences) men_preferences c c' →
  engaged c !! w = Some m →
  ∃ m', engaged c' !! w = Some m' ∧
    (m' = m ∨ ∃ l, getitem women_preferences w = Some l ∧ prefers l m' m).
Proof.
  destruct 1 as [| | |queue e p man woman rest history Hh Hnew Hfree
                 |queue e p man woman rest history current_man Hh Hnew Hcur Hacc|];
    simpl; intros Hw; eauto.
  - exists m. split; [|by left]. rewrite lookup_insert_ne; [done|congruence].
  - destruct (decide (woman = w)) as [->|Hne].
    + rewrite lookup_insert_eq. exists man. split; [done|]. simplify_eq.
      apply by_rank_accepts in Hacc as (l & i & j & Hl & Hi & Hj & Hb).
      right. exists l. split; [done|]. exists i, j. split_and!; [done..|].
      symmetry in Hb. by apply bool_decide_eq_true in Hb.
    + rewrite lookup_insert_ne by done. eauto.
Qed.
End trade_up.

(** X6. Along a run of [stable_marriage], on any input, a receiver only
    trades up: whoever she is engaged to later is the same proposer or one
    who stands strictly before him in her own list. *)
Theorem receivers_trade_up {agent : Type} `{Countable agent}
    (men_preferences women_preferences : list (agent * list agent))
    (c c' : config agent) (w m : agent) :
  steps_to (by_rank women_preferences) men_preferences c c' →
  engaged c !! w = Some m →
  ∃ m', engaged c' !! w = Some m' ∧
    (m' = m ∨ ∃ l, getitem women_preferences w = Some l ∧ prefers l m' m).
Proof.
  intros Hsteps%steps_to_moves. revert m.
  induction Hsteps as [c|c c1 c' Hmv _ IH]; intros m Hw.
  - exists m. split; [done|by left].
  - destruct (moves_trade_up _ _ _ _ _ _ Hmv Hw) as (m1 & Hw1 & Hm1).
    destruct (IH _ Hw1) as (m' & Hw' & Hm'). exists m'. split; [done|].
    destruct Hm1 as [->|(l & Hl & Hpref)]; [done|].
    destruct Hm' as [->|(l' & Hl' & Hpref')]; [right; eauto|].
    simplify_eq. right. exists l. split; [done|]. by eapply prefers_trans.
Qed.

Lemma receivers_trade_up_witness :
  steps_to (by_rank women0) men_rivals after_rival_first after_rival_second ∧
  engaged after_rival_first !! "X" = Some "A" ∧
  ∃ m', engaged after_rival_second !! "X" = Some m' ∧
    (m' = "A" ∨ ∃ l, getitem women0 "X" = Some l ∧ prefers l m' "A").
Proof.
  assert (steps_to (by_rank women0) men_rivals after_rival_first after_rival_second)
    as Hsteps.
  { eapply rtc_l; [|eapply rtc_l; [|apply rtc_refl]]; vm_compute; reflexivity. }
  assert (engaged after_rival_first !! "X" = Some "A") as Hw by (vm_compute; reflexivity).
  split_and!; [exact Hsteps|exact Hw|].
  exact (receivers_trade_up men_rivals women0 _ _ "X" "A" Hsteps Hw).
Defined.

(** ** Proposers who do not compete *)

Section no_competition.
Context {agent : Type} `{Countable agent}.

Lemma engage_lookup (todo : list (agent * list agent)) e w m :
  NoDup (first_choices todo) →
  engage todo e !! w = Some m ↔
    (∃ l, (m, l) ∈ todo ∧ head l = Some w) ∨
    ((w ∉ first_choices todo) ∧ e !! w = Some m).
Proof.
  revert e. induction todo as [|[m0 l0] todo IH]; intros e; simpl.
  - intros _. split; [intros ?; right; split; [apply not_elem_of_nil|done]|].
    intros [(l & []%elem_of_nil & _)|[_ ?]]; done.
  - unfold first_choices. simpl. destruct (head l0) as [w0|] eqn:Hw0; simpl.
    + intros [Hw0' Hnd]%NoDup_cons. rewrite (IH _ Hnd). split.
      * intros [(l & Hin & Hl)|[Hw He]].
        { left. exists l. split; [by right|done]. }
        destruct (decide (w0 = w)) as [->|Hne].
        { rewrite lookup_insert_eq in He. simplify_eq. left. exists l0.
          split; [left|done]. }
        rewrite lookup_insert_ne in He by done. right. split; [|done].
        by intros [->|?]%elem_of_cons.
      * intros [(l & [Heq|Hin]%elem_of_cons & Hl)|[Hw He]].
        { simplify_eq. right. split; [done|]. by rewrite lookup_insert_eq. }
        { left. by exists l. }
        apply not_elem_of_cons in Hw as [Hne Hw]. right. split; [done|].
        by rewrite lookup_insert_ne.
    + intros Hnd. rewrite (IH _ Hnd). split.
      * intros [(l & Hin & Hl)|?]; [|by right]. left. exists l. split; [by right|done].
      * intros [(l & [Heq|Hin]%elem_of_cons & Hl)|?]; [|left; by exists l|by right].
        simplify_eq.
Qed.

Context (pol : policy agent) (men_preferences : list (agent * list agent)).
Hypothesis Hid : ∀ man l, ranking pol man l = Ok l.

(** The proposers of [todo], at the front of the queue, are taken one by
    one and engaged to their first choices, without a comparison. *)
Lemma while_loop_prefix (todo : list (agent * list agent)) e p queue fuel :
  (∀ ml, ml ∈ todo → getitem men_preferences ml.1 = Some ml.2) →
  NoDup todo.*1 →
  NoDup (first_choices todo) →
  (∀ w, w ∈ first_choices todo → e !! w = None) →
  (∀ m, m ∈ todo.*1 → p !! m = Some []) →
  while_loop pol men_preferences (length todo + fuel)
             (Config (todo.*1 ++ queue) e p None)
  = while_loop pol men_preferences fuel
               (Config queue (engage todo e) (record todo p) None).
Proof.
  revert e p. induction todo as [|[m0 l0] todo IH]; intros e p Hget Hmen Hfirst He Hp;
    [done|].
  apply NoDup_cons in Hmen as [Hm0 Hmen].
  assert (∀ ml, ml ∈ todo → getitem men_preferences ml.1 = Some ml.2) as Hget'
    by (intros ml Hml; apply Hget; by right).
  pose proof (Hget (m0, l0) ltac:(left)) as Hl0. simpl in Hl0.
  cbn [length Nat.add while_loop free_men fmap list_fmap app fst].
  rewrite Hl0. cbn [subscript mbind result_bind snd].
  rewrite Hid. cbn [mbind result_bind].
  destruct l0 as [|w0 r0].
  - simpl. apply IH; [done..| |].
    + intros w Hw. by apply He.
    + intros m Hm. apply Hp. by right.
  - unfold first_choices in Hfirst, He. simpl in Hfirst, He.
    apply NoDup_cons in Hfirst as [Hw0 Hfirst].
    cbn [for_loop proposals engaged free_men cursor].
    rewrite (Hp m0) by left. cbn [subscript mbind result_bind].
    rewrite decide_False by apply not_elem_of_nil.
    rewrite (He w0) by left. cbn [app].
    apply (IH (<[w0 := m0]> e) (<[m0 := [w0]]> p)); [done..| |].
    + intros w Hw. rewrite lookup_insert_ne; [apply He; by right|].
      by intros ->.
    + intros m Hm. rewrite lookup_insert_ne; [apply Hp; by right|].
      by intros ->.
Qed.

Lemma record_lookup_other (todo : list (agent * list agent)) p m :
  m ∉ todo.*1 → record todo p !! m = p !! m.
Proof.
  revert p. induction todo as [|[m0 l0] todo IH]; intros p; simpl; [done|].
  intros [Hne Hm]%not_elem_of_cons. rewrite IH by done.
  destruct (head l0); [|done]. by rewrite lookup_insert_ne.
Qed.

Lemma enough_length : length men_preferences < enough men_preferences.
Proof. unfold enough, width. lia. Qed.

Lemma first_choices_returned :
  NoDup men_preferences.*1 → NoDup (first_choices men_preferences) →
  matching_function pol men_preferences = Some (Ok (engage men_preferences ∅)).
Proof.
  intros Hnd Hfirst. unfold matching_function.
  pose proof enough_length as Hlen.
  replace (enough men_preferences)
    with (length men_preferences + S (enough men_preferences - S (length men_preferences)))
    by lia.
  change (initial men_preferences)
    with (Config men_preferences.*1 ∅ (proposals (initial men_preferences)) None).
  rewrite <- (app_nil_r men_preferences.*1) at 1.
  rewrite while_loop_prefix; [done| |done..| |].
  - intros [m l] Hml. by apply getitem_unique.
  - done.
  - intros m Hm. by apply (initial_history men_preferences).
Qed.

(** The first proposer whose first choice is taken meets her partner in
    the acceptance test; an exception of the test ends the call. *)
Lemma first_conflict (pre rest : list (agent * list agent)) m1 r1 m2 w r2 x :
  men_preferences = pre ++ (m2, w :: r2) :: rest →
  NoDup men_preferences.*1 →
  NoDup (first_choices pre) →
  (m1, w :: r1) ∈ pre →
  accepts pol w m2 m1 = Raise x →
  matching_function pol men_preferences = Some (Raise x).
Proof.
  intros Hmp Hnd Hfirst Hm1 Hacc. unfold matching_function.
  pose proof enough_length as Hlen.
  assert (length men_preferences = length pre + S (length rest)) as Hsplit
    by (rewrite Hmp, length_app; done).
  replace (enough men_preferences)
    with (length pre + S (enough men_preferences - S (length pre))) by lia.
  assert (men_preferences.*1 = pre.*1 ++ m2 :: rest.*1) as Hkeys
    by (rewrite Hmp, fmap_app; done).
  change (initial men_preferences)
    with (Config men_preferences.*1 ∅ (proposals (initial men_preferences)) None).
  rewrite Hkeys at 1.
  assert (NoDup pre.*1 ∧ m2 ∉ pre.*1) as [Hpre Hm2].
  { rewrite Hkeys in Hnd. apply NoDup_app in Hnd as (? & Hdis & _). split; [done|].
    intros Hin. apply (Hdis _ Hin). left. }
  rewrite while_loop_prefix; [|try done..].
  - cbn [while_loop free_men].
    rewrite (getitem_unique men_preferences m2 (w :: r2) Hnd)
      by (rewrite Hmp; apply elem_of_app; right; left).
    cbn [subscript mbind result_bind]. rewrite Hid.
    cbn [mbind result_bind for_loop proposals engaged free_men cursor].
    rewrite record_lookup_other by done.
    rewrite (initial_history men_preferences m2)
      by (rewrite Hkeys; apply elem_of_app; right; left).
    cbn [subscript mbind result_bind].
    rewrite decide_False by apply not_elem_of_nil.
    assert (engage pre ∅ !! w = Some m1) as ->.
    { apply engage_lookup; [done|]. left. by exists (w :: r1). }
    by rewrite Hacc.
  - intros [m l] Hml. apply getitem_unique; [done|].
    rewrite Hmp. apply elem_of_app. by left.
  - intros m Hm. apply (initial_history men_preferences).
    rewrite Hkeys. apply elem_of_app. by left.
Qed.
End no_competition.

(** X7. When the proposers' first choices are pairwise distinct,
    [stable_marriage] and [reasonable_care_matching] give every proposer
    his first choice (a proposer with an empty list gets no partner) and
    raise nothing: [women_preferences] and the table are never read, so
    they may be empty or lack any key. *)
Theorem distinct_first_choices_win {agent : Type} `{Countable agent}
    (men_preferences women_preferences : list (agent * list agent))
    (care_thresholds : gmap (agent * agent) float) :
  NoDup men_preferences.*1 →
  NoDup (first_choices men_preferences) →
  ∃ M, stable_marriage men_preferences women_preferences = Some (Ok M) ∧
       reasonable_care_matching men_preferences women_preferences care_thresholds
         = Some (Ok M) ∧
       ∀ w m, M !! w = Some m ↔
              ∃ l, getitem men_preferences m = Some l ∧ head l = Some w.
Proof.
  intros Hnd Hfirst. exists (engage men_preferences ∅). split_and!.
  - by apply first_choices_returned.
  - by apply first_choices_returned.
  - intros w m. rewrite engage_lookup by done. split.
    + intros [(l & Hl & Hw)|[_ He]]; [|by rewrite lookup_empty in He].
      exists l. split; [by apply getitem_unique|done].
    + intros (l & Hl%getitem_elem_of & Hw). left. by exists l.
Qed.

Lemma distinct_first_choices_win_witness :
  NoDup men_apart.*1 ∧ NoDup (first_choices men_apart) ∧
  ∃ M, stable_marriage men_apart [] = Some (Ok M) ∧
       reasonable_care_matching men_apart [] ∅ = Some (Ok M) ∧
       ∀ w m, M !! w = Some m ↔
              ∃ l, getitem men_apart m = Some l ∧ head l = Some w.
Proof.
  assert (NoDup men_apart.*1) as Hnd
    by (apply (bool_decide_unpack _); vm_compute; exact I).
  assert (NoDup (first_choices men_apart)) as Hfirst
    by (apply (bool_decide_unpack _); vm_compute; exact I).
  split_and!; [exact Hnd|exact Hfirst|].
  exact (distinct_first_choices_win men_apart [] ∅ Hnd Hfirst).
Defined.

(** X8. [women_preferences] is first read when a proposer's first choice
    is already taken: if the proposers before him have pairwise distinct
    first choices and one of them has his, [stable_marriage] raises
    KeyError when the receiver is no key of [women_preferences] and
    ValueError when her list lacks one of the two proposers, and
    [reasonable_care_matching] raises KeyError when the table has no entry
    for her and one of the two. *)
Theorem first_conflict_raises {agent : Type} `{Countable agent}
    (men_preferences women_preferences : list (agent * list agent))
    (care_thresholds : gmap (agent * agent) float)
    (pre rest : list (agent * list agent)) (m1 m2 w : agent) (r1 r2 : list agent) :
  men_preferences = pre ++ (m2, w :: r2) :: rest →
  NoDup men_preferences.*1 →
  NoDup (first_choices pre) →
  (m1, w :: r1) ∈ pre →
  (getitem women_preferences w = None →
     stable_marriage men_preferences women_preferences = Some (Raise KeyError)) ∧
  (∀ l, getitem women_preferences w = Some l → m2 ∉ l ∨ m1 ∉ l →
     stable_marriage men_preferences women_preferences = Some (Raise ValueError)) ∧
  (care_thresholds !! (w, m2) = None ∨ care_thresholds !! (w, m1) = None →
     reasonable_care_matching men_preferences women_preferences care_thresholds
       = Some (Raise KeyError)).
Proof.
  intros Hmp Hnd Hfirst Hm1. split_and!.
  - intros Hw. eapply first_conflict; [done..|]. simpl. by rewrite Hw.
  - intros l Hl Hmiss. eapply first_conflict; [done..|]. simpl.
    rewrite Hl. simpl. unfold list_index.
    destruct (index l m2) as [i|] eqn:Hi; simpl; [|done].
    destruct (index l m1) as [j|] eqn:Hj; simpl; [|done].
    destruct Hmiss as [Hmiss|Hmiss]; destruct Hmiss; by apply index_is_Some.
  - intros Hmiss. eapply first_conflict; [done..|]. simpl. unfold by_care.
    destruct (care_thresholds !! (w, m2)); simpl; [|done].
    destruct (care_thresholds !! (w, m1)); simpl; [|done].
    by destruct Hmiss.
Qed.

Lemma first_conflict_raises_witness :
  men_rivals = [("A", ["X"; "Y"])] ++ ("B", "X" :: ["Y"]) :: [] ∧
  NoDup men_rivals.*1 ∧
  NoDup (first_choices [("A", ["X"; "Y"])]) ∧
  ("A", "X" :: ["Y"]) ∈ [("A", ["X"; "Y"])] ∧
  getitem [("X", ["A"])] "X" = Some ["A"] ∧ ("B" ∉ ["A"]) ∧
  stable_marriage men_rivals [("X", ["A"])] = Some (Raise ValueError) ∧
  reasonable_care_matching men_rivals [("X", ["A"])] ∅ = Some (Raise KeyError).
Proof.
  assert (men_rivals = [("A", ["X"; "Y"])] ++ ("B", "X" :: ["Y"]) :: []) as Hmp
    by reflexivity.
  assert (NoDup men_rivals.*1) as Hnd
    by (apply (bool_decide_unpack _); vm_compute; exact I).
  assert (NoDup (first_choices [("A", ["X"; "Y"])])) as Hfirst
    by (apply (bool_decide_unpack _); vm_compute; exact I).
  assert (("A", "X" :: ["Y"]) ∈ [("A", ["X"; "Y"])]) as Hm1
    by (apply (bool_decide_unpack _); vm_compute; exact I).
  assert (getitem [("X", ["A"])] "X" = Some ["A"]) as Hl by reflexivity.
  assert ("B" ∉ ["A"]) as Hmiss by (apply (bool_decide_unpack _); vm_compute; exact I).
  destruct (first_conflict_raises men_rivals [("X", ["A"])] ∅ _ _ "A" "B" "X" _ _
              Hmp Hnd Hfirst Hm1) as (_ & Hvalue & Hkey).
  split_and!; [exact Hmp|exact Hnd|exact Hfirst|exact Hm1|exact Hl|exact Hmiss| |].
  - exact (Hvalue _ Hl (or_introl Hmiss)).
  - exact (Hkey (or_introl eq_refl)).
Defined.

(** ** The preference adjustment *)

Section adjustment.
Context {agent : Type} `{Countable agent}.

#[local] Abbreviation adjust key :=
  (mapM (λ '(who, preferences),
           l ← sorted_desc (key who) preferences;
           Ok (who, l))).

Lemma sorted_desc_defined (key : agent → result float) l :
  (∀ x, x ∈ l → ∃ k, key x = Ok k) → ∃ l', sorted_desc key l = Ok l'.
Proof.
  intros Hall. destruct (sorted_desc key l) as [l'|e] eqn:Hsort; [eauto|].
  apply sorted_desc_raise_inv in Hsort as (w & Hw & He).
  destruct (Hall w Hw) as [k Hk]. congruence.
Qed.

Lemma adjust_same_members (key : agent → agent → result float)
    (prefs out : list (agent * list agent)) :
  adjust key prefs = Ok out → same_members out prefs.
Proof.
  revert out. induction prefs as [|[who l] prefs IH]; intros out; simpl.
  - intros [= <-]. constructor.
  - destruct (sorted_desc (key who) l) as [l'|] eqn:Hl; simpl; [|done].
    destruct (adjust key prefs) as [out'|]; simpl; [|done].
    intros [= <-]. constructor; [|by apply IH].
    split; [done|]. by eapply sorted_desc_perm.
Qed.

Lemma adjust_raise_inv (key : agent → agent → result float)
    (prefs : list (agent * list agent)) e :
  adjust key prefs = Raise e →
  ∃ who l x, (who, l) ∈ prefs ∧ x ∈ l ∧ key who x = Raise e.
Proof.
  intros ([who l] & Hin & Hf)%mapM_result_raise_inv.
  destruct (sorted_desc (key who) l) as [l'|e'] eqn:Hl; simpl in Hf; [done|].
  injection Hf as ->. apply sorted_desc_raise_inv in Hl as (x & Hx & He).
  by exists who, l, x.
Qed.

Lemma adjust_defined (key : agent → agent → result float)
    (prefs : list (agent * list agent)) :
  (∀ who l x, (who, l) ∈ prefs → x ∈ l → ∃ k, key who x = Ok k) →
  ∃ out, adjust key prefs = Ok out.
Proof.
  intros Hall. destruct (adjust key prefs) as [out|e] eqn:Hadj; [eauto|].
  apply adjust_raise_inv in Hadj as (who & l & x & Hin & Hx & He).
  destruct (Hall who l x Hin Hx) as [k Hk]. congruence.
Qed.

Lemma same_members_keys (d d' : list (agent * list agent)) :
  same_members d d' → d.*1 = d'.*1.
Proof. induction 1 as [|a b l l' [Hk _] _ IH]; csimpl; [done|]. by rewrite Hk, IH. Qed.

Lemma same_members_sym (d d' : list (agent * list agent)) :
  same_members d d' → same_members d' d.
Proof.
  induction 1 as [|a b l l' [Hk Hp] _ IH]; constructor; [|done].
  split; [done|by symmetry].
Qed.

Lemma same_members_all (d d' : list (agent * list agent)) (side : list agent) :
  same_members d d' → Forall (λ al, al.2 ≡ₚ side) d' → Forall (λ al, al.2 ≡ₚ side) d.
Proof.
  induction 1 as [|a b l l' [Hk Hp] _ IH]; [done|].
  intros [Hb Hl']%Forall_cons. constructor; [by rewrite Hp|by apply IH].
Qed.

Lemma same_members_complete (mp mp' wp wp' : list (agent * list agent)) :
  same_members mp' mp → same_members wp' wp → complete mp wp → complete mp' wp'.
Proof.
  intros Hm Hw (Hmen & Hwomen & Hmp & Hwp). unfold complete.
  rewrite (same_members_keys _ _ Hm), (same_members_keys _ _ Hw).
  split_and!; [done..| |]; by eapply same_members_all.
Qed.

Lemma adjustment_inv (men_prefs women_prefs : list (agent * list agent))
    (respect_weights : gmap (agent * agent) float) amp awp :
  weighted_preference_adjustment men_prefs women_prefs respect_weights = Ok (amp, awp) →
  adjust (λ man woman, subscript (respect_weights !! (man, woman))) men_prefs = Ok amp ∧
  adjust (λ woman man, subscript (respect_weights !! (man, woman))) women_prefs = Ok awp.
Proof.
  unfold weighted_preference_adjustment.
  destruct (mapM _ men_prefs) as [amp'|]; simpl; [|done].
  destruct (mapM _ women_prefs) as [awp'|]; simpl; [|done].
  by intros [= <- <-].
Qed.

End adjustment.

Section composition.
Context {agent : Type} `{Countable agent}.
Context (men_preferences women_preferences : list (agent * list agent)).

Lemma stable_marriage_complete :
  complete men_preferences women_preferences →
  ∃ M, stable_marriage men_preferences women_preferences = Some (Ok M) ∧
       stable men_preferences women_preferences M ∧
       matching men_preferences women_preferences M ∧
       size M = length men_preferences `min` length women_preferences.
Proof.
  intros Hwf.
  destruct (run_keeps _ _ Hwf (λ _, True)) as (c & Hrun & _ & Hs & Hc & _ & Hcur & Hq);
    [done..|].
  exists (engaged c). unfold stable_marriage.
  rewrite matching_function_run by apply by_rank_reorders. rewrite Hrun.
  split_and!; [done|by apply finished_stable|by apply finished_matching|].
  by apply finished_size.
Qed.

Lemma adjustment_defined (respect_weights : gmap (agent * agent) float) :
  (∀ man l woman, (man, l) ∈ men_preferences → woman ∈ l →
     is_Some (respect_weights !! (man, woman))) →
  (∀ woman l man, (woman, l) ∈ women_preferences → man ∈ l →
     is_Some (respect_weights !! (man, woman))) →
  ∃ r, weighted_preference_adjustment men_preferences women_preferences
         respect_weights = Ok r.
Proof.
  intros Hm Hw.
  destruct (adjust_defined
    (λ man woman, subscript (respect_weights !! (man, woman))) men_preferences)
    as [amp Hamp].
  { intros man l woman Hin Hwoman.
    destruct (Hm man l woman Hin Hwoman) as [k ->]. by exists k. }
  destruct (adjust_defined
    (λ woman man, subscript (respect_weights !! (man, woman))) women_preferences)
    as [awp Hawp].
  { intros woman l man Hin Hman.
    destruct (Hw woman l man Hin Hman) as [k ->]. by exists k. }
  exists (amp, awp). unfold weighted_preference_adjustment.
  simpl in Hamp, Hawp. rewrite Hamp. simpl. by rewrite Hawp.
Qed.

Lemma adjust_raise (key : agent → agent → result float)
    (prefs : list (agent * list agent)) who l x e :
  (who, l) ∈ prefs → x ∈ l → key who x = Raise e →
  ∃ e', mapM (λ '(who, preferences),
                l ← sorted_desc (key who) preferences;
                Ok (who, l)) prefs = Raise e'.
Proof.
  intros Hin Hx He.
  destruct (sorted_desc_raise (key who) l x e Hx He) as [e' He'].
  apply (mapM_result_raise _ prefs (who, l) e' Hin). by rewrite He'.
Qed.
End composition.

(** X9. [weighted_preference_adjustment] only reorders: when it returns,
    both dicts have the keys of the input, in the same order, and every
    list holds the members of the list it was sorted from, each as often
    as before. So the adjusted dicts are full lists over the two sides
    exactly when the input is. *)
Theorem adjustment_reorders_lists {agent : Type} `{Countable agent}
    (men_prefs women_prefs : list (agent * list agent))
    (respect_weights : gmap (agent * agent) float)
    (adjusted_men_prefs adjusted_women_prefs : list (agent * list agent)) :
  weighted_preference_adjustment men_prefs women_prefs respect_weights
    = Ok (adjusted_men_prefs, adjusted_women_prefs) →
  same_members adjusted_men_prefs men_prefs ∧
  same_members adjusted_women_prefs women_prefs ∧
  (complete men_prefs women_prefs ↔
   complete adjusted_men_prefs adjusted_women_prefs).
Proof.
  intros [Hm%adjust_same_members Hw%adjust_same_members]%adjustment_inv.
  split_and!; [done..|]. split.
  - by apply same_members_complete.
  - apply same_members_complete; by apply same_members_sym.
Qed.

Lemma adjustment_reorders_lists_witness :
  weighted_preference_adjustment men0 women0 respect0
    = Ok (men_adjusted, women_adjusted) ∧
  same_members men_adjusted men0 ∧
  same_members women_adjusted women0 ∧
  (complete men0 women0 ↔ complete men_adjusted women_adjusted).
Proof.
  assert (weighted_preference_adjustment men0 women0 respect0
            = Ok (men_adjusted, women_adjusted)) as Hadj by (vm_compute; reflexivity).
  split; [exact Hadj|].
  exact (adjustment_reorders_lists men0 women0 respect0 _ _ Hadj).
Defined.

(** X10. [weighted_preference_adjustment] raises nothing but KeyError, and
    it returns exactly when the table has a weight for every proposer with
    every receiver of his list and for every receiver with every proposer
    of her list, each under the key (man, woman); nothing is put in the
    place of a missing weight. *)
Theorem adjustment_needs_every_weight {agent : Type} `{Countable agent}
    (men_prefs women_prefs : list (agent * list agent))
    (respect_weights : gmap (agent * agent) float) :
  weighted_preference_adjustment men_prefs women_prefs respect_weights
    ≠ Raise ValueError ∧
  ((∃ r, weighted_preference_adjustment men_prefs women_prefs respect_weights = Ok r) ↔
   (∀ man l woman, (man, l) ∈ men_prefs → woman ∈ l →
      is_Some (respect_weights !! (man, woman))) ∧
   (∀ woman l man, (woman, l) ∈ women_prefs → man ∈ l →
      is_Some (respect_weights !! (man, woman)))).
Proof.
  split; [|split].
  - unfold weighted_preference_adjustment.
    destruct (mapM _ men_prefs) as [amp|e] eqn:Hm; simpl.
    + destruct (mapM _ women_prefs) as [awp|e] eqn:Hw; simpl; [done|].
      apply (adjust_raise_inv (λ woman man, subscript (respect_weights !! (man, woman))))
        in Hw as (who & l & x & _ & _ & He).
      apply subscript_raise in He as ->. done.
    + apply (adjust_raise_inv (λ man woman, subscript (respect_weights !! (man, woman))))
        in Hm as (who & l & x & _ & _ & He).
      apply subscript_raise in He as ->. done.
  - unfold weighted_preference_adjustment. intros [r Hr]. split.
    + intros man l woman Hin Hwoman.
      destruct (respect_weights !! (man, woman)) as [k|] eqn:Hk; [eauto|].
      destruct (adjust_raise
        (λ man woman, subscript (respect_weights !! (man, woman)))
        men_prefs man l woman KeyError Hin Hwoman) as [e He];
        [simpl; by rewrite Hk|].
      simpl in He. by rewrite He in Hr.
    + intros woman l man Hin Hman.
      destruct (respect_weights !! (man, woman)) as [k|] eqn:Hk; [eauto|].
      destruct (mapM _ men_prefs) as [amp|]; simpl in Hr; [|done].
      destruct (adjust_raise
        (λ woman man, subscript (respect_weights !! (man, woman)))
        women_prefs woman l man KeyError Hin Hman) as [e He];
        [simpl; by rewrite Hk|].
      simpl in He. by rewrite He in Hr.
  - intros [Hm Hw]. by apply adjustment_defined.
Qed.

(** X11. The composition of the source file: on full lists and a table
    with a weight for every pair, [weighted_preference_adjustment] returns
    and [stable_marriage] on the two adjusted dicts raises nothing and
    returns a matching between the two sides that no pair blocks under the
    adjusted lists, with min(|P|, |R|) pairs. *)
Theorem adjusted_preferences_are_matched {agent : Type} `{Countable agent}
    (men_prefs women_prefs : list (agent * list agent))
    (respect_weights : gmap (agent * agent) float) :
  complete men_prefs women_prefs →
  Forall (λ pair, is_Some (respect_weights !! pair))
         (cprod men_prefs.*1 women_prefs.*1) →
  ∃ adjusted_men_prefs adjusted_women_prefs M,
    weighted_preference_adjustment men_prefs women_prefs respect_weights
      = Ok (adjusted_men_prefs, adjusted_women_prefs) ∧
    stable_marriage adjusted_men_prefs adjusted_women_prefs = Some (Ok M) ∧
    stable adjusted_men_prefs adjusted_women_prefs M ∧
    matching men_prefs women_prefs M ∧
    size M = length men_prefs `min` length women_prefs.
Proof.
  intros Hwf Hall. rewrite Forall_forall in Hall.
  destruct (adjustment_defined men_prefs women_prefs respect_weights)
    as [[amp awp] Hadj].
  { intros man l woman Hin Hwoman. apply Hall, list_elem_of_cprod. simpl. split.
    - apply list_elem_of_fmap. by exists (man, l).
    - by rewrite <- (men_rank_all _ _ Hwf man l Hin). }
  { intros woman l man Hin Hman. apply Hall, list_elem_of_cprod. simpl. split.
    - by rewrite <- (women_rank_all _ _ Hwf woman l Hin).
    - apply list_elem_of_fmap. by exists (woman, l). }
  pose proof Hadj as [Hm%adjust_same_members Hw%adjust_same_members]%adjustment_inv.
  pose proof (same_members_complete _ _ _ _ Hm Hw Hwf) as Hwf'.
  destruct (stable_marriage_complete amp awp Hwf') as (M & HM & Hstable & [Hsides Hinj] & Hsize).
  exists amp, awp, M. split_and!; [done..| |].
  - split; [|done]. intros r p Hrp. destruct (Hsides r p Hrp) as [Hr Hp].
    by rewrite (same_members_keys _ _ Hm), (same_members_keys _ _ Hw) in *.
  - rewrite Hsize. apply same_members_keys in Hm, Hw.
    by rewrite <- (length_fmap fst amp), <- (length_fmap fst awp), Hm, Hw, !length_fmap.
Qed.

Lemma adjusted_preferences_are_matched_witness :
  complete men0 women0 ∧
  Forall (λ pair, is_Some (respect0 !! pair)) (cprod men0.*1 women0.*1) ∧
  ∃ adjusted_men_prefs adjusted_women_prefs M,
    weighted_preference_adjustment men0 women0 respect0
      = Ok (adjusted_men_prefs, adjusted_women_prefs) ∧
    stable_marriage adjusted_men_prefs adjusted_women_prefs = Some (Ok M) ∧
    stable adjusted_men_prefs adjusted_women_prefs M ∧
    matching men0 women0 M ∧
    size M = length men0 `min` length women0.
Proof.
  assert (Forall (λ pair, is_Some (respect0 !! pair)) (cprod men0.*1 women0.*1))
    as Hall by (apply (bool_decide_unpack _); vm_compute; exact I).
  split_and!; [exact complete0|exact Hall|].
  exact (adjusted_preferences_are_matched men0 women0 respect0 complete0 Hall).
Defined.


(** ** The order of the sort *)

(** [<] on binary64: never both ways, and what is not below a number that
    is itself not below a third is not below the third. *)
Lemma SFltb_asym x y : SFltb x y = true → SFltb y x = false.
Proof.
  unfold SFltb, SFcompare.
  destruct x as [sx|sx| |sx mx ex], y as [sy|sy| |sy my ey]; try done;
    try destruct sx; try destruct sy; simpl; try done;
    change (Pos.compare_cont Eq) with Pos.compare;
    repeat match goal with
    | |- context [Z.compare ?a ?b] => destruct (Z.compare_spec a b); simpl; try done
    | |- context [Pos.compare ?a ?b] => destruct (Pos.compare_spec a b); simpl; try done
    end; try lia.
Qed.

Lemma SFltb_negtrans x y z :
  y ≠ S754_nan → SFltb x y = false → SFltb y z = false → SFltb x z = false.
Proof.
  unfold SFltb, SFcompare. intros Hy.
  destruct x as [sx|sx| |sx mx ex], y as [sy|sy| |sy my ey], z as [sz|sz| |sz mz ez];
    try done;
    try destruct sx; try destruct sy; try destruct sz; simpl; try done;
    change (Pos.compare_cont Eq) with Pos.compare;
    repeat match goal with
    | |- context [Z.compare ?a ?b] => destruct (Z.compare_spec a b); simpl; try done
    | |- context [Pos.compare ?a ?b] => destruct (Pos.compare_spec a b); simpl; try done
    end; try lia.
Qed.

Lemma ltb_asym (a b : float) : PrimFloat.ltb a b = true → PrimFloat.ltb b a = false.
Proof. rewrite !FloatAxioms.ltb_spec. apply SFltb_asym. Qed.

Lemma ltb_irrefl (a : float) : PrimFloat.ltb a a = false.
Proof.
  destruct (PrimFloat.ltb a a) eqn:Haa; [|done].
  pose proof (ltb_asym _ _ Haa). congruence.
Qed.

Lemma ltb_negtrans (a b c : float) :
  PrimFloat.is_nan b = false →
  PrimFloat.ltb a b = false → PrimFloat.ltb b c = false → PrimFloat.ltb a c = false.
Proof.
  rewrite !FloatAxioms.ltb_spec. intros Hb. apply SFltb_negtrans. intros Hnan.
  unfold PrimFloat.is_nan in Hb. rewrite FloatAxioms.eqb_spec, Hnan in Hb. done.
Qed.

Section sort_order.
Context {agent : Type} `{Countable agent}.

#[local] Abbreviation above := (λ p q : float * agent, PrimFloat.ltb p.1 q.1 = false).
#[local] Abbreviation level k :=
  (λ p : float * agent, negb (PrimFloat.ltb p.1 k) && negb (PrimFloat.ltb k p.1)).
#[local] Abbreviation numbers := (Forall (λ p : float * agent, PrimFloat.is_nan p.1 = false)).

Lemma insert_desc_sorted (x : float * agent) s :
  numbers s → StronglySorted above s → StronglySorted above (insert_desc x s).
Proof.
  intros Hnum Hs. induction Hs as [|y s Hs IH Hy]; simpl.
  - repeat constructor.
  - apply Forall_cons in Hnum as [Hynum Hnum].
    destruct (PrimFloat.ltb x.1 y.1) eqn:Hxy.
    + constructor; [by apply IH|]. rewrite insert_desc_perm.
      constructor; [by apply ltb_asym|done].
    + constructor; [by constructor|]. constructor; [done|].
      eapply Forall_impl; [exact Hy|]. intros z Hz. simpl in *.
      by apply (ltb_negtrans _ y.1).
Qed.

Lemma insert_desc_numbers (x : float * agent) s :
  numbers (x :: s) → numbers (insert_desc x s).
Proof. intros Hnum. by rewrite insert_desc_perm. Qed.

Lemma insertion_sorted (zs : list (float * agent)) :
  numbers zs →
  StronglySorted above (foldr insert_desc [] zs) ∧ foldr insert_desc [] zs ≡ₚ zs.
Proof.
  induction zs as [|x zs IH]; simpl; [intros _; split; [constructor|done]|].
  intros [Hx Hzs]%Forall_cons. destruct (IH Hzs) as [Hs Hperm]. split.
  - apply insert_desc_sorted; [by rewrite Hperm|done].
  - by rewrite insert_desc_perm, Hperm.
Qed.

Lemma insert_desc_level (x : float * agent) s k :
  PrimFloat.is_nan k = false →
  List.filter (level k) (insert_desc x s) = List.filter (level k) (x :: s).
Proof.
  intros Hk. induction s as [|y s IH]; [done|].
  cbn [insert_desc]. destruct (PrimFloat.ltb x.1 y.1) eqn:Hxy; [|done].
  cbn [List.filter] in *. rewrite IH.
  destruct (level k x) eqn:Hx; [|done].
  destruct (level k y) eqn:Hy; [|done].
  apply andb_true_iff in Hx as [Hx1%negb_true_iff Hx2%negb_true_iff].
  apply andb_true_iff in Hy as [Hy1%negb_true_iff Hy2%negb_true_iff].
  rewrite (ltb_negtrans x.1 k y.1 Hk Hx1 Hy2) in Hxy. done.
Qed.

Lemma insertion_level (zs : list (float * agent)) k :
  PrimFloat.is_nan k = false →
  List.filter (level k) (foldr insert_desc [] zs) = List.filter (level k) zs.
Proof.
  intros Hk. induction zs as [|x zs IH]; [done|].
  cbn [foldr]. rewrite insert_desc_level by done. cbn [List.filter]. by rewrite IH.
Qed.

Lemma StronglySorted_lookup {A} (R : relation A) (l : list A) i j x y :
  StronglySorted R l → i < j → l !! i = Some x → l !! j = Some y → R x y.
Proof.
  intros Hs. revert i j. induction Hs as [|z l Hs IH Hz]; intros i j Hij Hi Hj.
  - by rewrite lookup_nil in Hi.
  - destruct j as [|j]; [lia|]. simpl in Hj. destruct i as [|i].
    + simpl in Hi. simplify_eq. rewrite Forall_forall in Hz.
      by eapply Hz, list_elem_of_lookup_2.
    + simpl in Hi. apply (IH i j); [lia|done..].
Qed.

(** The keys that [sorted] computes, paired with the members. *)
Lemma keyed_zip (key : agent → option float) l ks :
  mapM (λ x, subscript (key x)) l = Ok ks →
  Forall (λ p : float * agent, key p.2 = Some p.1) (zip ks l) ∧ (zip ks l).*2 = l.
Proof.
  revert ks. induction l as [|x l IH]; intros ks; simpl.
  - intros [= <-]. by split.
  - destruct (key x) as [a|] eqn:Hx; simpl; [|done].
    destruct (mapM _ l) as [ks'|]; simpl; [|done].
    intros [= <-]. destruct (IH ks' eq_refl) as [Hall Hsnd]. split.
    + by constructor.
    + csimpl. by rewrite Hsnd.
Qed.

Lemma filter_keyed (key : agent → option float) k (zs : list (float * agent)) :
  Forall (λ p : float * agent, key p.2 = Some p.1) zs →
  List.filter (ties key k) zs.*2 = (List.filter (level k) zs).*2.
Proof.
  induction 1 as [|[a x] zs Hx _ IH]; [done|].
  csimpl in *. unfold ties at 1. rewrite Hx.
  destruct (negb _ && negb _); csimpl; by rewrite IH.
Qed.

Lemma sorted_desc_sorted_from (key : agent → option float) l l' :
  (∀ x a, x ∈ l → key x = Some a → PrimFloat.is_nan a = false) →
  sorted_desc (λ x, subscript (key x)) l = Ok l' →
  sorted_from key l l'.
Proof.
  intros Hnum Hsort. pose proof (sorted_desc_perm _ _ _ Hsort) as Hperm.
  unfold sorted_desc in Hsort.
  destruct (mapM _ l) as [ks|] eqn:Hks; simpl in Hsort; [|done].
  injection Hsort as <-.
  destruct (keyed_zip key l ks Hks) as [Hkeyed Hsnd].
  assert (numbers (zip ks l)) as Hnumbers.
  { apply Forall_forall. intros [a x] Hin. simpl.
    rewrite Forall_forall in Hkeyed. apply (Hnum x).
    - rewrite <- Hsnd. apply list_elem_of_fmap. by exists (a, x).
    - by apply (Hkeyed (a, x)). }
  destruct (insertion_sorted (zip ks l) Hnumbers) as [Hsorted Hzperm].
  assert (Forall (λ p : float * agent, key p.2 = Some p.1)
                 (foldr insert_desc [] (zip ks l))) as Hkeyed'
    by (by rewrite Hzperm).
  split_and!; [done| |].
  - intros i j x y Hij Hi Hj.
    apply list_lookup_fmap_Some in Hi as ([a x'] & Hx' & Hi).
    apply list_lookup_fmap_Some in Hj as ([b y'] & Hy' & Hj).
    simpl in *. subst. rewrite Forall_forall in Hkeyed'.
    exists a, b. split_and!.
    + apply (Hkeyed' (a, x')). by eapply list_elem_of_lookup_2.
    + apply (Hkeyed' (b, y')). by eapply list_elem_of_lookup_2.
    + by apply (StronglySorted_lookup _ _ i j (a, x') (b, y') Hsorted).
  - intros k Hk. rewrite (filter_keyed key k _ Hkeyed').
    rewrite insertion_level by done.
    rewrite <- (filter_keyed key k _ Hkeyed). by rewrite Hsnd.
Qed.

Lemma ties_self (key : agent → option float) x a :
  key x = Some a → PrimFloat.is_nan a = false → ties key a x = true.
Proof.
  intros Hx Ha. unfold ties. rewrite Hx.
  by rewrite ltb_irrefl.
Qed.

(** Two lists with the same members, both highest first, in which the
    members of every level stand in the same order, are the same list. *)
Lemma sorted_unique (key : agent → option float) (l1 l2 : list agent) :
  (∀ x, x ∈ l1 → ∃ a, key x = Some a ∧ PrimFloat.is_nan a = false) →
  l1 ≡ₚ l2 →
  (∀ i j x y, i < j → l1 !! i = Some x → l1 !! j = Some y →
     ∃ a b, key x = Some a ∧ key y = Some b ∧ PrimFloat.ltb a b = false) →
  (∀ i j x y, i < j → l2 !! i = Some x → l2 !! j = Some y →
     ∃ a b, key x = Some a ∧ key y = Some b ∧ PrimFloat.ltb a b = false) →
  (∀ k, PrimFloat.is_nan k = false →
     List.filter (ties key k) l1 = List.filter (ties key k) l2) →
  l1 = l2.
Proof.
  revert l2. induction l1 as [|x t1 IH]; intros l2 Hnum Hperm Hd1 Hd2 Hlev.
  - by apply Permutation_nil in Hperm.
  - destruct l2 as [|y t2]; [by apply Permutation_nil_r in Hperm|].
    destruct (Hnum x) as (a & Hx & Ha); [left|].
    assert (∀ l z u c,
              (∀ i j x y, i < j → (z :: l) !! i = Some x → (z :: l) !! j = Some y →
                 ∃ a b, key x = Some a ∧ key y = Some b ∧ PrimFloat.ltb a b = false) →
              key z = Some c → u ∈ z :: l →
              ∃ b, key u = Some b ∧ PrimFloat.ltb c b = false) as Hfirst.
    { intros l z u c Hd Hz [->|Hu]%elem_of_cons.
      - exists c. split; [done|apply ltb_irrefl].
      - apply list_elem_of_lookup in Hu as [j Hj].
        destruct (Hd 0 (S j) z u) as (a' & b & Hz' & Hu & Hab); [lia|done..|].
        simplify_eq. eauto. }
    assert (y ∈ x :: t1) as Hy by (rewrite Hperm; left).
    assert (x ∈ y :: t2) as Hx2 by (rewrite <- Hperm; left).
    destruct (Hfirst t1 x y a Hd1 Hx Hy) as (b & Hyb & Hab).
    destruct (Hnum y Hy) as (b' & Hyb' & Hb). simplify_eq.
    destruct (Hfirst t2 y x b Hd2 Hyb Hx2) as (a' & Hx' & Hba). simplify_eq.
    assert (x = y) as <-.
    { pose proof (Hlev a Ha) as Hla. cbn [List.filter] in Hla.
      rewrite (ties_self key x a Hx Ha) in Hla.
      assert (ties key a y = true) as Hty.
      { unfold ties. rewrite Hyb. by rewrite Hba, Hab. }
      rewrite Hty in Hla. by injection Hla. }
    f_equal. apply IH.
    + intros z Hz. apply Hnum. by right.
    + by eapply Permutation_cons_inv.
    + intros i j u v Hij Hu Hv. apply (Hd1 (S i) (S j)); [lia|done..].
    + intros i j u v Hij Hu Hv. apply (Hd2 (S i) (S j)); [lia|done..].
    + intros k Hk. specialize (Hlev k Hk). cbn [List.filter] in Hlev.
      destruct (ties key k x); [by injection Hlev|done].
Qed.

Lemma sorted_from_unique (key : agent → option float) (l l1 l2 : list agent) :
  (∀ x, x ∈ l → ∃ a, key x = Some a ∧ PrimFloat.is_nan a = false) →
  sorted_from key l l1 → sorted_from key l l2 → l1 = l2.
Proof.
  intros Hnum (Hp1 & Hd1 & Hl1) (Hp2 & Hd2 & Hl2).
  apply (sorted_unique key); [|by rewrite Hp1, Hp2|done..|].
  - intros x Hx. apply Hnum. by rewrite <- Hp1.
  - intros k Hk. by rewrite Hl1, Hl2.
Qed.

Lemma sorted_desc_keys_defined (key : agent → option float) l l' x :
  sorted_desc (λ x, subscript (key x)) l = Ok l' → x ∈ l → is_Some (key x).
Proof.
  unfold sorted_desc. destruct (mapM _ l) as [ks|] eqn:Hks; simpl; [|done].
  intros _ Hx. destruct (keyed_zip key l ks Hks) as [Hkeyed Hsnd].
  rewrite <- Hsnd in Hx. apply list_elem_of_fmap in Hx as ([a x'] & -> & Hin).
  rewrite Forall_forall in Hkeyed. exists a. by apply (Hkeyed (a, x')).
Qed.

Lemma adjust_sorted_from (key : agent → agent → option float)
    (prefs out : list (agent * list agent)) :
  (∀ who x a, key who x = Some a → PrimFloat.is_nan a = false) →
  mapM (λ '(who, preferences),
          l ← sorted_desc (λ x, subscript (key who x)) preferences;
          Ok (who, l)) prefs = Ok out →
  Forall2 (λ a b, a.1 = b.1 ∧ sorted_from (key a.1) b.2 a.2 ∧
                  ∀ l, sorted_from (key a.1) b.2 l → l = a.2) out prefs.
Proof.
  intros Hnum. revert out. induction prefs as [|[who l] prefs IH]; intros out; simpl.
  - intros [= <-]. constructor.
  - destruct (sorted_desc _ l) as [l'|] eqn:Hl; simpl; [|done].
    destruct (mapM _ prefs) as [out'|]; simpl; [|done].
    intros [= <-]. constructor; [|by apply IH].
    assert (sorted_from (key who) l l') as Hsorted.
    { apply sorted_desc_sorted_from; [|done]. intros x a _. apply Hnum. }
    split_and!; [done..|]. simpl. intros l'' Hl''.
    apply (sorted_from_unique (key who) l); [|done..].
    intros x Hx. destruct (sorted_desc_keys_defined _ _ _ x Hl Hx) as [a Ha].
    exists a. split; [done|]. by eapply Hnum.
Qed.
End sort_order.

(** X12. The sort in [weighted_preference_adjustment] is by weight, highest
    first, and stable: when no weight of the table is NaN, every adjusted
    list holds the members of the list it was sorted from, none of its
    members has a lower weight than a later member, and the members whose
    weights tie stand in the order they had in the given list; and it is
    the only list of which this is true. *)
Theorem adjustment_sorts_by_weight {agent : Type} `{Countable agent}
    (men_prefs women_prefs : list (agent * list agent))
    (respect_weights : gmap (agent * agent) float)
    (adjusted_men_prefs adjusted_women_prefs : list (agent * list agent)) :
  map_Forall (λ _ k, PrimFloat.is_nan k = false) respect_weights →
  weighted_preference_adjustment men_prefs women_prefs respect_weights
    = Ok (adjusted_men_prefs, adjusted_women_prefs) →
  Forall2 (λ a b, a.1 = b.1 ∧
             sorted_from (λ woman, respect_weights !! (a.1, woman)) b.2 a.2 ∧
             ∀ l, sorted_from (λ woman, respect_weights !! (a.1, woman)) b.2 l →
                  l = a.2)
          adjusted_men_prefs men_prefs ∧
  Forall2 (λ a b, a.1 = b.1 ∧
             sorted_from (λ man, respect_weights !! (man, a.1)) b.2 a.2 ∧
             ∀ l, sorted_from (λ man, respect_weights !! (man, a.1)) b.2 l →
                  l = a.2)
          adjusted_women_prefs women_prefs.
Proof.
  intros Hnum [Hm Hw]%adjustment_inv. split.
  - apply (adjust_sorted_from (λ man woman, respect_weights !! (man, woman)));
      [|done].
    intros man woman a Ha. by apply (Hnum (man, woman)).
  - apply (adjust_sorted_from (λ woman man, respect_weights !! (man, woman)));
      [|done].
    intros woman man a Ha. by apply (Hnum (man, woman)).
Qed.

Lemma adjustment_sorts_by_weight_witness :
  map_Forall (λ _ k, PrimFloat.is_nan k = false) respect0 ∧
  weighted_preference_adjustment men0 women0 respect0
    = Ok (men_adjusted, women_adjusted) ∧
  Forall2 (λ a b, a.1 = b.1 ∧
             sorted_from (λ woman, respect0 !! (a.1, woman)) b.2 a.2 ∧
             ∀ l, sorted_from (λ woman, respect0 !! (a.1, woman)) b.2 l → l = a.2)
          men_adjusted men0 ∧
  Forall2 (λ a b, a.1 = b.1 ∧
             sorted_from (λ man, respect0 !! (man, a.1)) b.2 a.2 ∧
             ∀ l, sorted_from (λ man, respect0 !! (man, a.1)) b.2 l → l = a.2)
          women_adjusted women0.
Proof.
  assert (map_Forall (λ _ k, PrimFloat.is_nan k = false) respect0) as Hnum
    by (apply (bool_decide_unpack _); vm_compute; exact I).
  assert (weighted_preference_adjustment men0 women0 respect0
            = Ok (men_adjusted, women_adjusted)) as Hadj by (vm_compute; reflexivity).
  split_and!; [exact Hnum|exact Hadj| |];
    apply (adjustment_sorts_by_weight men0 women0 respect0 _ _ Hnum Hadj).
Defined.

(** ** The reporters on the dict of a run *)

Section more_reporters.
Context {agent : Type} `{Countable agent}.
Context (men_prefs women_prefs : list (agent * list agent)).

#[local] Abbreviation ranks := (pair_ranks men_prefs women_prefs).
#[local] Abbreviation total := (rank_sum men_prefs women_prefs).

Lemma happiness_score_rank_sum (match_ : list (agent * agent)) :
  happiness_score men_prefs women_prefs match_ = total match_.
Proof.
  unfold happiness_score. rewrite happiness_score_from.
  by destruct (rank_sum men_prefs women_prefs match_).
Qed.

Lemma rank_sum_cons w m (match_ : list (agent * agent)) :
  total ((w, m) :: match_) =
  (ij ← ranks w m; s ← total match_; Ok (ij.1 + ij.2 + s)).
Proof.
  unfold rank_sum. simpl. destruct (ranks w m); simpl; [|done].
  by destruct (mapM _ match_).
Qed.

Lemma pair_ranks_ok w m i j :
  ranks w m = Ok (i, j) ↔
  ∃ l l', getitem men_prefs m = Some l ∧ index l w = Some i ∧
          getitem women_prefs w = Some l' ∧ index l' m = Some j.
Proof.
  unfold pair_ranks, list_index. split.
  - destruct (getitem men_prefs m) as [l|]; simpl; [|done].
    destruct (index l w) as [i'|] eqn:Hi; simpl; [|done].
    destruct (getitem women_prefs w) as [l'|]; simpl; [|done].
    destruct (index l' m) as [j'|] eqn:Hj; simpl; [|done].
    intros [= <- <-]. by exists l, l'.
  - intros (l & l' & -> & Hi & -> & Hj). simpl. rewrite Hi. simpl. by rewrite Hj.
Qed.

Lemma pair_ranks_defined w m :
  (∃ ij, ranks w m = Ok ij) ↔ ranked men_prefs women_prefs (w, m).
Proof.
  unfold ranked. simpl. split.
  - intros [[i j] (l & l' & Hl & Hi & Hl' & Hj)%pair_ranks_ok].
    split; [exists l|exists l']; (split; [done|]); apply index_is_Some; eauto.
  - intros [(l & Hl & [i Hi]%index_is_Some) (l' & Hl' & [j Hj]%index_is_Some)].
    exists (i, j). apply pair_ranks_ok. by exists l, l'.
Qed.

Lemma rank_sum_defined (match_ : list (agent * agent)) :
  (∃ s, total match_ = Ok s) ↔ Forall (ranked men_prefs women_prefs) match_.
Proof.
  induction match_ as [|[w m] mt IH].
  - split; [constructor|]. intros _. by exists 0.
  - rewrite rank_sum_cons, Forall_cons, <- IH, <- pair_ranks_defined. split.
    + intros [s Hs]. destruct (ranks w m) as [ij|]; simpl in Hs; [|done].
      destruct (total mt) as [s'|]; simpl in Hs; [|done]. eauto.
    + intros [[ij ->] [s ->]]. simpl. eauto.
Qed.

Lemma track_satisfaction_defined (matches : list (agent * agent)) :
  (∃ S, track_satisfaction matches men_prefs women_prefs = Ok S) ↔
  Forall (ranked men_prefs women_prefs) matches.
Proof.
  unfold track_satisfaction. generalize (∅ : gmap (agent * agent) (nat * nat)).
  induction matches as [|[w m] mt IH]; intros S0.
  - split; [constructor|]. intros _. by exists S0.
  - rewrite Forall_cons, <- pair_ranks_defined. simpl.
    destruct (ranks w m) as [[i j]|x] eqn:Hij.
    + apply pair_ranks_ok in Hij as (l & l' & -> & Hi & -> & Hj). simpl.
      unfold list_index. rewrite Hi. simpl. rewrite Hj. simpl.
      rewrite IH. split; [by eauto|by intros [_ ?]].
    + assert (∀ S, (l ← subscript (getitem men_prefs m);
                    man_satisfaction ← list_index l w;
                    l' ← subscript (getitem women_prefs w);
                    woman_satisfaction ← list_index l' m;
                    Ok (<[(m, w) := (man_satisfaction, woman_satisfaction)]> S))
                   = Raise x) as ->.
      { intros S. unfold pair_ranks in Hij.
        destruct (getitem men_prefs m) as [l|]; simpl in *; [|congruence].
        destruct (list_index l w) as [i'|]; simpl in *; [|congruence].
        destruct (getitem women_prefs w) as [l'|]; simpl in *; [|congruence].
        destruct (list_index l' m) as [j'|]; simpl in *; congruence. }
      rewrite (track_satisfaction_raise men_prefs women_prefs x mt).
      split; [by intros [??]|by intros [[??] _]].
Qed.

Lemma rank_sum_perm (match_ match_' : list (agent * agent)) s :
  match_ ≡ₚ match_' → total match_ = Ok s → total match_' = Ok s.
Proof.
  intros Hperm. revert s.
  induction Hperm as [|[w m] l l' _ IH|[w m] [w' m'] l|l l1 l2 _ IH1 _ IH2]; intros s.
  - done.
  - rewrite !rank_sum_cons. destruct (ranks w m) as [ij|]; simpl; [|done].
    destruct (total l) as [s'|]; simpl; [|done].
    intros [= <-]. by rewrite (IH s').
  - rewrite !rank_sum_cons. destruct (ranks w m) as [ij|]; simpl.
    + destruct (ranks w' m') as [ij'|]; simpl; [|done].
      destruct (total l) as [s'|]; simpl; [|done].
      intros [= <-]. f_equal. lia.
    + by destruct (ranks w' m').
  - intros Hs. by apply IH2, IH1.
Qed.

Lemma track_satisfaction_items (matches : list (agent * agent)) S :
  track_satisfaction matches men_prefs women_prefs = Ok S →
  ∀ m w ij, S !! (m, w) = Some ij ↔ (w, m) ∈ matches ∧ ranks w m = Ok ij.
Proof.
  intros HS m w ij.
  rewrite (track_satisfaction_from _ _ _ _ _ HS m w ij), lookup_empty.
  split; [by intros [?|[_ ?]]|by left].
Qed.

Lemma track_satisfaction_perm (matches matches' : list (agent * agent)) S :
  matches ≡ₚ matches' →
  track_satisfaction matches men_prefs women_prefs = Ok S →
  track_satisfaction matches' men_prefs women_prefs = Ok S.
Proof.
  intros Hperm HS.
  destruct (proj2 (track_satisfaction_defined matches')) as [S' HS'].
  { rewrite <- Hperm. apply track_satisfaction_defined. eauto. }
  rewrite HS'. f_equal. apply map_eq. intros [m w]. apply option_eq. intros ij.
  rewrite (track_satisfaction_items _ _ HS), (track_satisfaction_items _ _ HS').
  by rewrite Hperm.
Qed.

Lemma rank_sum_zero (match_ : list (agent * agent)) :
  total match_ = Ok 0 ↔ Forall (mutual_first men_prefs women_prefs) match_.
Proof.
  induction match_ as [|[w m] mt IH].
  - split; [constructor|done].
  - rewrite rank_sum_cons, Forall_cons, <- IH. unfold mutual_first. simpl. split.
    + destruct (ranks w m) as [[i j]|] eqn:Hij; simpl; [|done].
      destruct (total mt) as [s|]; simpl; [|done].
      intros [= Hsum]. assert (i = 0 ∧ j = 0 ∧ s = 0) as (-> & -> & ->) by lia.
      apply pair_ranks_ok in Hij as (l & l' & Hl & Hi & Hl' & Hj).
      split; [|done]. split; [exists l|exists l']; (split; [done|]);
        by apply index_front.
    + intros [[(l & Hl & Hw) (l' & Hl' & Hm)] ->].
      assert (ranks w m = Ok (0, 0)) as ->; [|done].
      apply pair_ranks_ok. exists l, l'. split_and!; [done| |done|];
        by apply index_front.
Qed.

Lemma rank_sum_bound (match_ : list (agent * agent)) K s :
  (∀ w m i j, (w, m) ∈ match_ → ranks w m = Ok (i, j) → i + j + 2 ≤ K) →
  total match_ = Ok s →
  s + 2 * length match_ ≤ length match_ * K.
Proof.
  revert s. induction match_ as [|[w m] mt IH]; intros s Hall.
  - intros [= <-]. simpl. lia.
  - rewrite rank_sum_cons. destruct (ranks w m) as [[i j]|] eqn:Hij; simpl; [|done].
    destruct (total mt) as [s'|] eqn:Hs'; simpl; [|done].
    intros [= <-]. specialize (Hall w m i j (list_elem_of_here _ _) Hij) as Hwm.
    specialize (IH s' (λ w m i j Hin, Hall w m i j (list_elem_of_further _ _ _ Hin)) eq_refl).
    lia.
Qed.
End more_reporters.

Section callers_complete.
Context {agent : Type} `{Countable agent}.
Context (men_prefs women_prefs : list (agent * list agent)).
Hypothesis Hwf : complete men_prefs women_prefs.

Lemma matched_pair_ranks (M : gmap agent agent) w m :
  matching men_prefs women_prefs M → M !! w = Some m →
  ∃ i j, pair_ranks men_prefs women_prefs w m = Ok (i, j) ∧
         i < length women_prefs ∧ j < length men_prefs.
Proof.
  intros [Hsides _] [Hw Hm]%Hsides.
  pose proof Hm as [l Hl]%getitem_is_Some. pose proof Hw as [l' Hl']%getitem_is_Some.
  pose proof (men_rank_all _ _ Hwf _ _ (getitem_elem_of _ _ _ Hl)) as Hperm.
  pose proof (women_rank_all _ _ Hwf _ _ (getitem_elem_of _ _ _ Hl')) as Hperm'.
  assert (is_Some (index l w)) as [i Hi] by (apply index_is_Some; by rewrite Hperm).
  assert (is_Some (index l' m)) as [j Hj] by (apply index_is_Some; by rewrite Hperm').
  exists i, j. split_and!.
  - apply pair_ranks_ok. by exists l, l'.
  - apply index_lookup, lookup_lt_Some in Hi.
    by rewrite Hperm, length_fmap in Hi.
  - apply index_lookup, lookup_lt_Some in Hj.
    by rewrite Hperm', length_fmap in Hj.
Qed.

Lemma matched_items_ranked (M : gmap agent agent) :
  matching men_prefs women_prefs M →
  Forall (ranked men_prefs women_prefs) (map_to_list M).
Proof.
  intros HM. apply Forall_forall. intros [w m] Hwm%elem_of_map_to_list.
  destruct (matched_pair_ranks M w m HM Hwm) as (i & j & Hij & _).
  apply pair_ranks_defined. eauto.
Qed.
End callers_complete.

(** ** The two reporters, in full *)

Section reporters_full.
Context {agent : Type} `{Countable agent}.
Context (men_prefs women_prefs : list (agent * list agent)).

(** [track_satisfaction] raises what [happiness_score] raises: the
    exception of the first pair, in the order of the iteration, whose
    ranks are undefined. *)
Lemma track_satisfaction_raises (matches : list (agent * agent)) e :
  track_satisfaction matches men_prefs women_prefs = Raise e ↔
  rank_sum men_prefs women_prefs matches = Raise e.
Proof.
  unfold track_satisfaction. generalize (∅ : gmap (agent * agent) (nat * nat)).
  induction matches as [|[w m] mt IH]; intros S0.
  - done.
  - rewrite rank_sum_cons. simpl.
    destruct (pair_ranks men_prefs women_prefs w m) as [[i j]|x] eqn:Hij.
    + apply pair_ranks_ok in Hij as (l & l' & -> & Hi & -> & Hj). simpl.
      unfold list_index. rewrite Hi. simpl. rewrite Hj. simpl.
      rewrite IH. by destruct (rank_sum men_prefs women_prefs mt).
    + assert (∀ S, (l ← subscript (getitem men_prefs m);
                    man_satisfaction ← list_index l w;
                    l' ← subscript (getitem women_prefs w);
                    woman_satisfaction ← list_index l' m;
                    Ok (<[(m, w) := (man_satisfaction, woman_satisfaction)]> S))
                   = Raise x) as ->.
      { intros S. unfold pair_ranks in Hij.
        destruct (getitem men_prefs m) as [l|]; simpl in *; [|congruence].
        destruct (list_index l w) as [i'|]; simpl in *; [|congruence].
        destruct (getitem women_prefs w) as [l'|]; simpl in *; [|congruence].
        destruct (list_index l' m) as [j'|]; simpl in *; congruence. }
      rewrite (track_satisfaction_raise men_prefs women_prefs x mt). simpl.
      split; by intros [= ->].
Qed.
End reporters_full.

(** C9. [happiness_score] returns the sum, over the matched pairs, of the
    man's rank position of the woman and the woman's rank position of the
    man, and raises where a rank is undefined. [track_satisfaction]
    returns exactly when every pair of the dict ranks each other, and
    then returns the two rank positions of each matched pair, and of no
    other, under the key (man, woman); otherwise it raises what
    [happiness_score] raises. Position 0 is the front of a list. Both
    are functions of their arguments alone. *)
Theorem reporters_rank_positions {agent : Type} `{Countable agent}
    (men_prefs women_prefs : list (agent * list agent))
    (match_ : list (agent * agent)) :
  happiness_score men_prefs women_prefs match_ =
    rank_sum men_prefs women_prefs match_ ∧
  ((∃ S, track_satisfaction match_ men_prefs women_prefs = Ok S) ↔
   Forall (ranked men_prefs women_prefs) match_) ∧
  (∀ e, track_satisfaction match_ men_prefs women_prefs = Raise e ↔
        happiness_score men_prefs women_prefs match_ = Raise e) ∧
  (∀ S, track_satisfaction match_ men_prefs women_prefs = Ok S →
     ∀ man woman ij, S !! (man, woman) = Some ij ↔
       (woman, man) ∈ match_ ∧ pair_ranks men_prefs women_prefs woman man = Ok ij) ∧
  (∀ (l : list agent) x, index l x = Some 0 ↔ head l = Some x).
Proof.
  split_and!.
  - apply happiness_score_rank_sum.
  - apply track_satisfaction_defined.
  - intros e. rewrite happiness_score_rank_sum. apply track_satisfaction_raises.
  - intros S HS man woman ij. by apply track_satisfaction_items.
  - apply index_front.
Qed.

(** X13. The two reporters return on the same dicts: [happiness_score]
    returns a score exactly when every pair of the dict ranks each other
    (the man's list holds the woman and the woman's list holds the man),
    and so does [track_satisfaction]; otherwise each raises. *)
Theorem reporters_return_together {agent : Type} `{Countable agent}
    (men_prefs women_prefs : list (agent * list agent))
    (match_ : list (agent * agent)) :
  ((∃ score, happiness_score men_prefs women_prefs match_ = Ok score) ↔
   Forall (ranked men_prefs women_prefs) match_) ∧
  ((∃ satisfaction,
      track_satisfaction match_ men_prefs women_prefs = Ok satisfaction) ↔
   Forall (ranked men_prefs women_prefs) match_).
Proof.
  split.
  - rewrite happiness_score_rank_sum. apply rank_sum_defined.
  - apply track_satisfaction_defined.
Qed.

(** X14. [happiness_score] returns 0, the best score, exactly when every
    pair of the dict are each other's first choice. *)
Theorem happiness_zero_is_mutual_first_choice {agent : Type} `{Countable agent}
    (men_prefs women_prefs : list (agent * list agent))
    (match_ : list (agent * agent)) :
  happiness_score men_prefs women_prefs match_ = Ok 0 ↔
  Forall (mutual_first men_prefs women_prefs) match_.
Proof. rewrite happiness_score_rank_sum. apply rank_sum_zero. Qed.

(** X15. What the reporters return does not depend on the order in which
    the items of the dict are iterated: if [happiness_score] or
    [track_satisfaction] returns for one order of the items, it returns
    the same for every other. *)
Theorem reporters_ignore_item_order {agent : Type} `{Countable agent}
    (men_prefs women_prefs : list (agent * list agent))
    (match_ match_' : list (agent * agent)) :
  match_ ≡ₚ match_' →
  (∀ score, happiness_score men_prefs women_prefs match_ = Ok score →
            happiness_score men_prefs women_prefs match_' = Ok score) ∧
  (∀ satisfaction,
     track_satisfaction match_ men_prefs women_prefs = Ok satisfaction →
     track_satisfaction match_' men_prefs women_prefs = Ok satisfaction).
Proof.
  intros Hperm. split.
  - intros score. rewrite !happiness_score_rank_sum. by apply rank_sum_perm.
  - intros satisfaction. by apply track_satisfaction_perm.
Qed.

Lemma reporters_ignore_item_order_witness :
  [("X", "A"); ("Y", "B"); ("Z", "C")] ≡ₚ [("Z", "C"); ("X", "A"); ("Y", "B")] ∧
  happiness_score men0 women0 [("X", "A"); ("Y", "B"); ("Z", "C")] = Ok 5 ∧
  happiness_score men0 women0 [("Z", "C"); ("X", "A"); ("Y", "B")] = Ok 5.
Proof.
  assert ([("X", "A"); ("Y", "B"); ("Z", "C")] ≡ₚ [("Z", "C"); ("X", "A"); ("Y", "B")])
    as Hperm by (apply (bool_decide_unpack _); vm_compute; exact I).
  assert (happiness_score men0 women0 [("X", "A"); ("Y", "B"); ("Z", "C")] = Ok 5)
    as Hscore by (vm_compute; reflexivity).
  split_and!; [exact Hperm|exact Hscore|].
  exact (proj1 (reporters_ignore_item_order men0 women0 _ _ Hperm) 5 Hscore).
Defined.

(** X16. [stable_marriage_with_happiness] on full lists raises nothing: it
    returns the matching of [stable_marriage], which no pair blocks, and a
    score that is the same in whatever order the dict is iterated and is
    at most (|P| + |R| - 2) for each of its pairs. *)
Theorem happiness_of_the_returned_matching {agent : Type} `{Countable agent}
    (men_prefs women_prefs : list (agent * list agent)) :
  complete men_prefs women_prefs →
  ∃ M score,
    stable men_prefs women_prefs M ∧
    score + 2 * size M ≤ size M * (length men_prefs + length women_prefs) ∧
    ∀ items, items M ≡ₚ map_to_list M →
      stable_marriage_with_happiness items men_prefs women_prefs
        = Some (Ok (M, score)).
Proof.
  intros Hwf.
  destruct (stable_marriage_complete men_prefs women_prefs Hwf)
    as (M & HM & Hstable & Hmatching & _).
  destruct (proj2 (rank_sum_defined men_prefs women_prefs (map_to_list M)))
    as [score Hscore]; [by apply matched_items_ranked|].
  exists M, score. split_and!; [done| |].
  - rewrite <- length_map_to_list.
    apply (rank_sum_bound men_prefs women_prefs); [|done].
    intros w m i j Hwm%elem_of_map_to_list Hij.
    destruct (matched_pair_ranks _ _ Hwf M w m Hmatching Hwm) as (i' & j' & Hij' & ? & ?).
    rewrite Hij in Hij'. injection Hij' as <- <-. lia.
  - intros items Hitems. unfold stable_marriage_with_happiness. rewrite HM. simpl.
    rewrite happiness_score_rank_sum.
    by rewrite (rank_sum_perm _ _ _ _ score (symmetry Hitems) Hscore).
Qed.

Lemma happiness_of_the_returned_matching_witness :
  complete men0 women0 ∧
  ∃ M score,
    stable men0 women0 M ∧
    score + 2 * size M ≤ size M * (length men0 + length women0) ∧
    ∀ items, items M ≡ₚ map_to_list M →
      stable_marriage_with_happiness items men0 women0 = Some (Ok (M, score)).
Proof.
  split; [exact complete0|].
  exact (happiness_of_the_returned_matching men0 women0 complete0).
Defined.

(** X17. [stable_marriage_with_satisfaction] on full lists raises nothing:
    beside the matching it returns a dict with one entry (man, woman) for
    each pair of the matching and no other, holding the pair's two rank
    positions, each within the length of the list it is taken from; the
    dict is the same in whatever order the matching is iterated. *)
Theorem satisfaction_of_the_returned_matching {agent : Type} `{Countable agent}
    (men_prefs women_prefs : list (agent * list agent)) :
  complete men_prefs women_prefs →
  ∃ M satisfaction,
    (∀ man woman, is_Some (satisfaction !! (man, woman)) ↔ M !! woman = Some man) ∧
    (∀ man woman i j, satisfaction !! (man, woman) = Some (i, j) →
       pair_ranks men_prefs women_prefs woman man = Ok (i, j) ∧
       i < length women_prefs ∧ j < length men_prefs) ∧
    ∀ items, items M ≡ₚ map_to_list M →
      stable_marriage_with_satisfaction items men_prefs women_prefs
        = Some (Ok (M, satisfaction)).
Proof.
  intros Hwf.
  destruct (stable_marriage_complete men_prefs women_prefs Hwf)
    as (M & HM & _ & Hmatching & _).
  destruct (proj2 (track_satisfaction_defined men_prefs women_prefs (map_to_list M)))
    as [S HS]; [by apply matched_items_ranked|].
  pose proof (track_satisfaction_items _ _ _ _ HS) as Hitems.
  exists M, S. split_and!.
  - intros man woman. split.
    + intros [ij [Hin _]%Hitems]. by apply elem_of_map_to_list in Hin.
    + intros Hwm.
      destruct (matched_pair_ranks _ _ Hwf M woman man Hmatching Hwm)
        as (i & j & Hij & _).
      exists (i, j). apply Hitems. split; [by apply elem_of_map_to_list|done].
  - intros man woman i j [Hin%elem_of_map_to_list Hij]%Hitems.
    destruct (matched_pair_ranks _ _ Hwf M woman man Hmatching Hin)
      as (i' & j' & Hij' & ? & ?).
    rewrite Hij in Hij'. by injection Hij' as <- <-.
  - intros items Hperm. unfold stable_marriage_with_satisfaction. rewrite HM. simpl.
    by rewrite (track_satisfaction_perm _ _ _ _ S (symmetry Hperm) HS).
Qed.

Lemma satisfaction_of_the_returned_matching_witness :
  complete men0 women0 ∧
  ∃ M satisfaction,
    (∀ man woman, is_Some (satisfaction !! (man, woman)) ↔ M !! woman = Some man) ∧
    (∀ man woman i j, satisfaction !! (man, woman) = Some (i, j) →
       pair_ranks men0 women0 woman man = Ok (i, j) ∧
       i < length women0 ∧ j < length men0) ∧
    ∀ items, items M ≡ₚ map_to_list M →
      stable_marriage_with_satisfaction items men0 women0
        = Some (Ok (M, satisfaction)).
Proof.
  split; [exact complete0|].
  exact (satisfaction_of_the_returned_matching men0 women0 complete0).
Defined.

(** ** The order of the keys of the two dicts *)

Section dict_order.
Context {agent : Type} `{Countable agent}.

Lemma getitem_perm {V} (d d' : list (agent * V)) k :
  NoDup d.*1 → d' ≡ₚ d → getitem d' k = getitem d k.
Proof.
  intros Hnd Hperm.
  assert (NoDup d'.*1) as Hnd' by (by rewrite Hperm).
  apply option_eq. intros v. split.
  - intros Hv%getitem_elem_of. apply getitem_unique; [done|]. by rewrite <- Hperm.
  - intros Hv%getitem_elem_of. apply getitem_unique; [done|]. by rewrite Hperm.
Qed.

Context (mp wp mp' wp' : list (agent * list agent)).
Hypothesis Hwf : complete mp wp.
Hypothesis Hmp : mp' ≡ₚ mp.
Hypothesis Hwp : wp' ≡ₚ wp.

Lemma complete_perm : complete mp' wp'.
Proof.
  destruct Hwf as (Hmen & Hwomen & Hml & Hwl). unfold complete.
  split_and!.
  - by rewrite Hmp.
  - by rewrite Hwp.
  - rewrite Hmp. eapply Forall_impl; [done|]. intros ml Hl. simpl in *.
    by rewrite Hwp.
  - rewrite Hwp. eapply Forall_impl; [done|]. intros wl Hl. simpl in *.
    by rewrite Hmp.
Qed.

Lemma getitem_men m : getitem mp' m = getitem mp m.
Proof. apply getitem_perm; [apply Hwf|done]. Qed.

Lemma getitem_women w : getitem wp' w = getitem wp w.
Proof. apply getitem_perm; [apply Hwf|done]. Qed.

Lemma matching_perm M : matching mp wp M → matching mp' wp' M.
Proof.
  intros [Hsides Hinj]. split; [|done].
  intros r p Hrp. rewrite Hmp, Hwp. by apply Hsides.
Qed.

Lemma blocking_perm M p r : blocking mp' wp' M p r → blocking mp wp M p r.
Proof.
  unfold blocking. rewrite Hmp, Hwp.
  intros (Hp & Hr & Hne & Hman & Hwoman). split_and!; [done..| |].
  - destruct Hman as [?|(r' & l & ? & Hl & ?)]; [by left|right].
    rewrite getitem_men in Hl. eauto.
  - destruct Hwoman as [?|(p' & l & ? & Hl & ?)]; [by left|right].
    rewrite getitem_women in Hl. eauto.
Qed.

Lemma stable_perm M : stable mp wp M → stable mp' wp' M.
Proof. intros Hst p r Hb. by apply (Hst p r), blocking_perm. Qed.

Lemma dominates_perm M M' : dominates mp' M M' → dominates mp M M'.
Proof.
  intros Hdom p r' Hr'. destruct (Hdom p r' Hr') as (r & l & Hr & Hl & Hle).
  rewrite getitem_men in Hl. eauto.
Qed.
End dict_order.

Section optimal.
Context {agent : Type} `{Countable agent}.
Context (men_preferences women_preferences : list (agent * list agent)).

Lemma stable_marriage_optimal_complete :
  complete men_preferences women_preferences →
  ∃ M, stable_marriage men_preferences women_preferences = Some (Ok M) ∧
       matching men_preferences women_preferences M ∧
       stable men_preferences women_preferences M ∧
       ∀ M', matching men_preferences women_preferences M' →
             stable men_preferences women_preferences M' →
             dominates men_preferences M M'.
Proof.
  intros Hwf.
  destruct (run_keeps _ _ Hwf
    (λ c, ∀ M', matching men_preferences women_preferences M' →
                stable men_preferences women_preferences M' →
                achievable M' c))
    as (c & Hrun & _ & Hs & Hc & Ha & Hcur & Hq).
  - intros M' _ _. apply achievable_initial.
  - intros c c' Hs Hc Ha Hmv M' HM Hst.
    eapply achievable_moves; [done..|by apply Ha|done].
  - exists (engaged c). unfold stable_marriage.
    rewrite matching_function_run by apply by_rank_reorders. rewrite Hrun.
    split_and!; [done|by apply finished_matching|by apply finished_stable|].
    intros M' HM Hst p r' Hr'.
    destruct (finished_optimal _ _ Hwf M' c HM Hs Hc (Ha M' HM Hst) Hcur Hq p r' Hr')
      as (r & l & i & j & ? & ? & ? & ? & ?).
    exists r, l. split_and!; [done..|]. by exists i, j.
Qed.

Lemma dominates_antisym (M M' : gmap agent agent) :
  matching men_preferences women_preferences M →
  dominates men_preferences M M' → dominates men_preferences M' M →
  ∀ r p, M !! r = Some p → M' !! r = Some p.
Proof.
  intros [_ Hinj] Hdom Hdom' r p Hrp.
  destruct (Hdom' p r Hrp) as (r2 & l & Hr2 & Hl & i & j & Hi & Hj & Hij).
  destruct (Hdom p r2 Hr2) as (r1 & l' & Hr1 & Hl' & i' & j' & Hi' & Hj' & Hij').
  assert (r1 = r) as -> by by eapply Hinj. simplify_eq.
  assert (i = j) as -> by lia. by rewrite (index_inj l r r2 j Hj Hi).
Qed.
End optimal.

(** X18. On full lists the dict [stable_marriage] returns does not depend
    on the order of the keys of [men_preferences], the order in which the
    proposers are first taken from the queue, nor on the order of the keys
    of [women_preferences]. *)
Theorem result_ignores_dict_order {agent : Type} `{Countable agent}
    (men_preferences women_preferences men_preferences' women_preferences'
      : list (agent * list agent)) :
  complete men_preferences women_preferences →
  men_preferences' ≡ₚ men_preferences →
  women_preferences' ≡ₚ women_preferences →
  stable_marriage men_preferences' women_preferences'
    = stable_marriage men_preferences women_preferences.
Proof.
  intros Hwf Hmp Hwp.
  pose proof (complete_perm _ _ _ _ Hwf Hmp Hwp) as Hwf'.
  destruct (stable_marriage_optimal_complete _ _ Hwf) as (M & -> & HM & Hst & Hopt).
  destruct (stable_marriage_optimal_complete _ _ Hwf') as (M' & -> & HM' & Hst' & Hopt').
  assert (matching men_preferences women_preferences M') as HM'0.
  { apply (matching_perm _ _ _ _ (symmetry Hmp) (symmetry Hwp)), HM'. }
  assert (stable men_preferences women_preferences M') as Hst'0.
  { apply (stable_perm _ _ _ _ Hwf' (symmetry Hmp) (symmetry Hwp)), Hst'. }
  assert (dominates men_preferences M M') as Hdom by by apply Hopt.
  assert (dominates men_preferences M' M) as Hdom'.
  { apply (dominates_perm _ _ _ Hwf Hmp), Hopt'.
    - by apply (matching_perm _ _ _ _ Hmp Hwp).
    - by apply (stable_perm _ _ _ _ Hwf Hmp Hwp). }
  do 2 f_equal. apply map_eq. intros r. apply option_eq. intros p. split.
  - by apply (dominates_antisym men_preferences women_preferences M' M).
  - by apply (dominates_antisym men_preferences women_preferences M M').
Qed.

Lemma result_ignores_dict_order_witness :
  complete men0 women0 ∧
  reverse men0 ≡ₚ men0 ∧ reverse women0 ≡ₚ women0 ∧
  stable_marriage (reverse men0) (reverse women0) = stable_marriage men0 women0.
Proof.
  assert (reverse men0 ≡ₚ men0) as Hmp
    by (apply (bool_decide_unpack _); vm_compute; exact I).
  assert (reverse women0 ≡ₚ women0) as Hwp
    by (apply (bool_decide_unpack _); vm_compute; exact I).
  split_and!; [exact complete0|exact Hmp|exact Hwp|].
  exact (result_ignores_dict_order men0 women0 _ _ complete0 Hmp Hwp).
Defined.

(** ** Proposers left without a partner *)

Section thorough_runs.
Context {agent : Type} `{Countable agent}.
Context (pol : policy agent) (men_preferences : list (agent * list agent)).
Hypothesis Hro : reorders pol.

Lemma thorough_initial : thorough men_preferences (initial men_preferences).
Proof.
  split.
  - done.
  - intros m l Hl. left. unfold waiting, active. simpl. rewrite app_nil_r.
    apply getitem_is_Some. eauto.
  - intros m ps w [-> _]%initial_history_inv Hw. by apply elem_of_nil in Hw.
Qed.

Lemma thorough_moves c c' :
  sound men_preferences c → thorough men_preferences c →
  moves pol men_preferences c c' → thorough men_preferences c'.
Proof.
  intros Hs [Hcur Hmen Hwomen] Hmv.
  destruct Hmv as [man queue e p l women Hl Hrank
                  |queue e p man
                  |queue e p man woman rest history Hh Hin
                  |queue e p man woman rest history Hh Hnew Hfree
                  |queue e p man woman rest history current_man Hh Hnew Hcm Hacc
                  |queue e p man woman rest history current_man Hh Hnew Hcm Hacc];
    unfold waiting, active in *; simpl in *.
  - split; simpl.
    + intros m rest [= <- <-].
      destruct (sound_history _ _ Hs man) as [ps Hps].
      { apply getitem_is_Some. eauto. }
      exists l, ps. split_and!; [done..|]. intros w Hw. right.
      by rewrite (Hro _ _ _ Hrank).
    + intros m l' Hl'. destruct (Hmen m l' Hl') as [Hw|Hother]; [|by right].
      left. unfold waiting, active. simpl. rewrite app_nil_r in Hw.
      apply elem_of_cons in Hw as [->|Hw]; apply elem_of_app; [right; left|by left].
    + done.
  - split; simpl.
    + done.
    + intros m l Hl. destruct (Hmen m l Hl) as [Hw|Hother]; [|by right].
      unfold waiting, active. simpl. rewrite app_nil_r.
      apply elem_of_app in Hw as [Hw|Hw]; [by left|].
      apply list_elem_of_singleton in Hw as ->.
      destruct (Hcur man [] eq_refl) as (l' & ps & Hl' & Hps & Hall).
      simplify_eq. right. right. exists ps. split; [done|].
      intros w Hw. by destruct (Hall w Hw) as [?|?%elem_of_nil].
    + done.
  - split; simpl.
    + intros m rest' [= <- <-].
      destruct (Hcur man (woman :: rest) eq_refl) as (l & ps & Hl & Hps & Hall).
      exists l, ps. split_and!; [done..|]. intros w Hw.
      destruct (Hall w Hw) as [?|[->|?]%elem_of_cons]; [by left| |by right].
      left. by simplify_eq.
    + done.
    + done.
  - split; simpl.
    + done.
    + intros m l Hl. unfold waiting, active. simpl. rewrite app_nil_r.
      destruct (decide (m = man)) as [->|Hne].
      { right. left. exists woman. by rewrite lookup_insert_eq. }
      destruct (Hmen m l Hl) as [Hw|[[w Hw]|(ps & Hps & Hsub)]].
      * left. apply elem_of_app in Hw as [?|?%list_elem_of_singleton]; done.
      * right. left. exists w. rewrite lookup_insert_ne; [done|congruence].
      * right. right. exists ps. by rewrite lookup_insert_ne.
    + intros m ps w Hps Hw. destruct (decide (woman = w)) as [->|Hne].
      { by rewrite lookup_insert_eq. }
      rewrite lookup_insert_ne by done.
      destruct (decide (man = m)) as [->|Hm].
      * rewrite lookup_insert_eq in Hps. simplify_eq.
        apply elem_of_app in Hw as [Hw|Hw%list_elem_of_singleton]; [|done].
        by apply (Hwomen m history).
      * rewrite lookup_insert_ne in Hps by done. by apply (Hwomen m ps).
  - split; simpl.
    + done.
    + intros m l Hl. unfold waiting, active. simpl. rewrite app_nil_r.
      destruct (decide (m = man)) as [->|Hne].
      { right. left. exists woman. by rewrite lookup_insert_eq. }
      destruct (Hmen m l Hl) as [Hw|[[w Hw]|(ps & Hps & Hsub)]].
      * left. apply elem_of_app in Hw as [?|?%list_elem_of_singleton]; [|done].
        apply elem_of_app. by left.
      * destruct (decide (woman = w)) as [->|Hw'].
        -- left. simplify_eq. apply elem_of_app. right. left.
        -- right. left. exists w. by rewrite lookup_insert_ne.
      * right. right. exists ps. by rewrite lookup_insert_ne.
    + intros m ps w Hps Hw. destruct (decide (woman = w)) as [->|Hne].
      { by rewrite lookup_insert_eq. }
      rewrite lookup_insert_ne by done.
      destruct (decide (man = m)) as [->|Hm].
      * rewrite lookup_insert_eq in Hps. simplify_eq.
        apply elem_of_app in Hw as [Hw|Hw%list_elem_of_singleton]; [|done].
        by apply (Hwomen m history).
      * rewrite lookup_insert_ne in Hps by done. by apply (Hwomen m ps).
  - split; simpl.
    + intros m rest' [= <- <-].
      destruct (Hcur man (woman :: rest) eq_refl) as (l & ps & Hl & Hps & Hall).
      simplify_eq. exists l, (history ++ [woman]). rewrite lookup_insert_eq.
      split_and!; [done..|]. intros w Hw.
      destruct (Hall w Hw) as [?|[->|?]%elem_of_cons].
      * left. apply elem_of_app. by left.
      * left. apply elem_of_app. right. left.
      * by right.
    + intros m l Hl. destruct (Hmen m l Hl) as [Hw|[?|(ps & Hps & Hsub)]];
        [by left|by right; left|].
      destruct (decide (man = m)) as [->|Hm].
      * left. apply elem_of_app. right. left.
      * right. right. exists ps. by rewrite lookup_insert_ne.
    + intros m ps w Hps Hw. destruct (decide (man = m)) as [->|Hm].
      * rewrite lookup_insert_eq in Hps. simplify_eq.
        apply elem_of_app in Hw as [Hw|Hw%list_elem_of_singleton].
        -- by apply (Hwomen m history).
        -- subst. eauto.
      * rewrite lookup_insert_ne in Hps by done. by apply (Hwomen m ps).
Qed.

Lemma thorough_reachable c :
  NoDup men_preferences.*1 →
  reachable pol men_preferences c → thorough men_preferences c.
Proof.
  intros Hnd. apply (reachable_ind_moves pol men_preferences).
  - apply thorough_initial.
  - intros c1 c2 Hc1 Ht Hmv. apply (thorough_moves c1 c2); [|done..].
    by apply (sound_reachable pol).
Qed.
End thorough_runs.

(** X19. In the dict any of the six functions returns, no proposer and
    receiver of his list are both left out: a proposer without a partner
    has proposed to every receiver of his list, and every one of them is
    matched. *)
Theorem no_free_pair_is_left {agent : Type} `{Countable agent}
    (men_preferences women_preferences : list (agent * list agent))
    (trust_scores honor_weights emotional_scores care_thresholds
      : gmap (agent * agent) float)
    (pol : policy agent) (M : gmap agent agent) :
  pol ∈ variants women_preferences trust_scores honor_weights emotional_scores
                 care_thresholds →
  NoDup men_preferences.*1 →
  matching_function pol men_preferences = Some (Ok M) →
  ∀ m l w, getitem men_preferences m = Some l → w ∈ l → single M m →
           is_Some (M !! w).
Proof.
  intros Hpol%variants_reorder Hnd (c & Hc & Hcur & Hq & <-)%finished_reachable;
    [|done].
  pose proof (thorough_reachable pol men_preferences Hpol c Hnd Hc) as [_ Hmen Hwomen].
  intros m l w Hl Hw Hsingle.
  destruct (Hmen m l Hl) as [Hwait|[[w' Hw']|(ps & Hps & Hsub)]].
  - unfold waiting, active in Hwait. rewrite Hcur, Hq in Hwait.
    by apply elem_of_nil in Hwait.
  - by destruct (Hsingle w').
  - apply (Hwomen m ps); [done|]. by apply Hsub.
Qed.

Lemma no_free_pair_is_left_witness :
  by_rank women2 ∈ variants women2 trust0 honor0 emotional0 care0 ∧
  NoDup men3.*1 ∧
  matching_function (by_rank women2) men3 = Some (Ok matching2) ∧
  ∀ m l w, getitem men3 m = Some l → w ∈ l → single matching2 m →
           is_Some (matching2 !! w).
Proof.
  assert (by_rank women2 ∈ variants women2 trust0 honor0 emotional0 care0) as Hpol
    by left.
  assert (NoDup men3.*1) as Hnd by (apply (bool_decide_unpack _); vm_compute; exact I).
  assert (matching_function (by_rank women2) men3 = Some (Ok matching2)) as Hrun
    by (vm_compute; reflexivity).
  split_and!; [exact Hpol|exact Hnd|exact Hrun|].
  exact (no_free_pair_is_left men3 women2 trust0 honor0 emotional0 care0 _ _
           Hpol Hnd Hrun).
Defined.

(** X20. In [trust_based_stable_marriage], [honor_based_matching] and
    [emotional_compatibility_matching] the [for] loop walks through the
    proposer's list by score, highest first, women of equal score in the
    order of his list: when no score of the table is NaN, the list the loop
    iterates over is that stable sort of [men_preferences[man]], and no
    other list is. *)
Theorem proposers_walk_by_score {agent : Type} `{Countable agent}
    (scores : gmap (agent * agent) float)
    (man : agent) (man_pref_list women : list agent) :
  map_Forall (λ _ k, PrimFloat.is_nan k = false) scores →
  ranking (by_score scores) man man_pref_list = Ok women →
  sorted_from (λ woman, scores !! (man, woman)) man_pref_list women ∧
  ∀ l, sorted_from (λ woman, scores !! (man, woman)) man_pref_list l → l = women.
Proof.
  intros Hnum Hrank. simpl in Hrank.
  assert (sorted_from (λ woman, scores !! (man, woman)) man_pref_list women) as Hsorted.
  { apply sorted_desc_sorted_from; [|done].
    intros woman a _ Ha. by apply (Hnum (man, woman)). }
  split; [done|]. intros l Hl.
  apply (sorted_from_unique (λ woman, scores !! (man, woman)) man_pref_list); [|done..].
  intros woman Hwoman.
  destruct (sorted_desc_keys_defined (λ woman, scores !! (man, woman))
              _ _ woman Hrank Hwoman) as [a Ha].
  exists a. split; [done|]. by apply (Hnum (man, woman)).
Qed.

Lemma proposers_walk_by_score_witness :
  map_Forall (λ _ k, PrimFloat.is_nan k = false) honor0 ∧
  ranking (by_score honor0) "A" ["X"; "Y"; "Z"] = Ok ["Z"; "X"; "Y"] ∧
  sorted_from (λ woman, honor0 !! ("A", woman)) ["X"; "Y"; "Z"] ["Z"; "X"; "Y"] ∧
  ∀ l, sorted_from (λ woman, honor0 !! ("A", woman)) ["X"; "Y"; "Z"] l →
       l = ["Z"; "X"; "Y"].
Proof.
  assert (map_Forall (λ _ k, PrimFloat.is_nan k = false) honor0) as Hnum
    by (apply (bool_decide_unpack _); vm_compute; exact I).
  assert (ranking (by_score honor0) "A" ["X"; "Y"; "Z"] = Ok ["Z"; "X"; "Y"]) as Hrank
    by (vm_compute; reflexivity).
  split_and!; [exact Hnum|exact Hrank| |];
    apply (proposers_walk_by_score honor0 "A" _ _ Hnum Hrank).
Defined.

(** ** Lists that are not permutations: where a run raises *)

Section raises.
Context {agent : Type} `{Countable agent}.
Context (men_preferences women_preferences : list (agent * list agent)).

Lemma by_rank_raise woman man current_man x :
  accepts (by_rank women_preferences) woman man current_man = Raise x →
  (getitem women_preferences woman = None ∧ x = KeyError) ∨
  ∃ l, getitem women_preferences woman = Some l ∧
       ((man ∉ l) ∨ (current_man ∉ l)) ∧ x = ValueError.
Proof.
  simpl. unfold list_index.
  destruct (getitem women_preferences woman) as [l|]; simpl.
  - destruct (index l man) as [i|] eqn:Hi; simpl.
    + destruct (index l current_man) as [j|] eqn:Hj; simpl; [done|].
      intros [= <-]. right. exists l. split_and!; [done| |done].
      right. intros Hin%index_is_Some. rewrite Hj in Hin. by destruct Hin.
    + intros [= <-]. right. exists l. split_and!; [done| |done].
      left. intros Hin%index_is_Some. rewrite Hi in Hin. by destruct Hin.
  - intros [= <-]. by left.
Qed.

(** A run raises only in the comparison, for a woman the man has just
    been recorded as proposing to and who is engaged. *)
Lemma raise_in_comparison x c :
  NoDup men_preferences.*1 →
  run (by_rank women_preferences) men_preferences = Failed x c →
  ∃ man woman history rest current_man,
    cursor c = Some (man, rest) ∧
    proposals c !! man = Some (history ++ [woman]) ∧ (woman ∉ history) ∧
    engaged c !! woman = Some current_man ∧
    accepts (by_rank women_preferences) woman man current_man = Raise x.
Proof.
  intros Hnd (c0 & Hc0 & Hthrow)%exec_failed; [|apply reachable_initial].
  pose proof (sound_reachable _ _ _ Hnd Hc0) as Hs.
  destruct Hthrow as [man queue e p Hl|man queue e p l x Hl Hr
    |queue e p man woman rest Hp
    |queue e p man woman rest history current_man x Hp Hin He Ha].
  - assert (is_Some (getitem men_preferences man)) as [? ?]; [|congruence].
    apply getitem_is_Some, (sound_men _ _ Hs). apply elem_of_app. left. left.
  - done.
  - destruct (sound_history _ _ Hs man) as [? ?]; [|simpl in *; congruence].
    apply (sound_men _ _ Hs). apply elem_of_app. right. left.
  - exists man, woman, history, rest, current_man. simpl.
    by rewrite lookup_insert_eq.
Qed.

Lemma names_known_matching :
  NoDup men_preferences.*1 → names_known men_preferences women_preferences →
  ∃ M, stable_marriage men_preferences women_preferences = Some (Ok M) ∧
       matching men_preferences women_preferences M ∧
       pairs_from men_preferences M ∧
       ∀ m l w, getitem men_preferences m = Some l → w ∈ l → single M m →
                is_Some (M !! w).
Proof.
  intros Hnd Hk. destruct (names_known_returns _ _ Hnd Hk) as [c0 Hc0].
  assert (stable_marriage men_preferences women_preferences = Some (Ok (engaged c0)))
    as Hret.
  { unfold stable_marriage. rewrite matching_function_run by apply by_rank_reorders.
    by rewrite Hc0. }
  exists (engaged c0). split; [done|].
  destruct (finished_reachable men_preferences (by_rank women_preferences) _
              (by_rank_reorders _) Hret) as (c & Hc & Hcur & Hq & HM).
  rewrite <- HM.
  pose proof (sound_reachable _ _ _ Hnd Hc) as Hs.
  pose proof (bounded_reachable _ _ _ (by_rank_reorders women_preferences) Hc) as Hb.
  pose proof (thorough_reachable _ men_preferences
                (by_rank_reorders women_preferences) c Hnd Hc) as [_ Hmen Hwomen].
  assert (pairs_from men_preferences (engaged c)) as Hpairs.
  { intros w m (_ & _ & ps & Hps & Hlast)%(sound_engaged _ _ Hs).
    destruct (bounded_history _ _ Hb _ _ Hps) as (l & Hl & _ & Hsub).
    exists l. split; [done|]. apply Hsub.
    apply last_Some in Hlast as [ps' ->]. apply elem_of_app. right. left. }
  split_and!; [|done|].
  - split.
    + intros r p Hrp. destruct (Hpairs r p Hrp) as (l & Hl & Hr). split.
      * unfold names_known in Hk. rewrite Forall_forall in Hk.
        pose proof (Hk _ (getitem_elem_of _ _ _ Hl)) as Hall. simpl in Hall.
        rewrite Forall_forall in Hall. destruct (Hall r Hr) as (lw & Hlw & _).
        apply getitem_is_Some. eauto.
      * apply getitem_is_Some. eauto.
    + intros r r' p. by apply (sound_injective men_preferences c).
  - intros m l w Hl Hw Hsingle.
    destruct (Hmen m l Hl) as [Hwait|[[w' Hw']|(ps & Hps & Hsub)]].
    + unfold waiting, active in Hwait. rewrite Hcur, Hq in Hwait.
      by apply elem_of_nil in Hwait.
    + by destruct (Hsingle w').
    + apply (Hwomen m ps); [done|]. by apply Hsub.
Qed.
End raises.

(** C6, amended. [stable_marriage] does not validate the lists. When the
    proposers' lists name only keys of [women_preferences] whose lists hold
    every proposer, whether or not they are permutations, the call returns
    a matching: no proposer twice, every pair a proposer and a receiver of
    his list, and a proposer is left out only when every receiver of his
    list is matched. And a run raises only in the comparison of the
    proposal loop: the proposer's history then ends with the receiver he
    has just proposed to, who is engaged; the exception is KeyError when
    she is no key of [women_preferences] and ValueError when her list
    lacks the proposer or her partner. *)
Theorem partial_lists_are_run {agent : Type} `{Countable agent}
    (men_preferences women_preferences : list (agent * list agent)) :
  NoDup men_preferences.*1 →
  (names_known men_preferences women_preferences →
     ∃ M, stable_marriage men_preferences women_preferences = Some (Ok M) ∧
          matching men_preferences women_preferences M ∧
          pairs_from men_preferences M ∧
          ∀ m l w, getitem men_preferences m = Some l → w ∈ l → single M m →
                   is_Some (M !! w)) ∧
  (∀ x c, run (by_rank women_preferences) men_preferences = Failed x c →
     stable_marriage men_preferences women_preferences = Some (Raise x) ∧
     ∃ man woman history rest current_man,
       cursor c = Some (man, rest) ∧
       proposals c !! man = Some (history ++ [woman]) ∧ (woman ∉ history) ∧
       engaged c !! woman = Some current_man ∧
       ((getitem women_preferences woman = None ∧ x = KeyError) ∨
        ∃ l, getitem women_preferences woman = Some l ∧
             ((man ∉ l) ∨ (current_man ∉ l)) ∧ x = ValueError)).
Proof.
  intros Hnd. split.
  - by apply names_known_matching.
  - intros x c Hrun. split.
    + unfold stable_marriage. rewrite matching_function_run by apply by_rank_reorders.
      by rewrite Hrun.
    + destruct (raise_in_comparison _ _ x c Hnd Hrun)
        as (man & woman & history & rest & current_man & Hcur & Hps & Hnew & He & Hacc).
      exists man, woman, history, rest, current_man. split_and!; [done..|].
      by apply by_rank_raise.
Qed.

Lemma partial_lists_are_run_witness :
  (NoDup men_short.*1 ∧ names_known men_short women0 ∧
   ∃ M, stable_marriage men_short women0 = Some (Ok M) ∧
        matching men_short women0 M ∧ pairs_from men_short M ∧
        ∀ m l w, getitem men_short m = Some l → w ∈ l → single M m →
                 is_Some (M !! w)) ∧
  (NoDup men_rivals.*1 ∧
   run (by_rank women_one) men_rivals = Failed ValueError after_rival_raise ∧
   stable_marriage men_rivals women_one = Some (Raise ValueError) ∧
   ∃ man woman history rest current_man,
     cursor after_rival_raise = Some (man, rest) ∧
     proposals after_rival_raise !! man = Some (history ++ [woman]) ∧
     (woman ∉ history) ∧
     engaged after_rival_raise !! woman = Some current_man ∧
     ((getitem women_one woman = None ∧ ValueError = KeyError) ∨
      ∃ l, getitem women_one woman = Some l ∧
           ((man ∉ l) ∨ (current_man ∉ l)) ∧ ValueError = ValueError)).
Proof.
  assert (NoDup men_short.*1) as Hnd
    by (apply (bool_decide_unpack _); vm_compute; exact I).
  assert (names_known men_short women0) as Hk
    by (apply (bool_decide_unpack _); vm_compute; exact I).
  assert (NoDup men_rivals.*1) as Hnd'
    by (apply (bool_decide_unpack _); vm_compute; exact I).
  assert (run (by_rank women_one) men_rivals = Failed ValueError after_rival_raise)
    as Hrun by (vm_compute; reflexivity).
  split.
  - split_and!; [exact Hnd|exact Hk|].
    exact (proj1 (partial_lists_are_run men_short women0 Hnd) Hk).
  - split_and!; [exact Hnd'|exact Hrun| |];
      apply (proj2 (partial_lists_are_run men_rivals women_one Hnd') _ _ Hrun).
Defined.
